(** * DIAMONDS: the nested-sampling driver and the parameter summary

    A shallow embedding of [NestedSampler::NestedSampler], [NestedSampler::run]
    and [NestedSampler::printComputationalTime] (source/NestedSampler.cpp) and of
    [Results::posteriorProbability] and [Results::parameterEstimation]
    (source/Results.cpp).

    Conventions of the embedding:
    - a C++ [double] is a real number of [R]: rounding is not modelled,
      [exp], [sqrt] and [fabs] are [exp], [sqrt] and [Rabs], and [log] is
      [ln] where its argument is known to be positive; the one logarithm of
      [run] whose argument can be zero or negative, that of
      [logRemainingPriorMass], is partial ([log]), and
      [Results::posteriorProbability] is modelled only where its
      exponentials, their sum and the quotients stay within the range of a
      double ([in_double_range]); elsewhere overflow is not modelled;
    - a C++ [int] is an integer of [Z]; overflow is not modelled;
    - an Eigen [ArrayXd] is a list of reals, an [ArrayXXd] a number of rows
      together with the list of its columns (Eigen is column-major, and the
      sampler stores one point per column);
    - the collaborators whose code lives in other translation units (priors,
      likelihood, clusterer, the constrained draw of the derived sampler, the
      random engine and the clock) are variables of the section; everything
      they may change is threaded through an abstract [World];
    - a computation is [None] when the C++ has no defined result there (an
      index out of range, an Eigen size assertion, a negative size, a
      division by zero in [%]), when its result is not a real number or lies
      outside the range that is modelled, or when a loop does not finish
      within the fuel it was given. *)

From Stdlib Require Import Reals Lra Lia ZArith String.
From stdpp Require Import base option list.

Open Scope R_scope.

#[global] Instance Rlt_decision (x y : R) : Decision (x < y) := Rlt_dec x y.
#[global] Instance Rle_decision (x y : R) : Decision (x <= y) := Rle_dec x y.

(** ** Arrays *)

Abbreviation ArrayXd := (list R).

Record ArrayXXd := MkArrayXXd {
  rows : nat;
  columns : list ArrayXd
}.

Definition cols (m : ArrayXXd) : nat := length (columns m).

Definition col (m : ArrayXXd) (j : nat) : option ArrayXd := columns m !! j.

(** [m.row(i)]: the i-th coefficient of every column. *)
Definition row (m : ArrayXXd) (i : nat) : option ArrayXd :=
  mapM (fun c : ArrayXd => c !! i) (columns m).

(** [a.segment(start, n) = v] and, column-wise, [m.block(0, start, rows, n) = b]:
    Eigen asserts that the segment lies inside the array and that the sizes
    agree. *)
Definition set_segment {A} (start : nat) (v : list A) (a : list A) : option (list A) :=
  if decide (start + length v <= length a)%nat
  then Some (take start a ++ v ++ drop (start + length v) a)
  else None.

(** [a(i) = x] *)
Definition set_coeff {A} (i : nat) (x : A) (a : list A) : option (list A) :=
  if decide (i < length a)%nat then Some (<[i := x]> a) else None.

(** [Functions::logExpSum], the log-domain addition.

    Modelled from the spec: the body of [Functions::logExpSum] (Functions.cpp)
    is not part of the sources at hand; the specification describes it as the
    log-sum-exp utility, log (e^x + e^y). *)
Definition logExpSum (x y : R) : R := ln (exp x + exp y).

(** [log] on an argument that can be zero or negative: a real number for a
    positive argument only; the C++ gives minus infinity at 0 and a NaN
    below. *)
Definition log (x : R) : option R := if decide (0 < x) then Some (ln x) else None.

(** [numeric_limits<double>::lowest()], the sentinel used for minus infinity:
    -(2 - 2^-52) * 2^1023. *)
Definition lowest : R := - ((2 - / 2 ^ 52) * 2 ^ 1023).

(** [ArrayXd::minCoeff(&index)]: Eigen's visitor starts from the first
    coefficient and moves on only when a strictly smaller one is met, so the
    index is that of the first occurrence of the minimum. *)
Fixpoint minCoeff_visit (best : R) (ibest i : nat) (l : ArrayXd) : R * nat :=
  match l with
  | [] => (best, ibest)
  | x :: l' =>
      if decide (x < best) then minCoeff_visit x i (S i) l'
      else minCoeff_visit best ibest (S i) l'
  end.

Definition minCoeff (a : ArrayXd) : option (R * nat) :=
  match a with
  | [] => None
  | x :: l => Some (minCoeff_visit x 0 1 l)
  end.

(** [a % b] on [int]: truncated remainder, undefined for a zero divisor. *)
Definition int_rem (a b : Z) : option Z :=
  if decide (b = 0%Z) then None else Some (Z.rem a b).

(** What is written on [cerr]. *)
Inductive Output :=
| Text (s : string)
| Progress (Nit Ncl Nlive : Z) (CPM Ratio logE IG : R)
| Elapsed (t : R) (unit : string).

Definition warning_no_better_point : list Output :=
  [ Text "Can't find point with a better Likelihood";
    Text "Stopping the nested sampling loop prematurely." ].

(** Calls to the collaborators, recorded to state when they happen. *)
Inductive Call :=
| CallCluster (Nit : Z)
| CallDraw (Nit : Z).

Section NestedSampling.

(** State of everything outside the sampler object: random engines, clock,
    internals of the clusterer and of the derived sampler. *)
Variable World : Type.

(** [time(0)] *)
Variable time0 : World -> Z.

(** [engine.seed(clock())] *)
Variable seedEngine : World -> World.

(** Content of memory that Eigen's [resize] leaves uninitialised. *)
Variable uninitialized : R.

(** A prior: [getNdimensions()] and [draw(sample)], which fills the
    coefficient (r, c) of the array it is handed, of the given size. *)
Record Prior := MkPrior {
  getNdimensions : Z;
  draw : nat -> nat -> World -> (nat -> nat -> R) * World
}.

(** [likelihood.logValue(point)] *)
Variable logValue : ArrayXd -> R.

(** [clusterer.cluster(sample, clusterIndices, clusterSizes, print)]: returns
    the number of clusters and fills the two vectors. *)
Variable cluster :
  ArrayXXd -> list Z -> list Z -> bool -> World -> (Z * list Z * list Z) * World.

(** [discreteUniform(engine)] for [uniform_int_distribution<int>(a, b)] *)
Variable discreteUniform : Z -> Z -> World -> Z * World.

Record NestedSampler := MkNestedSampler {
  ptrPriors : list Prior;
  printOnTheScreen : bool;
  Nobjects : Z;
  Ndimensions : Z;
  nestedSample : ArrayXXd;
  logLikelihood : ArrayXd;
  posteriorSample : ArrayXXd;
  logLikelihoodOfPosteriorSample : ArrayXd;
  logWeightOfPosteriorSample : ArrayXd;
  logCumulatedPriorMass : R;
  logRemainingPriorMass : option R;
  Niterations : Z;
  informationGain : R;
  logEvidence : R;
  logEvidenceError : R;
  logMeanLikelihoodOfLivePoints : R;
  worstLiveLogLikelihood : R;
  computationalTime : R
}.

(** The pure virtual [drawWithConstraint] of the derived sampler: it sees the
    sampler object and its arguments, and returns whether a point was found,
    the drawn point and its log-likelihood. *)
Variable drawWithConstraint :
  NestedSampler -> ArrayXXd -> Z -> list Z -> list Z -> ArrayXd -> Z ->
  World -> (bool * ArrayXd * R) * World.

(** *** Eigen resizing *)

Definition resizeXX (r c : nat) : ArrayXXd :=
  MkArrayXXd r (replicate c (replicate r uninitialized)).

Definition conservativeResize (n : nat) (a : ArrayXd) : ArrayXd :=
  resize n uninitialized a.

Definition conservativeResizeXX (r c : nat) (m : ArrayXXd) : ArrayXXd :=
  MkArrayXXd r
    (resize c (replicate r uninitialized)
       (map (resize r uninitialized) (columns m))).

(** [m.col(j) = v] *)
Definition set_col (j : nat) (v : ArrayXd) (m : ArrayXXd) : option ArrayXXd :=
  if decide (length v = rows m) then
    cs ← set_coeff j v (columns m); Some (MkArrayXXd (rows m) cs)
  else None.

(** [m.block(0, start, m.rows(), b.cols()) = b] *)
Definition set_columns (start : nat) (b : ArrayXXd) (m : ArrayXXd) : option ArrayXXd :=
  if decide (rows b = rows m) then
    cs ← set_segment start (columns b) (columns m); Some (MkArrayXXd (rows m) cs)
  else None.

(** [m.block(begin, 0, d, m.cols()) = b], the array [b] given by its
    coefficients. *)
Definition set_rows (begin d : nat) (b : nat -> nat -> R) (m : ArrayXXd) : option ArrayXXd :=
  if decide (begin + d <= rows m)%nat then
    Some (MkArrayXXd (rows m)
            (imap (fun j c => take begin c ++ map (fun r => b r j) (seq 0 d)
                                ++ drop (begin + d) c) (columns m)))
  else None.

(** *** The constructor *)

Definition sumNdimensions (ps : list Prior) : Z :=
  fold_left (fun acc p => (acc + getNdimensions p)%Z) ps 0%Z.

Definition NestedSampler_new (print : bool) (N : Z) (ps : list Prior) (w : World)
  : NestedSampler * World :=
  ({| ptrPriors := ps;
      printOnTheScreen := print;
      Nobjects := N;
      Ndimensions := sumNdimensions ps;
      nestedSample := MkArrayXXd 0 [];
      logLikelihood := [];
      posteriorSample := MkArrayXXd 0 [];
      logLikelihoodOfPosteriorSample := [];
      logWeightOfPosteriorSample := [];
      logCumulatedPriorMass := lowest;
      logRemainingPriorMass := Some 0;
      Niterations := 0;
      informationGain := 0;
      logEvidence := lowest;
      logEvidenceError := uninitialized;
      logMeanLikelihoodOfLivePoints := uninitialized;
      worstLiveLogLikelihood := uninitialized;
      computationalTime := uninitialized |},
   seedEngine w).

(** *** The state of [run]: the object, the locals, the world *)

Record RunState := MkRunState {
  self : NestedSampler;
  startTime : Z;
  logMeanLiveEvidence : R;
  ratioOfRemainderToActualEvidence : R;
  logWidthInPriorMass : R;
  Nclusters : Z;
  clusterIndices : list Z;
  clusterSizes : list Z;
  world : World;
  cerr : list Output;
  calls : list Call
}.

(** *** Initialisation: lines 122 to 196 of NestedSampler.cpp *)

(** The loop over the priors: each draws its block of coordinates, which is
    copied into the rows [beginIndex ..] of the sample. *)
Fixpoint drawFromPriors (ps : list Prior) (N : nat) (beginIndex : nat)
         (sample : ArrayXXd) (w : World) : option (ArrayXXd * World) :=
  match ps with
  | [] => Some (sample, w)
  | p :: ps' =>
      if decide (0 <= getNdimensions p)%Z then
        let d := Z.to_nat (getNdimensions p) in
        let '(priorSample, w') := draw p d N w in
        sample' ← set_rows beginIndex d priorSample sample;
        drawFromPriors ps' N (beginIndex + d) sample' w'
      else None
  end.

Definition run_init (s : NestedSampler) (w : World) (out : list Output)
  : option RunState :=
  let start := time0 w in
  let N := Z.to_nat (Nobjects s) in
  if decide (0 <= Nobjects s /\ 0 <= Ndimensions s)%Z then
  '(sample, w1) ← drawFromPriors (ptrPriors s) N 0
                     (resizeXX (Z.to_nat (Ndimensions s)) N) w;
  let logL := map logValue (columns sample) in
  let logWidth := ln (1 - exp (- 1 / IZR (Nobjects s))) in
  Some {| self :=
            {| ptrPriors := ptrPriors s;
               printOnTheScreen := printOnTheScreen s;
               Nobjects := Nobjects s;
               Ndimensions := Ndimensions s;
               nestedSample := sample;
               logLikelihood := logL;
               posteriorSample := posteriorSample s;
               logLikelihoodOfPosteriorSample := logLikelihoodOfPosteriorSample s;
               logWeightOfPosteriorSample := logWeightOfPosteriorSample s;
               logCumulatedPriorMass := logExpSum (logCumulatedPriorMass s) logWidth;
               logRemainingPriorMass := logRemainingPriorMass s;
               Niterations := 0;
               informationGain := informationGain s;
               logEvidence := logEvidence s;
               logEvidenceError := logEvidenceError s;
               logMeanLikelihoodOfLivePoints := logMeanLikelihoodOfLivePoints s;
               worstLiveLogLikelihood := worstLiveLogLikelihood s;
               computationalTime := computationalTime s |};
          startTime := start;
          logMeanLiveEvidence := uninitialized;
          ratioOfRemainderToActualEvidence := uninitialized;
          logWidthInPriorMass := logWidth;
          Nclusters := 0;
          clusterIndices := replicate N 0%Z;
          clusterSizes := [];
          world := w1;
          cerr := out;
          calls := [] |}
  else None.

(** *** One iteration of the nested loop: lines 198 to 380 *)

(** How an iteration ends: the loop goes on, the stopping criterion is met,
    or the constrained draw failed and the loop is left by [break]. *)
Inductive Outcome := Continue | Converged | DrawFailed.

#[global] Instance Outcome_eq_dec : EqDecision Outcome.
Proof. solve_decision. Defined.

(** Skilling's update of the evidence and of the information gain on
    discarding a point of log-likelihood [Lw] with log-weight [logWeight]. *)
Definition updateEvidence (logE H logWeight Lw : R) : R * R :=
  let logEvidenceNew := logExpSum logE logWeight in
  (logEvidenceNew,
   exp (logWeight - logEvidenceNew) * Lw
   + exp (logE - logEvidenceNew) * (H + logE)
   - logEvidenceNew).

(** The loop [for (m = 1; m < Nobjects; m++)] that accumulates the
    log-likelihoods of the live points. *)
Fixpoint logExpSumLoop (logL : ArrayXd) (m count : nat) (acc : R) : option R :=
  match count with
  | O => Some acc
  | S c => x ← logL !! m; logExpSumLoop logL (S m) c (logExpSum acc x)
  end.

Definition meanLiveEvidence (logL : ArrayXd) (N Nit : Z) : option (R * R) :=
  l0 ← logL !! 0%nat;
  acc ← logExpSumLoop logL 1 (Z.to_nat (N - 1)) l0;
  let logMeanL := acc - ln (IZR N) in
  Some (logMeanL, logMeanL + IZR Nit * (ln (IZR N) - ln (IZR (N + 1)))).

(** The clustering block, lines 262 to 287. *)
Definition updateClustering (Ninitial K : Z) (s : NestedSampler)
           (Ncl : Z) (cIdx cSizes : list Z) (w : World) (cs : list Call)
  : option (Z * list Z * list Z * World * list Call) :=
  r ← int_rem (Niterations s) K;
  if decide (r = 0%Z) then
    if decide (Niterations s < Ninitial)%Z then
      Some (1%Z, replicate (length cIdx) 0%Z, [Nobjects s], w, cs)
    else
      let '(k, cIdx', cSizes', w') :=
        cluster (nestedSample s) cIdx cSizes (printOnTheScreen s) w in
      Some (k, cIdx', cSizes', w', cs ++ [CallCluster (Niterations s)])
  else Some (Ncl, cIdx, cSizes, w, cs).

(** The inner [do ... while] that draws a live point other than the worst. *)
Fixpoint chooseLivePoint (fuel : nat) (N iworst : Z) (w : World) : option (Z * World) :=
  match fuel with
  | O => None
  | S f =>
      let '(i, w') := discreteUniform 0 (N - 1) w in
      if decide (i = iworst) then chooseLivePoint f N iworst w' else Some (i, w')
  end.

Definition progressLine (s : NestedSampler) (Ncl : Z) (ratio : R) : list Output :=
  if printOnTheScreen s then
    if decide (Z.rem (Niterations s) 50 = 0%Z) then
      [ Progress (Niterations s) Ncl (Nobjects s) (exp (logCumulatedPriorMass s))
          ratio (logEvidence s) (informationGain s) ]
    else []
  else [].

(** Lines 203 to 256: make room in the posterior arrays, find the worst live
    point, update evidence and information gain, save the point, and compute
    the mean live evidence and the stopping ratio.  Returns the index of the
    worst point, the object, [logMeanLiveEvidence] and
    [ratioOfRemainderToActualEvidence]. *)
Definition discardWorst (st : RunState) : option (nat * NestedSampler * R * R) :=
  let s := self st in
  let n := Z.to_nat (Niterations s) in
  let post := conservativeResizeXX (Z.to_nat (Ndimensions s)) (S n) (posteriorSample s) in
  let postL := conservativeResize (S n) (logLikelihoodOfPosteriorSample s) in
  let postW := conservativeResize (S n) (logWeightOfPosteriorSample s) in
  '(worst, iworst) ← minCoeff (logLikelihood s);
  let logWeight := logWidthInPriorMass st + worst in
  let '(logEvidenceNew, informationGainNew) :=
    updateEvidence (logEvidence s) (informationGain s) logWeight worst in
  worstPoint ← col (nestedSample s) iworst;
  post' ← set_col n worstPoint post;
  postL' ← set_coeff n worst postL;
  postW' ← set_coeff n logWeight postW;
  '(logMeanL, logMeanLiveE) ← meanLiveEvidence (logLikelihood s) (Nobjects s) (Niterations s);
  Some (iworst,
        {| ptrPriors := ptrPriors s;
           printOnTheScreen := printOnTheScreen s;
           Nobjects := Nobjects s;
           Ndimensions := Ndimensions s;
           nestedSample := nestedSample s;
           logLikelihood := logLikelihood s;
           posteriorSample := post';
           logLikelihoodOfPosteriorSample := postL';
           logWeightOfPosteriorSample := postW';
           logCumulatedPriorMass := logCumulatedPriorMass s;
           logRemainingPriorMass := logRemainingPriorMass s;
           Niterations := Niterations s;
           informationGain := informationGainNew;
           logEvidence := logEvidenceNew;
           logEvidenceError := logEvidenceError s;
           logMeanLikelihoodOfLivePoints := logMeanL;
           worstLiveLogLikelihood := worst;
           computationalTime := computationalTime s |},
        logMeanLiveE,
        exp (logMeanLiveE - logEvidenceNew)).

(** Lines 313 to 326: the starting point of the draw. *)
Definition chooseStartingPoint (ifuel : nat) (s : NestedSampler) (iworst : nat) (w : World)
  : option (Z * World) :=
  if decide (Nobjects s > 1)%Z
  then chooseLivePoint ifuel (Nobjects s) (Z.of_nat iworst) w
  else Some (0%Z, w).

(** Lines 349 to 378: replace the worst point by the drawn one, count the
    iteration, shrink the prior mass interval.  Returns the object and
    [logWidthInPriorMass]. *)
Definition replaceWorst (iworst : nat) (drawnPoint : ArrayXd) (logLikelihoodOfDrawnPoint : R)
           (s : NestedSampler) (logWidth : R) : option (NestedSampler * R) :=
  sample' ← set_col iworst drawnPoint (nestedSample s);
  logL' ← set_coeff iworst logLikelihoodOfDrawnPoint (logLikelihood s);
  let logWidth' := logWidth - 1 / IZR (Nobjects s) in
  let logCumulated' := logExpSum (logCumulatedPriorMass s) logWidth' in
  Some ({| ptrPriors := ptrPriors s;
           printOnTheScreen := printOnTheScreen s;
           Nobjects := Nobjects s;
           Ndimensions := Ndimensions s;
           nestedSample := sample';
           logLikelihood := logL';
           posteriorSample := posteriorSample s;
           logLikelihoodOfPosteriorSample := logLikelihoodOfPosteriorSample s;
           logWeightOfPosteriorSample := logWeightOfPosteriorSample s;
           logCumulatedPriorMass := logCumulated';
           logRemainingPriorMass := log (1 - exp logCumulated');
           Niterations := (Niterations s + 1)%Z;
           informationGain := informationGain s;
           logEvidence := logEvidence s;
           logEvidenceError := logEvidenceError s;
           logMeanLikelihoodOfLivePoints := logMeanLikelihoodOfLivePoints s;
           worstLiveLogLikelihood := worstLiveLogLikelihood s;
           computationalTime := computationalTime s |},
        logWidth').

(** The body of the loop.  The stopping criterion of line 360 is evaluated
    after the replacement, on the ratio computed before it. *)
Definition loopBody (ifuel : nat) (maxRatio : R) (Ninitial K maxNdraw : Z)
           (st : RunState) : option (Outcome * RunState) :=
  '(iworst, s1, logMeanLiveE, ratio) ← discardWorst st;
  '(Ncl, cIdx, cSizes, w1, calls1) ←
    updateClustering Ninitial K s1 (Nclusters st) (clusterIndices st)
      (clusterSizes st) (world st) (calls st);
  let out1 := cerr st ++ progressLine s1 Ncl ratio in
  '(irandom, w2) ← chooseStartingPoint ifuel s1 iworst w1;
  startPoint ← col (nestedSample s1) (Z.to_nat irandom);
  let '(newPointIsFound, drawnPoint, logLikelihoodOfDrawnPoint, w3) :=
    drawWithConstraint s1 (nestedSample s1) Ncl cIdx cSizes startPoint maxNdraw w2 in
  let calls2 := calls1 ++ [CallDraw (Niterations s1)] in
  if negb newPointIsFound then
    Some (DrawFailed,
          {| self := s1;
             startTime := startTime st;
             logMeanLiveEvidence := logMeanLiveE;
             ratioOfRemainderToActualEvidence := ratio;
             logWidthInPriorMass := logWidthInPriorMass st;
             Nclusters := Ncl;
             clusterIndices := cIdx;
             clusterSizes := cSizes;
             world := w3;
             cerr := out1 ++ warning_no_better_point;
             calls := calls2 |})
  else
    '(s2, logWidth') ← replaceWorst iworst drawnPoint logLikelihoodOfDrawnPoint s1
                         (logWidthInPriorMass st);
    Some (if bool_decide (maxRatio < ratio) then Continue else Converged,
          {| self := s2;
             startTime := startTime st;
             logMeanLiveEvidence := logMeanLiveE;
             ratioOfRemainderToActualEvidence := ratio;
             logWidthInPriorMass := logWidth';
             Nclusters := Ncl;
             clusterIndices := cIdx;
             clusterSizes := cSizes;
             world := w3;
             cerr := out1;
             calls := calls2 |}).

(** The [do ... while (nestedSamplingShouldContinue)] loop. *)
Fixpoint nestedLoop (fuel ifuel : nat) (maxRatio : R) (Ninitial K maxNdraw : Z)
         (st : RunState) : option (Outcome * RunState) :=
  match fuel with
  | O => None
  | S f =>
      '(o, st') ← loopBody ifuel maxRatio Ninitial K maxNdraw st;
      match o with
      | Continue => nestedLoop f ifuel maxRatio Ninitial K maxNdraw st'
      | _ => Some (o, st')
      end
  end.

(** *** Finalisation: lines 383 to 408 *)

(** Lines 383 to 403: the live sample is appended to the posterior arrays,
    the error on the evidence is computed and the mean live evidence is added
    to the evidence. *)
Definition appendLiveSample (st : RunState) : option RunState :=
  let s := self st in
  let N := Z.to_nat (Nobjects s) in
  let old := cols (posteriorSample s) in
  post ← set_columns old (nestedSample s)
           (conservativeResizeXX (Z.to_nat (Ndimensions s)) (old + N) (posteriorSample s));
  if decide (cols (nestedSample s) = N /\ length (logLikelihood s) = N) then
  postW ← set_segment old (map (fun l => logWidthInPriorMass st + l) (logLikelihood s))
            (conservativeResize (old + N) (logWeightOfPosteriorSample s));
  postL ← set_segment old (logLikelihood s)
            (conservativeResize (old + N) (logLikelihoodOfPosteriorSample s));
  Some {| self :=
            {| ptrPriors := ptrPriors s;
               printOnTheScreen := printOnTheScreen s;
               Nobjects := Nobjects s;
               Ndimensions := Ndimensions s;
               nestedSample := nestedSample s;
               logLikelihood := logLikelihood s;
               posteriorSample := post;
               logLikelihoodOfPosteriorSample := postL;
               logWeightOfPosteriorSample := postW;
               logCumulatedPriorMass := logCumulatedPriorMass s;
               logRemainingPriorMass := logRemainingPriorMass s;
               Niterations := Niterations s;
               informationGain := informationGain s;
               logEvidence := logExpSum (logMeanLiveEvidence st) (logEvidence s);
               logEvidenceError := sqrt (Rabs (informationGain s) / IZR (Nobjects s));
               logMeanLikelihoodOfLivePoints := logMeanLikelihoodOfLivePoints s;
               worstLiveLogLikelihood := worstLiveLogLikelihood s;
               computationalTime := computationalTime s |};
          startTime := startTime st;
          logMeanLiveEvidence := logMeanLiveEvidence st;
          ratioOfRemainderToActualEvidence := ratioOfRemainderToActualEvidence st;
          logWidthInPriorMass := logWidthInPriorMass st;
          Nclusters := Nclusters st;
          clusterIndices := clusterIndices st;
          clusterSizes := clusterSizes st;
          world := world st;
          cerr := cerr st;
          calls := calls st |}
  else None.

(** The member [computationalTime] is set to [t], and an empty line and the
    time with its unit are printed. *)
Definition reportTime (t : R) (unit : string) (st : RunState) : RunState :=
  let s := self st in
  {| self :=
       {| ptrPriors := ptrPriors s;
          printOnTheScreen := printOnTheScreen s;
          Nobjects := Nobjects s;
          Ndimensions := Ndimensions s;
          nestedSample := nestedSample s;
          logLikelihood := logLikelihood s;
          posteriorSample := posteriorSample s;
          logLikelihoodOfPosteriorSample := logLikelihoodOfPosteriorSample s;
          logWeightOfPosteriorSample := logWeightOfPosteriorSample s;
          logCumulatedPriorMass := logCumulatedPriorMass s;
          logRemainingPriorMass := logRemainingPriorMass s;
          Niterations := Niterations s;
          informationGain := informationGain s;
          logEvidence := logEvidence s;
          logEvidenceError := logEvidenceError s;
          logMeanLikelihoodOfLivePoints := logMeanLikelihoodOfLivePoints s;
          worstLiveLogLikelihood := worstLiveLogLikelihood s;
          computationalTime := t |};
     startTime := startTime st;
     logMeanLiveEvidence := logMeanLiveEvidence st;
     ratioOfRemainderToActualEvidence := ratioOfRemainderToActualEvidence st;
     logWidthInPriorMass := logWidthInPriorMass st;
     Nclusters := Nclusters st;
     clusterIndices := clusterIndices st;
     clusterSizes := clusterSizes st;
     world := world st;
     cerr := cerr st ++ [Text ""; Elapsed t unit];
     calls := calls st |}.

(** [printComputationalTime(startTime)]: the time is given in seconds, minutes
    or hours; the branch for days of the source cannot be reached. *)
Definition printComputationalTime (start : Z) (st : RunState) : RunState :=
  let endTime := IZR (time0 (world st)) in
  let t := endTime - IZR start in
  if decide (t < 60) then reportTime t "seconds" st
  else if decide (t < 60 * 60) then reportTime (t / 60) "minutes" st
  else reportTime (t / (60 * 60)) "hours" st.

(** The chain of [if ... else if] of [printComputationalTime] as the source
    writes it, on the time [t] in seconds: the value and the unit it prints,
    or nothing when no branch is taken. *)
Definition computationalTimeBranch (t : R) : option (R * string) :=
  if decide (t < 60) then Some (t, "seconds"%string)
  else if decide (60 <= t /\ t < 60 * 60) then Some (t / 60, "minutes"%string)
  else if decide (60 * 60 <= t) then Some (t / (60 * 60), "hours"%string)
  else if decide (60 * 60 * 24 <= t) then Some (t / (60 * 60 * 24), "days"%string)
  else None.

Definition finalize (st : RunState) : option RunState :=
  st' ← appendLiveSample st;
  Some (printComputationalTime (startTime st') st').

(** *** [NestedSampler::run] *)

Definition run (fuel ifuel : nat) (maxRatio : R) (Ninitial K maxNdraw : Z)
           (s : NestedSampler) (w : World) (out : list Output)
  : option (Outcome * RunState) :=
  st0 ← run_init s w out;
  '(o, st) ← nestedLoop fuel ifuel maxRatio Ninitial K maxNdraw st0;
  st' ← finalize st;
  Some (o, st').

(** ** [Results]: the posterior probability and the parameter summary *)

(** [Functions::sortElementsDouble(array1, array2)]: sorts the first array in
    increasing order and rearranges the second accordingly.  Its code is in
    Functions.cpp, outside the sources at hand. *)
Variable sortElementsDouble : ArrayXd -> ArrayXd -> ArrayXd * ArrayXd.

(** Coefficient-wise binary operation; Eigen asserts equal sizes. *)
Definition cwise (f : R -> R -> R) (a b : ArrayXd) : option ArrayXd :=
  if decide (length a = length b) then Some (zip_with f a b) else None.

(** [a.sum()] *)
Definition sum (a : ArrayXd) : R := fold_right Rplus 0 a.

(** The log-sum-exp of an array, as the specification writes it for the live
    log-likelihoods: the logarithm of the sum of the exponentials. *)
Definition logsumexp (a : ArrayXd) : R := ln (sum (map exp a)).

(** [ArrayXd::maxCoeff(&index)]: first occurrence of the maximum. *)
Fixpoint maxCoeff_visit (best : R) (ibest i : nat) (l : ArrayXd) : R * nat :=
  match l with
  | [] => (best, ibest)
  | x :: l' =>
      if decide (best < x) then maxCoeff_visit x i (S i) l'
      else maxCoeff_visit best ibest (S i) l'
  end.

Definition maxCoeff (a : ArrayXd) : option (R * nat) :=
  match a with
  | [] => None
  | x :: l => Some (maxCoeff_visit x 0 1 l)
  end.

(** The local [logPosteriorDistribution] of [Results::posteriorProbability],
    lines 74 to 76. *)
Definition logPosteriorDistribution (ns : NestedSampler) : option ArrayXd :=
  logWL ← cwise Rplus (logWeightOfPosteriorSample ns) (logLikelihoodOfPosteriorSample ns);
  Some (map (fun x => x - logEvidence ns) logWL).

(** The exponents on which lines 77 to 83 stay within the normal range of a
    double: no exponential overflows (e^709 is below the greatest double,
    about e^709.78) or underflows (e^-708 is above the least positive normal
    double, about e^-708.4), nor does their sum, nor a quotient by their
    sum. *)
Definition in_double_range (logPosterior : ArrayXd) : Prop :=
  Forall (fun x => -708 <= x <= 709) logPosterior /\
  sum (map exp logPosterior) <= exp 709 /\
  Forall (fun x => exp (-708) <= exp x / sum (map exp logPosterior)) logPosterior.

#[global] Instance in_double_range_dec (l : ArrayXd) : Decision (in_double_range l).
Proof. unfold in_double_range. apply _. Defined.

(** [Results::posteriorProbability]: the exponential of
    [logPosteriorDistribution] divided by the sum of its coefficients.  The
    model has a result within [in_double_range] only.  Out of it the C++
    departs from the computation on real numbers: an exponential that
    underflows is 0, one that overflows is infinity and its quotient NaN, and
    exponentials that all underflow give 0/0, NaN for every point. *)
Definition posteriorProbability (ns : NestedSampler) : option ArrayXd :=
  logPosterior ← logPosteriorDistribution ns;
  let posteriorDistribution := map exp logPosterior in
  if decide (in_double_range logPosterior)
  then Some (map (fun x => x / sum posteriorDistribution) posteriorDistribution)
  else None.

(** The loop [while (totalProbability < 0.50)] of the median: the arguments are
    the coefficients from index [k] on. *)
Fixpoint medianLoop (values marginal : ArrayXd) (totalProbability parameterMedian : R)
  : option R :=
  if decide (totalProbability < 0.5) then
    match values, marginal with
    | v :: values', p :: marginal' => medianLoop values' marginal' (totalProbability + p) v
    | _, _ => None
    end
  else Some parameterMedian.

(** One turn of the loop over the free parameters: the six estimates of
    parameter [i]. *)
Definition estimateParameter (ns : NestedSampler) (posteriorDistribution : ArrayXd) (i : nat)
  : option (list R) :=
  unsorted ← row (posteriorSample ns) i;
  let '(parameterValues, marginalDistribution) :=
    sortElementsDouble unsorted posteriorDistribution in
  products ← cwise Rmult parameterValues marginalDistribution;
  let parameterMean := sum products in
  squares ← cwise Rmult (map (fun v => (v - parameterMean) ^ 2) parameterValues)
              marginalDistribution;
  let secondMoment := sum squares in
  first ← parameterValues !! 0%nat;
  parameterMedian ← medianLoop parameterValues marginalDistribution 0 first;
  '(_, max) ← maxCoeff marginalDistribution;
  parameterMode ← parameterValues !! max;
  Some [parameterMean; parameterMedian; parameterMode; secondMoment; 0; 0].

(** [Results::parameterEstimation(credibleLevel)]: the array of estimates, one
    parameter per row, so column [c] collects the [c]-th estimate of every
    parameter. *)
Definition parameterEstimation (ns : NestedSampler) (credibleLevel : R) : option ArrayXXd :=
  let Ndim := rows (posteriorSample ns) in
  posteriorDistribution ← posteriorProbability ns;
  if decide (cols (posteriorSample ns) = length posteriorDistribution) then
    estimates ← mapM (estimateParameter ns posteriorDistribution) (seq 0 Ndim);
    Some (MkArrayXXd Ndim
            (map (fun c => map (fun est : list R => nth c est 0) estimates) (seq 0 6)))
  else None.

(** * Vocabulary of the properties *)

(** The arguments of [run] besides the object: the fuel of the inner loop, the
    termination factor, the number of initial iterations without clustering,
    the cadence of the clustering and the maximum number of draw attempts. *)
Section Loop.

Variables (ifuel : nat) (maxRatio : R) (Ninitial K maxNdraw : Z).

Local Abbreviation body := (loopBody ifuel maxRatio Ninitial K maxNdraw).
Local Abbreviation loop fuel := (nestedLoop fuel ifuel maxRatio Ninitial K maxNdraw).
Local Abbreviation run' fuel := (run fuel ifuel maxRatio Ninitial K maxNdraw).

(** [reaches k st st']: [k] iterations that each end with the loop going on
    lead from [st] to [st']. *)
Inductive reaches : nat -> RunState -> RunState -> Prop :=
| reaches_O st : reaches 0 st st
| reaches_S k st st1 st2 :
    body st = Some (Continue, st1) -> reaches k st1 st2 -> reaches (S k) st st2.

(** The live sample has Nobjects columns of Ndimensions rows, and as many
    log-likelihoods. *)
Definition live_wf (st : RunState) : Prop :=
  let s := self st in
  cols (nestedSample s) = Z.to_nat (Nobjects s) /\
  length (logLikelihood s) = Z.to_nat (Nobjects s) /\
  rows (nestedSample s) = Z.to_nat (Ndimensions s).

(** The posterior arrays as an iteration leaves them: as many log-likelihoods
    and log-weights as points, and every point of full dimension. *)
Definition posterior_wf (s : NestedSampler) : Prop :=
  rows (posteriorSample s) = Z.to_nat (Ndimensions s) /\
  Forall (fun c => length c = Z.to_nat (Ndimensions s)) (columns (posteriorSample s)) /\
  length (logLikelihoodOfPosteriorSample s) = cols (posteriorSample s) /\
  length (logWeightOfPosteriorSample s) = cols (posteriorSample s).

(** The posterior arrays hold at least Niterations records, and the first
    Niterations points are of full dimension: these are the records of the
    iterations made so far. *)
Definition posterior_prefix_ok (st : RunState) : Prop :=
  let s := self st in
  let n := Z.to_nat (Niterations s) in
  (0 <= Niterations s)%Z /\
  (n <= cols (posteriorSample s))%nat /\
  (n <= length (logLikelihoodOfPosteriorSample s))%nat /\
  (n <= length (logWeightOfPosteriorSample s))%nat /\
  Forall (fun c => length c = Z.to_nat (Ndimensions s)) (take n (columns (posteriorSample s))).

(** The clusterer has only been called on the cadence and past the initial
    iterations. *)
Definition cluster_calls_ok (st : RunState) : Prop :=
  forall m, CallCluster m ∈ calls st -> Z.rem m K = 0%Z /\ (Ninitial <= m)%Z.

(** As long as the initial iterations are not over, there is one cluster
    index per live point. *)
Definition cluster_indices_ok (st : RunState) : Prop :=
  (Niterations (self st) < Ninitial)%Z ->
  length (clusterIndices st) = Z.to_nat (Nobjects (self st)).

(** A sequence that never decreases from one index to a later one. *)
Definition nondecreasing (l : list R) : Prop :=
  forall i j x y, (i <= j)%nat -> l !! i = Some x -> l !! j = Some y -> x <= y.

(** What the derived sampler promises of its constrained draw: a successful
    draw returns a log-likelihood above the worst live log-likelihood of the
    moment, which the sampler keeps in its member worstLiveLogLikelihood. *)
Definition draw_respects_constraint : Prop :=
  forall this sample Ncl cIdx cSizes p m w q l w',
    drawWithConstraint this sample Ncl cIdx cSizes p m w = (true, q, l, w') ->
    worstLiveLogLikelihood this < l.

(** The posterior log-likelihoods gathered by the loop, which are the first
    Niterations coefficients of the array (what the array held before run is
    cut off by the first resizing): they never decrease, and none is above a
    live log-likelihood. *)
Definition record_ordered (st : RunState) : Prop :=
  let s := self st in
  let n := Z.to_nat (Niterations s) in
  (0 <= Niterations s)%Z /\
  (n <= length (logLikelihoodOfPosteriorSample s))%nat /\
  nondecreasing (take n (logLikelihoodOfPosteriorSample s)) /\
  forall x y, x ∈ take n (logLikelihoodOfPosteriorSample s) -> y ∈ logLikelihood s -> x <= y.

(** The draws of the priors, in the order of [ptrPriors], each on the world
    the previous one left: the dimension and the coefficients of each block. *)
Fixpoint priorDraws (ps : list Prior) (N : nat) (w : World)
  : list (nat * (nat -> nat -> R)) * World :=
  match ps with
  | [] => ([], w)
  | p :: ps' =>
      let d := Z.to_nat (getNdimensions p) in
      let '(b, w') := draw p d N w in
      let '(bs, w'') := priorDraws ps' N w' in
      ((d, b) :: bs, w'')
  end.

(** Column [j] of a block, and the point number [j] composed of the
    sub-blocks of all priors, one under the other. *)
Definition blockColumn (j : nat) (blk : nat * (nat -> nat -> R)) : ArrayXd :=
  map (fun r => snd blk r j) (seq 0 (fst blk)).

Definition composedPoint (blocks : list (nat * (nat -> nat -> R))) (j : nat) : ArrayXd :=
  concat (map (blockColumn j) blocks).

Definition totalNdimensions (ps : list Prior) : nat :=
  foldr (fun p acc => (Z.to_nat (getNdimensions p) + acc)%nat) 0%nat ps.

(** What the summary assumes of [Functions::sortElementsDouble]: it rearranges
    the two arrays, of equal size, by one and the same permutation. *)
Definition rearranges : Prop :=
  forall v p : ArrayXd, length v = length p ->
    length (fst (sortElementsDouble v p)) = length (snd (sortElementsDouble v p)) /\
    Permutation (zip (fst (sortElementsDouble v p)) (snd (sortElementsDouble v p))) (zip v p).

(** The estimators of a marginal distribution given by parameter values [v]
    and their probabilities [p]. *)
Definition expectation (v p : ArrayXd) : R := sum (zip_with Rmult v p).

Definition secondMoment (v p : ArrayXd) : R :=
  sum (zip_with (fun x q => (x - expectation v p) ^ 2 * q) v p).

(** The median: the first value, in the order of the arrays, at which the
    cumulated probability reaches one half. *)
Definition is_median (v p : ArrayXd) (m : R) : Prop :=
  exists k, v !! k = Some m /\ sum (take k p) < 0.5 /\ 0.5 <= sum (take (S k) p).

(** The mode: a value of maximal probability. *)
Definition is_mode (v p : ArrayXd) (m : R) : Prop :=
  exists k q, v !! k = Some m /\ p !! k = Some q /\ forall x, x ∈ p -> x <= q.

(** [m(i, c)] *)
Definition coefficient (m : ArrayXXd) (i c : nat) : option R :=
  a ← col m c; a !! i.

(** The live sample in full: the shape of [live_wf], and every live point of
    Ndimensions coefficients. *)
Definition live_shape (st : RunState) : Prop :=
  live_wf st /\
  Forall (fun c => length c = Z.to_nat (Ndimensions (self st)))
    (columns (nestedSample (self st))).

(** What the derived sampler promises of the log-likelihood it returns with a
    drawn point: it is the likelihood of that point. *)
Definition draw_returns_likelihood : Prop :=
  forall this sample Ncl cIdx cSizes p m w q l w',
    drawWithConstraint this sample Ncl cIdx cSizes p m w = (true, q, l, w') ->
    l = logValue q.

(** logLikelihood(i) is the likelihood of the live point i. *)
Definition likelihoods_match (st : RunState) : Prop :=
  logLikelihood (self st) = map logValue (columns (nestedSample (self st))).

(** What the standard library promises of [uniform_int_distribution<int>(a, b)]:
    a value between a and b. *)
Definition uniform_in_range : Prop :=
  forall a b w, (a <= b)%Z -> (a <= fst (discreteUniform a b w) <= b)%Z.

(** The posterior records after [n] iterations carry the weights of the
    shrinking prior-mass intervals: record [i] has the log-weight
    log(1 - e^{-1/N}) - i/N + its log-likelihood. *)
Definition recordWeight (N : Z) (i : nat) (L : R) : R :=
  ln (1 - exp (- 1 / IZR N)) - INR i / IZR N + L.

Definition weights_inv (N : Z) (st : RunState) : Prop :=
  let s := self st in
  let n := Z.to_nat (Niterations s) in
  Nobjects s = N /\
  logWidthInPriorMass st = ln (1 - exp (- 1 / IZR N)) - INR n / IZR N /\
  take n (logWeightOfPosteriorSample s)
  = imap (recordWeight N) (take n (logLikelihoodOfPosteriorSample s)).

(** The evidence gathered so far is that of the sampler at the start plus the
    weights of the records. *)
Definition evidence_inv (logE0 : R) (st : RunState) : Prop :=
  let s := self st in
  let n := Z.to_nat (Niterations s) in
  exp (logEvidence s) = exp logE0 + sum (map exp (take n (logWeightOfPosteriorSample s))).

(** The posterior probabilities of the sampler stay within the range of a
    double. *)
Definition posterior_in_range (ns : NestedSampler) : Prop :=
  exists logPosterior,
    logPosteriorDistribution ns = Some logPosterior /\ in_double_range logPosterior.


(** The sampler [s] with another value of logEvidence. *)
Definition with_logEvidence (E : R) (s : NestedSampler) : NestedSampler :=
  {| ptrPriors := ptrPriors s;
     printOnTheScreen := printOnTheScreen s;
     Nobjects := Nobjects s;
     Ndimensions := Ndimensions s;
     nestedSample := nestedSample s;
     logLikelihood := logLikelihood s;
     posteriorSample := posteriorSample s;
     logLikelihoodOfPosteriorSample := logLikelihoodOfPosteriorSample s;
     logWeightOfPosteriorSample := logWeightOfPosteriorSample s;
     logCumulatedPriorMass := logCumulatedPriorMass s;
     logRemainingPriorMass := logRemainingPriorMass s;
     Niterations := Niterations s;
     informationGain := informationGain s;
     logEvidence := E;
     logEvidenceError := logEvidenceError s;
     logMeanLikelihoodOfLivePoints := logMeanLikelihoodOfLivePoints s;
     worstLiveLogLikelihood := worstLiveLogLikelihood s;
     computationalTime := computationalTime s |}.

(** The log-weight of point [i] of the posterior sample that run returns
    after [n] counted iterations: the records of the iterations first, at the
    widths log(1 - e^{-1/N}) - i/N, then the live points, all at the last
    width. *)
Definition finalWeight (N : Z) (n i : nat) (L : R) : R :=
  ln (1 - exp (- 1 / IZR N)) - INR (Nat.min i n) / IZR N + L.

(** Exponentials normalised by their sum. *)
Definition normalised (logs : ArrayXd) : ArrayXd :=
  map (fun x => exp x / sum (map exp logs)) logs.

(** What the derived sampler promises of the point it returns: it has the
    dimension of the sampler. *)
Definition draw_keeps_dimension : Prop :=
  forall this sample Ncl cIdx cSizes p m w q l w',
    drawWithConstraint this sample Ncl cIdx cSizes p m w = (true, q, l, w') ->
    length q = Z.to_nat (Ndimensions this).

(** The sampler [s] with other posterior arrays. *)
Definition with_posterior (P : ArrayXXd) (PL PW : ArrayXd) (s : NestedSampler)
  : NestedSampler :=
  {| ptrPriors := ptrPriors s;
     printOnTheScreen := printOnTheScreen s;
     Nobjects := Nobjects s;
     Ndimensions := Ndimensions s;
     nestedSample := nestedSample s;
     logLikelihood := logLikelihood s;
     posteriorSample := P;
     logLikelihoodOfPosteriorSample := PL;
     logWeightOfPosteriorSample := PW;
     logCumulatedPriorMass := logCumulatedPriorMass s;
     logRemainingPriorMass := logRemainingPriorMass s;
     Niterations := Niterations s;
     informationGain := informationGain s;
     logEvidence := logEvidence s;
     logEvidenceError := logEvidenceError s;
     logMeanLikelihoodOfLivePoints := logMeanLikelihoodOfLivePoints s;
     worstLiveLogLikelihood := worstLiveLogLikelihood s;
     computationalTime := computationalTime s |}.

(** The calls that [k] iterations make to the collaborators, in order: in
    iteration [i] the clusterer, if [i] is on the cadence and past the initial
    iterations, then the constrained draw. *)
Definition callsOfIteration (i : Z) : list Call :=
  (if decide (Z.rem i K = 0%Z /\ (Ninitial <= i)%Z) then [CallCluster i] else [])
  ++ [CallDraw i].

Definition expectedCalls (k : nat) : list Call :=
  flat_map callsOfIteration (map Z.of_nat (seq 0 k)).

(** * Properties *)

(** ** Arrays *)

Lemma set_coeff_Some {A} (i : nat) (x : A) (a a' : list A) :
  set_coeff i x a = Some a' -> (i < length a)%nat /\ a' = <[i := x]> a.
Proof. unfold set_coeff. case_decide; naive_solver. Qed.

Lemma set_coeff_length {A} (i : nat) (x : A) (a a' : list A) :
  set_coeff i x a = Some a' -> length a' = length a.
Proof. intros [_ ->]%set_coeff_Some. apply length_insert. Qed.

Lemma insert_resize_S {A} (n : nat) (u x : A) (l : list A) :
  <[n := x]> (resize (S n) u l) = resize n u l ++ [x].
Proof.
  replace (S n) with (n + 1)%nat by lia.
  rewrite resize_add.
  assert (Hn : length (resize n u l) = n) by apply length_resize.
  rewrite <- Hn at 1. rewrite <- (Nat.add_0_r (length _)), insert_app_r.
  destruct (drop n l); simpl; by rewrite ?resize_0.
Qed.

(** Appending at the end: [conservativeResize(n + 1)] followed by an
    assignment at index [n]. *)
Lemma set_coeff_resize n x (a a' : ArrayXd) :
  set_coeff n x (conservativeResize (S n) a) = Some a' ->
  a' = conservativeResize n a ++ [x].
Proof. intros [_ ->]%set_coeff_Some. apply insert_resize_S. Qed.

Lemma set_col_Some j v m m' :
  set_col j v m = Some m' ->
  length v = rows m /\ (j < cols m)%nat /\ rows m' = rows m /\
  columns m' = <[j := v]> (columns m).
Proof.
  unfold set_col. case_decide; [|done].
  destruct (set_coeff j v (columns m)) as [cs|] eqn:E; simpl; [|done].
  apply set_coeff_Some in E as [? ->]. intros [= <-]. auto.
Qed.

Lemma set_col_resize n v m m' D :
  set_col n v (conservativeResizeXX D (S n) m) = Some m' ->
  length v = D /\ rows m' = D /\
  columns m' = resize n (replicate D uninitialized)
                 (map (resize D uninitialized) (columns m)) ++ [v].
Proof.
  intros (Hv & _ & Hr & Hc)%set_col_Some. simpl in *.
  rewrite Hc, insert_resize_S. auto.
Qed.

Lemma set_segment_Some {A} (start : nat) (v a a' : list A) :
  set_segment start v a = Some a' ->
  (start + length v <= length a)%nat /\
  a' = take start a ++ v ++ drop (start + length v) a.
Proof. unfold set_segment. case_decide; naive_solver. Qed.

(** Appending a block at the end: resize to [old + length v], then assign the
    segment that starts at [old]. *)
Lemma set_segment_resize {A} (u : A) (old n : nat) (v a a' : list A) :
  old = length a -> n = length v ->
  set_segment old v (resize (old + n) u a) = Some a' ->
  a' = a ++ v.
Proof.
  intros -> -> [_ ->]%set_segment_Some.
  rewrite take_resize_add, resize_all.
  rewrite drop_ge by (rewrite length_resize; lia).
  by rewrite app_nil_r.
Qed.

(** ** The worst live point *)

Lemma minCoeff_visit_spec l best ibest i :
  let '(m, j) := minCoeff_visit best ibest i l in
  m <= best /\ (forall x, x ∈ l -> m <= x) /\
  ((m = best /\ j = ibest) \/ (exists k, j = (i + k)%nat /\ l !! k = Some m)).
Proof.
  revert best ibest i. induction l as [|x l IH]; intros best ibest i; simpl.
  - split; [lra|]. split; [|by left]. intros x Hx. by apply elem_of_nil in Hx.
  - case_decide as Hlt.
    + specialize (IH x i (S i)). destruct (minCoeff_visit x i (S i) l) as [m j].
      destruct IH as (Hm & Hall & Hpos). split; [lra|]. split.
      * intros y [->|Hy]%elem_of_cons; auto.
      * right. destruct Hpos as [[-> ->]|(k & -> & Hk)].
        -- exists 0%nat. split; [lia|done].
        -- exists (S k). split; [lia|done].
    + specialize (IH best ibest (S i)).
      destruct (minCoeff_visit best ibest (S i) l) as [m j].
      destruct IH as (Hm & Hall & Hpos). split; [lra|]. split.
      * intros y [->|Hy]%elem_of_cons; [lra|auto].
      * destruct Hpos as [?|(k & -> & Hk)]; [by left|].
        right. exists (S k). split; [lia|done].
Qed.

(** [minCoeff] returns a coefficient of the array, at the index it reports,
    and no coefficient is smaller. *)
Lemma minCoeff_spec a m i :
  minCoeff a = Some (m, i) ->
  a !! i = Some m /\ forall x, x ∈ a -> m <= x.
Proof.
  destruct a as [|x l]; [done|]. simpl. intros [= H].
  pose proof (minCoeff_visit_spec l x 0%nat 1%nat) as S. rewrite H in S.
  destruct S as (Hm & Hall & Hpos). split.
  - destruct Hpos as [[-> ->]|(k & -> & Hk)]; done.
  - intros y [->|Hy]%elem_of_cons; auto.
Qed.

Lemma minCoeff_is_Some a : a <> [] -> is_Some (minCoeff a).
Proof. destruct a; [done|]. by eexists. Qed.

(** ** Unfolding one iteration *)

Ltac inv_bind H :=
  repeat match type of H with
    | context [mbind _ ?x] =>
        let E := fresh "E" in destruct x eqn:E; simpl in H; [| discriminate H]
    | context [let '(_, _) := ?x in _] =>
        let E := fresh "E" in destruct x eqn:E; simpl in H
    end.

Lemma discardWorst_inv st iworst s1 lmle ratio :
  discardWorst st = Some (iworst, s1, lmle, ratio) ->
  exists worst worstPoint post' postL' postW' logMeanL,
    let s := self st in
    let n := Z.to_nat (Niterations s) in
    let logWeight := logWidthInPriorMass st + worst in
    minCoeff (logLikelihood s) = Some (worst, iworst) /\
    col (nestedSample s) iworst = Some worstPoint /\
    set_col n worstPoint
      (conservativeResizeXX (Z.to_nat (Ndimensions s)) (S n) (posteriorSample s)) = Some post' /\
    set_coeff n worst (conservativeResize (S n) (logLikelihoodOfPosteriorSample s)) = Some postL' /\
    set_coeff n logWeight (conservativeResize (S n) (logWeightOfPosteriorSample s)) = Some postW' /\
    meanLiveEvidence (logLikelihood s) (Nobjects s) (Niterations s) = Some (logMeanL, lmle) /\
    ratio = exp (lmle - logExpSum (logEvidence s) logWeight) /\
    s1 = {| ptrPriors := ptrPriors s;
            printOnTheScreen := printOnTheScreen s;
            Nobjects := Nobjects s;
            Ndimensions := Ndimensions s;
            nestedSample := nestedSample s;
            logLikelihood := logLikelihood s;
            posteriorSample := post';
            logLikelihoodOfPosteriorSample := postL';
            logWeightOfPosteriorSample := postW';
            logCumulatedPriorMass := logCumulatedPriorMass s;
            logRemainingPriorMass := logRemainingPriorMass s;
            Niterations := Niterations s;
            informationGain := snd (updateEvidence (logEvidence s) (informationGain s) logWeight worst);
            logEvidence := logExpSum (logEvidence s) logWeight;
            logEvidenceError := logEvidenceError s;
            logMeanLikelihoodOfLivePoints := logMeanL;
            worstLiveLogLikelihood := worst;
            computationalTime := computationalTime s |}.
Proof.
  unfold discardWorst. intros H. inv_bind H.
  injection H as <- <- <- <-. subst.
  repeat eexists; eauto.
Qed.

Lemma replaceWorst_inv iworst p l s logWidth s2 logWidth' :
  replaceWorst iworst p l s logWidth = Some (s2, logWidth') ->
  exists sample' logL',
    set_col iworst p (nestedSample s) = Some sample' /\
    set_coeff iworst l (logLikelihood s) = Some logL' /\
    logWidth' = logWidth - 1 / IZR (Nobjects s) /\
    s2 = {| ptrPriors := ptrPriors s;
            printOnTheScreen := printOnTheScreen s;
            Nobjects := Nobjects s;
            Ndimensions := Ndimensions s;
            nestedSample := sample';
            logLikelihood := logL';
            posteriorSample := posteriorSample s;
            logLikelihoodOfPosteriorSample := logLikelihoodOfPosteriorSample s;
            logWeightOfPosteriorSample := logWeightOfPosteriorSample s;
            logCumulatedPriorMass := logExpSum (logCumulatedPriorMass s) logWidth';
            logRemainingPriorMass :=
              log (1 - exp (logExpSum (logCumulatedPriorMass s) logWidth'));
            Niterations := (Niterations s + 1)%Z;
            informationGain := informationGain s;
            logEvidence := logEvidence s;
            logEvidenceError := logEvidenceError s;
            logMeanLikelihoodOfLivePoints := logMeanLikelihoodOfLivePoints s;
            worstLiveLogLikelihood := worstLiveLogLikelihood s;
            computationalTime := computationalTime s |}.
Proof.
  unfold replaceWorst. intros H. inv_bind H.
  injection H as <- <-. do 2 eexists. repeat split; eauto.
Qed.

(** The shape of an iteration: the four phases in sequence, and the two ways
    it can end. *)
Lemma loopBody_inv st o st' :
  loopBody ifuel maxRatio Ninitial K maxNdraw st = Some (o, st') ->
  exists iworst s1 lmle ratio Ncl cIdx cSizes w1 calls1 irandom w2 startPoint
         found drawnPoint lDrawn w3,
    discardWorst st = Some (iworst, s1, lmle, ratio) /\
    updateClustering Ninitial K s1 (Nclusters st) (clusterIndices st)
      (clusterSizes st) (world st) (calls st) = Some (Ncl, cIdx, cSizes, w1, calls1) /\
    chooseStartingPoint ifuel s1 iworst w1 = Some (irandom, w2) /\
    col (nestedSample s1) (Z.to_nat irandom) = Some startPoint /\
    drawWithConstraint s1 (nestedSample s1) Ncl cIdx cSizes startPoint maxNdraw w2
      = (found, drawnPoint, lDrawn, w3) /\
    ((found = false /\ o = DrawFailed /\
      st' = {| self := s1;
               startTime := startTime st;
               logMeanLiveEvidence := lmle;
               ratioOfRemainderToActualEvidence := ratio;
               logWidthInPriorMass := logWidthInPriorMass st;
               Nclusters := Ncl;
               clusterIndices := cIdx;
               clusterSizes := cSizes;
               world := w3;
               cerr := (cerr st ++ progressLine s1 Ncl ratio) ++ warning_no_better_point;
               calls := calls1 ++ [CallDraw (Niterations s1)] |})
     \/
     (found = true /\
      o = (if bool_decide (maxRatio < ratio) then Continue else Converged) /\
      exists s2 logWidth',
        replaceWorst iworst drawnPoint lDrawn s1 (logWidthInPriorMass st)
          = Some (s2, logWidth') /\
        st' = {| self := s2;
                 startTime := startTime st;
                 logMeanLiveEvidence := lmle;
                 ratioOfRemainderToActualEvidence := ratio;
                 logWidthInPriorMass := logWidth';
                 Nclusters := Ncl;
                 clusterIndices := cIdx;
                 clusterSizes := cSizes;
                 world := w3;
                 cerr := cerr st ++ progressLine s1 Ncl ratio;
                 calls := calls1 ++ [CallDraw (Niterations s1)] |})).
Proof.
  unfold loopBody. intros H. inv_bind H. subst.
  match type of H with context [negb ?b] => destruct b; simpl in H end.
  - inv_bind H. injection H as <- <-. subst.
    do 16 eexists. repeat (split; [eassumption || reflexivity|]).
    right. repeat (split; [reflexivity|]). eauto.
  - injection H as <- <-.
    do 16 eexists. repeat (split; [eassumption || reflexivity|]).
    left. auto.
Qed.

Lemma loop_reaches fuel st o st' :
  loop fuel st = Some (o, st') ->
  exists k st1, (k < fuel)%nat /\ reaches k st st1 /\
                body st1 = Some (o, st') /\ o <> Continue.
Proof.
  revert st. induction fuel as [|f IH]; intros st H; [done|].
  simpl in H. destruct (body st) as [[o1 st1]|] eqn:E; simpl in H; [|done].
  destruct o1.
  - apply IH in H as (k & st2 & Hk & Hr & Hb & Ho).
    exists (S k), st2. split; [lia|]. split; [|done]. by econstructor.
  - injection H as <- <-. exists 0%nat, st. split; [lia|]. split; [constructor|done].
  - injection H as <- <-. exists 0%nat, st. split; [lia|]. split; [constructor|done].
Qed.

Lemma reaches_loop k st st1 o st' fuel :
  reaches k st st1 -> body st1 = Some (o, st') -> o <> Continue ->
  (k < fuel)%nat -> loop fuel st = Some (o, st').
Proof.
  intros Hr Hb Ho. revert fuel.
  induction Hr as [st|k st st1 st2 Hstep Hr IH]; intros fuel Hk.
  - destruct fuel; [lia|]. simpl. rewrite Hb. simpl. by destruct o.
  - destruct fuel; [lia|]. simpl. rewrite Hstep. simpl. apply IH; [done|lia].
Qed.

(** *** The live sample keeps its shape *)

Lemma set_rows_shape b d f m m' :
  set_rows b d f m = Some m' -> rows m' = rows m /\ cols m' = cols m.
Proof.
  unfold set_rows. case_decide; [|done]. intros [= <-]. unfold cols. simpl.
  by rewrite length_imap.
Qed.

Lemma drawFromPriors_shape ps N b m w m' w' :
  drawFromPriors ps N b m w = Some (m', w') -> rows m' = rows m /\ cols m' = cols m.
Proof.
  revert b m w. induction ps as [|p ps IH]; intros b m w; simpl.
  - by intros [= <- <-].
  - case_decide; [|done]. destruct (draw p _ N w) as [f w1].
    destruct (set_rows b _ f m) as [m1|] eqn:E; simpl; [|done].
    apply set_rows_shape in E as [<- <-]. apply IH.
Qed.

Lemma run_init_inv s w out st0 :
  run_init s w out = Some st0 ->
  exists sample w1,
    drawFromPriors (ptrPriors s) (Z.to_nat (Nobjects s)) 0
      (resizeXX (Z.to_nat (Ndimensions s)) (Z.to_nat (Nobjects s))) w = Some (sample, w1) /\
    st0 = {| self :=
              {| ptrPriors := ptrPriors s;
                 printOnTheScreen := printOnTheScreen s;
                 Nobjects := Nobjects s;
                 Ndimensions := Ndimensions s;
                 nestedSample := sample;
                 logLikelihood := map logValue (columns sample);
                 posteriorSample := posteriorSample s;
                 logLikelihoodOfPosteriorSample := logLikelihoodOfPosteriorSample s;
                 logWeightOfPosteriorSample := logWeightOfPosteriorSample s;
                 logCumulatedPriorMass :=
                   logExpSum (logCumulatedPriorMass s)
                     (ln (1 - exp (- 1 / IZR (Nobjects s))));
                 logRemainingPriorMass := logRemainingPriorMass s;
                 Niterations := 0;
                 informationGain := informationGain s;
                 logEvidence := logEvidence s;
                 logEvidenceError := logEvidenceError s;
                 logMeanLikelihoodOfLivePoints := logMeanLikelihoodOfLivePoints s;
                 worstLiveLogLikelihood := worstLiveLogLikelihood s;
                 computationalTime := computationalTime s |};
            startTime := time0 w;
            logMeanLiveEvidence := uninitialized;
            ratioOfRemainderToActualEvidence := uninitialized;
            logWidthInPriorMass := ln (1 - exp (- 1 / IZR (Nobjects s)));
            Nclusters := 0;
            clusterIndices := replicate (Z.to_nat (Nobjects s)) 0%Z;
            clusterSizes := [];
            world := w1;
            cerr := out;
            calls := [] |}.
Proof.
  unfold run_init. intros H. case_decide; [|done].
  inv_bind H. injection H as <-. subst. eauto.
Qed.

Lemma run_init_sizes s w out st0 :
  run_init s w out = Some st0 -> (0 <= Nobjects s)%Z /\ (0 <= Ndimensions s)%Z.
Proof. unfold run_init. by case_decide. Qed.

Lemma run_init_wf s w out st0 : run_init s w out = Some st0 -> live_wf st0.
Proof.
  intros (sample & w1 & Hd & ->)%run_init_inv.
  apply drawFromPriors_shape in Hd as [Hr Hc]. unfold live_wf, cols in *. simpl in *.
  rewrite length_map, Hc, Hr, length_replicate. auto.
Qed.

Lemma body_wf st o st' :
  body st = Some (o, st') -> live_wf st -> live_wf st'.
Proof.
  intros (iworst & s1 & lmle & ratio & Ncl & cIdx & cSizes & w1 & calls1 & irandom
          & w2 & startPoint & found & p & l & w3 & Hd & _ & _ & _ & _ & Hend)%loopBody_inv.
  apply discardWorst_inv in Hd
    as (worst & wp & post' & postL' & postW' & lm & _ & _ & _ & _ & _ & _ & _ & ->).
  unfold live_wf. intros (Hc & Hl & Hr).
  destruct Hend as [(_ & _ & ->)|(_ & _ & s2 & lw & Hrep & ->)]; simpl; [done|].
  apply replaceWorst_inv in Hrep as (sample' & logL' & Hs & HL & _ & ->). simpl in *.
  apply set_col_Some in Hs as (_ & _ & Hr' & Hc'). apply set_coeff_length in HL.
  unfold cols in *. rewrite Hc', length_insert, HL, Hr'. auto.
Qed.

Lemma reaches_wf k st st' : reaches k st st' -> live_wf st -> live_wf st'.
Proof. induction 1; eauto using body_wf. Qed.

(** *** What every iteration does before the draw *)

Lemma body_discard st o st' :
  body st = Some (o, st') ->
  exists worst iworst worstPoint,
    let s := self st in
    let s' := self st' in
    let n := Z.to_nat (Niterations s) in
    let D := Z.to_nat (Ndimensions s) in
    minCoeff (logLikelihood s) = Some (worst, iworst) /\
    col (nestedSample s) iworst = Some worstPoint /\
    length worstPoint = D /\
    rows (posteriorSample s') = D /\
    columns (posteriorSample s') =
      resize n (replicate D uninitialized)
        (map (resize D uninitialized) (columns (posteriorSample s))) ++ [worstPoint] /\
    logLikelihoodOfPosteriorSample s' =
      conservativeResize n (logLikelihoodOfPosteriorSample s) ++ [worst] /\
    logWeightOfPosteriorSample s' =
      conservativeResize n (logWeightOfPosteriorSample s) ++ [logWidthInPriorMass st + worst] /\
    logEvidence s' = logExpSum (logEvidence s) (logWidthInPriorMass st + worst) /\
    informationGain s' =
      snd (updateEvidence (logEvidence s) (informationGain s)
             (logWidthInPriorMass st + worst) worst) /\
    worstLiveLogLikelihood s' = worst /\
    Nobjects s' = Nobjects s /\ Ndimensions s' = Ndimensions s /\
    startTime st' = startTime st.
Proof.
  intros (iworst & s1 & lmle & ratio & Ncl & cIdx & cSizes & w1 & calls1 & irandom
          & w2 & startPoint & found & p & l & w3 & Hd & _ & _ & _ & _ & Hend)%loopBody_inv.
  apply discardWorst_inv in Hd
    as (worst & wp & post' & postL' & postW' & lm & Hmin & Hcol & Hp & HpL & HpW & _ & _ & ->).
  apply set_col_resize in Hp as (Hlen & Hrows & Hcols).
  apply set_coeff_resize in HpL. apply set_coeff_resize in HpW.
  exists worst, iworst, wp.
  destruct Hend as [(_ & _ & ->)|(_ & _ & s2 & lw & Hrep & ->)]; simpl.
  - repeat split; assumption || reflexivity.
  - apply replaceWorst_inv in Hrep as (sample' & logL' & _ & _ & _ & ->). simpl.
    repeat split; assumption || reflexivity.
Qed.

(** An iteration whose draw fails leaves the live sample, the iteration
    counter and the prior-mass accumulators as they were. *)
Lemma body_failed st st' :
  body st = Some (DrawFailed, st') ->
  let s := self st in
  let s' := self st' in
  nestedSample s' = nestedSample s /\
  logLikelihood s' = logLikelihood s /\
  Niterations s' = Niterations s /\
  logWidthInPriorMass st' = logWidthInPriorMass st /\
  logCumulatedPriorMass s' = logCumulatedPriorMass s /\
  logRemainingPriorMass s' = logRemainingPriorMass s /\
  exists pre, cerr st' = (cerr st ++ pre) ++ warning_no_better_point.
Proof.
  intros (iworst & s1 & lmle & ratio & Ncl & cIdx & cSizes & w1 & calls1 & irandom
          & w2 & startPoint & found & p & l & w3 & Hd & _ & _ & _ & _ & Hend)%loopBody_inv.
  apply discardWorst_inv in Hd
    as (worst & wp & post' & postL' & postW' & lm & _ & _ & _ & _ & _ & _ & _ & ->).
  destruct Hend as [(_ & _ & ->)|(_ & Ho & _)]; simpl.
  - repeat split; eauto.
  - by destruct (bool_decide _).
Qed.

(** An iteration whose draw succeeds replaces the worst point, counts the
    iteration and shrinks the prior-mass interval. *)
Lemma body_replaced st o st' :
  body st = Some (o, st') -> o <> DrawFailed ->
  exists iworst worst drawnPoint lDrawn this w w',
    let s := self st in
    let s' := self st' in
    minCoeff (logLikelihood s) = Some (worst, iworst) /\
    worstLiveLogLikelihood this = worst /\
    drawWithConstraint this (nestedSample s) (Nclusters st') (clusterIndices st')
      (clusterSizes st') w maxNdraw w' = (true, drawnPoint, lDrawn, world st') /\
    columns (nestedSample s') = <[iworst := drawnPoint]> (columns (nestedSample s)) /\
    logLikelihood s' = <[iworst := lDrawn]> (logLikelihood s) /\
    Niterations s' = (Niterations s + 1)%Z /\
    logWidthInPriorMass st' = logWidthInPriorMass st - 1 / IZR (Nobjects s) /\
    logCumulatedPriorMass s' =
      logExpSum (logCumulatedPriorMass s) (logWidthInPriorMass st') /\
    logRemainingPriorMass s' = log (1 - exp (logCumulatedPriorMass s')) /\
    o = (if bool_decide (maxRatio < ratioOfRemainderToActualEvidence st')
         then Continue else Converged).
Proof.
  intros (iworst & s1 & lmle & ratio & Ncl & cIdx & cSizes & w1 & calls1 & irandom
          & w2 & startPoint & found & p & l & w3 & Hd & _ & _ & _ & Hdraw & Hend)%loopBody_inv Ho.
  apply discardWorst_inv in Hd
    as (worst & wp & post' & postL' & postW' & lm & Hmin & _ & _ & _ & _ & _ & _ & Hs1).
  destruct Hend as [(_ & -> & _)|(-> & -> & s2 & lw & Hrep & ->)]; [done|].
  apply replaceWorst_inv in Hrep as (sample' & logL' & Hs & HL & -> & ->).
  apply set_col_Some in Hs as (_ & _ & _ & Hc'). apply set_coeff_Some in HL as [_ ->].
  exists iworst, worst, p, l, s1, startPoint, w2. subst s1. simpl in *.
  repeat split; assumption || reflexivity.
Qed.

(** *** Finalisation *)

Lemma finalize_inv st st' :
  finalize st = Some st' ->
  let s := self st in
  let s' := self st' in
  let old := cols (posteriorSample s) in
  let N := Z.to_nat (Nobjects s) in
  set_columns old (nestedSample s)
    (conservativeResizeXX (Z.to_nat (Ndimensions s)) (old + N) (posteriorSample s))
    = Some (posteriorSample s') /\
  cols (nestedSample s) = N /\
  length (logLikelihood s) = N /\
  set_segment old (map (fun l => logWidthInPriorMass st + l) (logLikelihood s))
    (conservativeResize (old + N) (logWeightOfPosteriorSample s))
    = Some (logWeightOfPosteriorSample s') /\
  set_segment old (logLikelihood s)
    (conservativeResize (old + N) (logLikelihoodOfPosteriorSample s))
    = Some (logLikelihoodOfPosteriorSample s') /\
  logEvidenceError s' = sqrt (Rabs (informationGain s) / IZR (Nobjects s)) /\
  logEvidence s' = logExpSum (logMeanLiveEvidence st) (logEvidence s) /\
  nestedSample s' = nestedSample s /\
  logLikelihood s' = logLikelihood s /\
  Niterations s' = Niterations s /\
  informationGain s' = informationGain s /\
  calls st' = calls st /\
  exists t unit, cerr st' = cerr st ++ [Text ""; Elapsed t unit].
Proof.
  unfold finalize, appendLiveSample. intros H.
  destruct (set_columns _ _ _) as [post|] eqn:E1; simpl in H; [|done].
  case_decide as Hg; [destruct Hg|done].
  destruct (set_segment _ (map _ _) _) as [postW|] eqn:E2; simpl in H; [|done].
  destruct (set_segment _ (logLikelihood _) _) as [postL|] eqn:E3; simpl in H; [|done].
  injection H as <-. unfold printComputationalTime.
  repeat case_decide; simpl; repeat split; (assumption || reflexivity || eauto).
Qed.

Lemma finalize_is_Some st : live_wf st -> is_Some (finalize st).
Proof.
  intros (Hc & Hl & Hr). unfold finalize, appendLiveSample, set_columns, set_segment.
  unfold conservativeResize, cols in *. simpl.
  repeat (case_decide; simpl);
    rewrite ?length_resize, ?length_map in *; try (lia || tauto); by eexists.
Qed.

Lemma body_posterior_wf st o st' :
  body st = Some (o, st') -> posterior_wf (self st').
Proof.
  intros (worst & iworst & wp & _ & _ & Hlen & Hrows & Hcols & HL & HW & _ & _ & _ & _ & HD & _)%body_discard.
  unfold posterior_wf, cols. rewrite Hrows, Hcols, HL, HW, HD.
  unfold conservativeResize. rewrite !length_app, !length_resize. simpl.
  repeat split; try done.
  apply Forall_app. split; [|by repeat constructor].
  apply Forall_forall. intros c Hc.
  rewrite resize_spec in Hc. apply elem_of_app in Hc as [Hc|Hc].
  - apply elem_of_take in Hc as (i & Hi & _).
    apply list_lookup_fmap_Some in Hi as (c' & -> & _). apply length_resize.
  - apply elem_of_replicate in Hc as [-> _]. apply length_replicate.
Qed.

(** Finalisation appends the live sample to well-shaped posterior arrays. *)
Lemma finalize_appends st st' :
  finalize st = Some st' -> posterior_wf (self st) ->
  let s := self st in
  let s' := self st' in
  columns (posteriorSample s') = columns (posteriorSample s) ++ columns (nestedSample s) /\
  logLikelihoodOfPosteriorSample s' = logLikelihoodOfPosteriorSample s ++ logLikelihood s /\
  logWeightOfPosteriorSample s' =
    logWeightOfPosteriorSample s ++ map (fun l => logWidthInPriorMass st + l) (logLikelihood s).
Proof.
  intros (Hp & Hc & Hl & HW & HL & _)%finalize_inv (Hr & Hcolumns & HlenL & HlenW).
  simpl. split; [|split].
  - unfold set_columns in Hp. case_decide; [|done]. simpl in Hp.
    destruct (set_segment _ _ _) as [cs|] eqn:E; simpl in Hp; [|done].
    injection Hp as <-. simpl.
    assert (Hid : map (resize (Z.to_nat (Ndimensions (self st))) uninitialized)
                    (columns (posteriorSample (self st))) = columns (posteriorSample (self st))).
    { clear -Hcolumns. induction Hcolumns as [|c cs Hc _ IH]; simpl; [done|].
      by rewrite IH, resize_all_alt. }
    rewrite Hid in E. by apply set_segment_resize in E.
  - by apply set_segment_resize in HL.
  - apply set_segment_resize in HW; [done..|]. by rewrite length_map.
Qed.

(** *** The records of the earlier iterations are kept *)

Lemma run_init_prefix_ok s w out st0 :
  run_init s w out = Some st0 -> posterior_prefix_ok st0.
Proof.
  intros (sample & w1 & _ & ->)%run_init_inv. unfold posterior_prefix_ok. simpl.
  repeat split; (lia || constructor).
Qed.

(** An iteration keeps the records made so far and appends one: the worst
    live point, its log-likelihood and its log-weight. *)
Lemma body_appends_record st o st' :
  body st = Some (o, st') -> posterior_prefix_ok st ->
  exists Lw iworst worstPoint,
    let s := self st in
    let s' := self st' in
    let n := Z.to_nat (Niterations s) in
    minCoeff (logLikelihood s) = Some (Lw, iworst) /\
    col (nestedSample s) iworst = Some worstPoint /\
    columns (posteriorSample s') = take n (columns (posteriorSample s)) ++ [worstPoint] /\
    logLikelihoodOfPosteriorSample s' = take n (logLikelihoodOfPosteriorSample s) ++ [Lw] /\
    logWeightOfPosteriorSample s' =
      take n (logWeightOfPosteriorSample s) ++ [logWidthInPriorMass st + Lw].
Proof.
  intros Hbody (Hn & Hc & HL & HW & Hshape).
  pose proof (body_discard _ _ _ Hbody)
    as (worst & iworst & wp & Hmin & Hcol & _ & _ & Hpc & HpL & HpW & _).
  cbv zeta in *. unfold conservativeResize, cols in *.
  exists worst, iworst, wp. split; [done|]. split; [done|].
  rewrite Hpc, HpL, HpW.
  rewrite !resize_le by (rewrite ?length_map; done).
  split; [|done]. f_equal. rewrite <- fmap_take.
  set (kept := take _ (columns _)) in *. clearbody kept.
  clear -Hshape. induction Hshape as [|c cs Hc _ IH]; [done|].
  rewrite fmap_cons, IH. by rewrite resize_all_alt.
Qed.

Lemma body_prefix_ok st st' :
  body st = Some (Continue, st') -> posterior_prefix_ok st -> posterior_prefix_ok st'.
Proof.
  intros Hbody Hinv.
  pose proof (body_posterior_wf _ _ _ Hbody) as (_ & Hshape & HlenL & HlenW).
  pose proof (body_appends_record _ _ _ Hbody Hinv)
    as (Lw & iworst & wp & _ & _ & Hpc & _ & _).
  pose proof (body_replaced _ _ _ Hbody ltac:(done))
    as (? & ? & ? & ? & ? & ? & ? & _ & _ & _ & _ & _ & Hnit & _).
  destruct Hinv as (Hn & Hc & _ & _ & _). cbv zeta in *.
  assert (Hcols : cols (posteriorSample (self st')) = Z.to_nat (Niterations (self st'))).
  { unfold cols in *. rewrite Hpc, length_app, length_take_le, Hnit by done. simpl. lia. }
  unfold posterior_prefix_ok. rewrite HlenL, HlenW, Hcols.
  split; [lia|]. split; [lia|]. split; [lia|]. split; [lia|].
  rewrite take_ge by (unfold cols in Hcols; lia). done.
Qed.

Lemma reaches_prefix_ok k st st' :
  reaches k st st' -> posterior_prefix_ok st -> posterior_prefix_ok st'.
Proof. induction 1; eauto using body_prefix_ok. Qed.

(** *** The accumulation loop against the log-sum-exp of the specification *)

Lemma sum_exp_pos (a : ArrayXd) : a <> [] -> 0 < sum (map exp a).
Proof.
  induction a as [|x a IH]; [done|]. intros _. simpl.
  pose proof (exp_pos x). destruct a as [|y a]; simpl in *; [lra|].
  assert (0 < exp y + sum (map exp a)) by (apply IH; done). lra.
Qed.

Lemma logExpSum_ln (A x : R) : 0 < A -> logExpSum (ln A) x = ln (A + exp x).
Proof. intros HA. unfold logExpSum. by rewrite exp_ln. Qed.

Lemma logExpSumLoop_spec (pre l : ArrayXd) (A : R) :
  0 < A ->
  logExpSumLoop (pre ++ l) (length pre) (length l) (ln A)
  = Some (ln (A + sum (map exp l))).
Proof.
  revert pre A. induction l as [|x l IH]; intros pre A HA; simpl.
  - by rewrite Rplus_0_r.
  - rewrite list_lookup_middle by done. simpl.
    rewrite logExpSum_ln by done.
    replace (pre ++ x :: l) with ((pre ++ [x]) ++ l) by (by rewrite <- app_assoc).
    replace (S (length pre)) with (length (pre ++ [x]))
      by (rewrite length_app; simpl; lia).
    rewrite IH by (pose proof (exp_pos x); lra).
    do 2 f_equal. lra.
Qed.

Lemma meanLiveEvidence_spec (logL : ArrayXd) (N Nit : Z) :
  logL <> [] -> length logL = Z.to_nat N ->
  meanLiveEvidence logL N Nit
  = Some (logsumexp logL - ln (IZR N),
          logsumexp logL - ln (IZR N) + IZR Nit * (ln (IZR N) - ln (IZR (N + 1)))).
Proof.
  destruct logL as [|l0 l]; [done|]. intros _ Hlen. simpl in Hlen.
  unfold meanLiveEvidence. simpl.
  replace (Z.to_nat (N - 1)) with (length l) by lia.
  pose proof (logExpSumLoop_spec [l0] l (exp l0) (exp_pos l0)) as Hloop.
  rewrite ln_exp in Hloop. simpl in Hloop. rewrite Hloop. reflexivity.
Qed.

(** *** The claims on one iteration and on the whole run *)

(** C1: in every iteration, with Lw the least live log-likelihood and w the
    current logWidthInPriorMass, the new logEvidence is
    logExpSum(logEvidence, w + Lw) and the new informationGain is
    e^{(w+Lw) - logEvidence'} * Lw
    + e^{logEvidence - logEvidence'} * (informationGain + logEvidence)
    - logEvidence', where the logEvidence of the second term is the value
    before the update. *)
Theorem evidence_update_law st o st' :
  body st = Some (o, st') ->
  exists Lw iworst,
    minCoeff (logLikelihood (self st)) = Some (Lw, iworst) /\
    (forall x, x ∈ logLikelihood (self st) -> Lw <= x) /\
    let w := logWidthInPriorMass st in
    let logE := logEvidence (self st) in
    let H := informationGain (self st) in
    let logE' := logEvidence (self st') in
    logE' = logExpSum logE (w + Lw) /\
    informationGain (self st') =
      exp ((w + Lw) - logE') * Lw + exp (logE - logE') * (H + logE) - logE'.
Proof.
  intros (worst & iworst & wp & Hmin & _ & _ & _ & _ & _ & _ & HE & HH & _)%body_discard.
  exists worst, iworst. split; [done|]. split.
  - by apply minCoeff_spec in Hmin as [_ ?].
  - simpl. split; [done|]. rewrite HH, HE. reflexivity.
Qed.



Lemma run_inv fuel s w out o st' :
  run' fuel s w out = Some (o, st') ->
  exists st0 st, run_init s w out = Some st0 /\ loop fuel st0 = Some (o, st) /\
                 finalize st = Some st'.
Proof.
  unfold run. intros H. inv_bind H. injection H as <- <-. subst. eauto.
Qed.

Lemma run_intro fuel s w out st0 o st st' :
  run_init s w out = Some st0 -> loop fuel st0 = Some (o, st) ->
  finalize st = Some st' -> run' fuel s w out = Some (o, st').
Proof. unfold run. intros -> Hl Hf. simpl. rewrite Hl. simpl. by rewrite Hf. Qed.

(** C3: when run ends, after convergence or after a failed draw alike, the
    live points are appended to the posterior arrays, live point i with
    log-likelihood logLikelihood(i) and log-weight
    logWidthInPriorMass + logLikelihood(i); logEvidenceError is
    sqrt(|informationGain| / Nobjects) and logEvidence becomes
    logExpSum(logMeanLiveEvidence, logEvidence). *)
Theorem finalization_law fuel s w out o st' :
  run' fuel s w out = Some (o, st') ->
  exists st0 st,
    run_init s w out = Some st0 /\ loop fuel st0 = Some (o, st) /\
    (o = Converged \/ o = DrawFailed) /\
    let sL := self st in
    let sF := self st' in
    cols (nestedSample sL) = Z.to_nat (Nobjects sL) /\
    length (logLikelihood sL) = Z.to_nat (Nobjects sL) /\
    columns (posteriorSample sF) = columns (posteriorSample sL) ++ columns (nestedSample sL) /\
    logLikelihoodOfPosteriorSample sF = logLikelihoodOfPosteriorSample sL ++ logLikelihood sL /\
    logWeightOfPosteriorSample sF =
      logWeightOfPosteriorSample sL
      ++ map (fun l => logWidthInPriorMass st + l) (logLikelihood sL) /\
    logEvidenceError sF = sqrt (Rabs (informationGain sL) / IZR (Nobjects sL)) /\
    logEvidence sF = logExpSum (logMeanLiveEvidence st) (logEvidence sL).
Proof.
  intros (st0 & st & Hinit & Hloop & Hfin)%run_inv.
  exists st0, st. split; [done|]. split; [done|].
  pose proof (loop_reaches _ _ _ _ Hloop) as (k & st1 & _ & _ & Hbody & Ho).
  split; [by destruct o; auto|].
  pose proof (body_posterior_wf _ _ _ Hbody) as Hpwf.
  pose proof (finalize_appends _ _ Hfin Hpwf) as (Hc & HL & HW).
  pose proof (finalize_inv _ _ Hfin) as (_ & Hn & Hl & _ & _ & Herr & HE & _).
  simpl. repeat split; assumption.
Qed.

Lemma body_failed_cerr st st' :
  body st = Some (DrawFailed, st') ->
  printOnTheScreen (self st') = printOnTheScreen (self st) /\
  cerr st' = cerr st
             ++ progressLine (self st') (Nclusters st') (ratioOfRemainderToActualEvidence st')
             ++ [Text "Can't find point with a better Likelihood";
                 Text "Stopping the nested sampling loop prematurely."].
Proof.
  intros (iworst & s1 & lmle & ratio & Ncl & cIdx & cSizes & w1 & calls1 & irandom
          & w2 & startPoint & found & p & l & w3 & Hd & _ & _ & _ & _ & Hend)%loopBody_inv.
  apply discardWorst_inv in Hd
    as (worst & wp & post' & postL' & postW' & lm & _ & _ & _ & _ & _ & _ & _ & Hs1).
  destruct Hend as [(_ & _ & ->)|(_ & Ho & _)]; [|by destruct (bool_decide _)].
  simpl. split; [by subst s1|]. by rewrite <- app_assoc.
Qed.

(** C4: if the constrained draw fails in an iteration of run, that iteration
    replaces no live point and writes on cerr, after the progress line if one
    is due (printOnTheScreen is on and Niterations is a multiple of 50),
    exactly the two lines "Can't find point with a better Likelihood" and
    "Stopping the nested sampling loop prematurely."; the posterior gathered
    by the earlier iterations is kept, with the record of the failing
    iteration after it; the run returns (with any fuel that covers the
    iterations made), and finalisation is performed on the state the failing
    iteration left: the posterior is extended with the live points and the
    evidence outputs are computed. *)
Theorem draw_failure_is_graceful s w out st0 k st st1 :
  run_init s w out = Some st0 -> reaches k st0 st ->
  body st = Some (DrawFailed, st1) ->
  nestedSample (self st1) = nestedSample (self st) /\
  logLikelihood (self st1) = logLikelihood (self st) /\
  (exists progress,
     cerr st1 = cerr st ++ progress
                ++ [Text "Can't find point with a better Likelihood";
                    Text "Stopping the nested sampling loop prematurely."] /\
     progress =
       (if printOnTheScreen (self st) then
          if decide (Z.rem (Niterations (self st)) 50 = 0%Z) then
            [Progress (Niterations (self st1)) (Nclusters st1) (Nobjects (self st1))
               (exp (logCumulatedPriorMass (self st1)))
               (ratioOfRemainderToActualEvidence st1)
               (logEvidence (self st1)) (informationGain (self st1))]
          else []
        else [])) /\
  (exists Lw iworst worstPoint,
     let n := Z.to_nat (Niterations (self st)) in
     minCoeff (logLikelihood (self st)) = Some (Lw, iworst) /\
     col (nestedSample (self st)) iworst = Some worstPoint /\
     columns (posteriorSample (self st1))
     = take n (columns (posteriorSample (self st))) ++ [worstPoint] /\
     logLikelihoodOfPosteriorSample (self st1)
     = take n (logLikelihoodOfPosteriorSample (self st)) ++ [Lw] /\
     logWeightOfPosteriorSample (self st1)
     = take n (logWeightOfPosteriorSample (self st)) ++ [logWidthInPriorMass st + Lw]) /\
  exists st',
    (forall fuel, (k < fuel)%nat -> run' fuel s w out = Some (DrawFailed, st')) /\
    columns (posteriorSample (self st')) =
      columns (posteriorSample (self st1)) ++ columns (nestedSample (self st)) /\
    logLikelihoodOfPosteriorSample (self st') =
      logLikelihoodOfPosteriorSample (self st1) ++ logLikelihood (self st) /\
    logWeightOfPosteriorSample (self st') =
      logWeightOfPosteriorSample (self st1)
      ++ map (fun l => logWidthInPriorMass st + l) (logLikelihood (self st)) /\
    logEvidenceError (self st') =
      sqrt (Rabs (informationGain (self st1)) / IZR (Nobjects (self st1))) /\
    logEvidence (self st') = logExpSum (logMeanLiveEvidence st1) (logEvidence (self st1)) /\
    exists lines, cerr st' = cerr st1 ++ lines.
Proof.
  intros Hinit Hreach Hbody.
  pose proof (body_failed _ _ Hbody) as (Hs & HL & Hit & Hw & _ & _ & pre & Hcerr).
  split; [done|]. split; [done|]. split.
  { pose proof (body_failed_cerr _ _ Hbody) as [Hprint Hout].
    eexists. split; [exact Hout|]. unfold progressLine. cbv zeta in Hit.
    by rewrite Hprint, Hit. }
  split.
  { eapply body_appends_record; eauto using reaches_prefix_ok, run_init_prefix_ok. }
  assert (Hwf : live_wf st1) by eauto using body_wf, reaches_wf, run_init_wf.
  destruct (finalize_is_Some _ Hwf) as [st' Hfin]. exists st'.
  pose proof (finalize_appends _ _ Hfin (body_posterior_wf _ _ _ Hbody)) as (Hc & HpL & HpW).
  pose proof (finalize_inv _ _ Hfin)
    as (_ & _ & _ & _ & _ & Herr & HE & _ & _ & _ & _ & _ & t & unit & Hout).
  rewrite Hs, HL, Hw in *. split; [|by eauto 10].
  intros fuel Hk. eapply run_intro; [done| |done].
  eapply reaches_loop; eauto.
Qed.

(** C10: when run ends by a failed draw, the worst live point of the failing
    iteration is in the posterior arrays at two indices: at Niterations, where
    the failing iteration saved it, and at Niterations + 1 + its index in the
    live sample, inside the live points appended by the finalisation; point
    and log-likelihood agree at both. *)
Theorem failed_draw_duplicates_worst fuel s w out st' :
  run' fuel s w out = Some (DrawFailed, st') ->
  exists (iworst : nat) (Lw : R) (p : ArrayXd),
    let sF := self st' in
    let t := Z.to_nat (Niterations sF) in
    minCoeff (logLikelihood sF) = Some (Lw, iworst) /\
    col (nestedSample sF) iworst = Some p /\
    t <> (t + 1 + iworst)%nat /\
    col (posteriorSample sF) t = Some p /\
    col (posteriorSample sF) (t + 1 + iworst) = Some p /\
    logLikelihoodOfPosteriorSample sF !! t = Some Lw /\
    logLikelihoodOfPosteriorSample sF !! (t + 1 + iworst)%nat = Some Lw.
Proof.
  intros (st0 & st1 & Hinit & Hloop & Hfin)%run_inv.
  pose proof (loop_reaches _ _ _ _ Hloop) as (k & st & _ & _ & Hbody & _).
  pose proof (body_failed _ _ Hbody) as (Hs & HL & Hn & _).
  pose proof (body_discard _ _ _ Hbody)
    as (Lw & iworst & p & Hmin & Hcol & _ & _ & Hpc & HpL & _).
  pose proof (finalize_appends _ _ Hfin (body_posterior_wf _ _ _ Hbody)) as (Hc & HfL & _).
  pose proof (finalize_inv _ _ Hfin) as (_ & _ & _ & _ & _ & _ & _ & Hs' & HL' & Hn' & _).
  apply minCoeff_spec in Hmin as Hspec. destruct Hspec as [HLw _].
  exists iworst, Lw, p. cbv zeta. unfold col in *.
  rewrite Hs', HL', Hn', Hs, HL, Hn, Hc, HfL, Hpc, HpL, Hs, HL.
  set (n := Z.to_nat (Niterations (self st))).
  set (D := Z.to_nat (Ndimensions (self st))).
  split; [done|]. split; [done|]. split; [lia|].
  assert (H1 : length (resize n (replicate D uninitialized)
                         (map (resize D uninitialized) (columns (posteriorSample (self st))))) = n)
    by apply length_resize.
  assert (H2 : length (conservativeResize n (logLikelihoodOfPosteriorSample (self st))) = n)
    by apply length_resize.
  repeat split.
  - rewrite lookup_app_l by (rewrite length_app; simpl; lia).
    rewrite lookup_app_r by lia. by rewrite H1, Nat.sub_diag.
  - rewrite lookup_app_r by (rewrite length_app; simpl; lia).
    rewrite length_app, H1. simpl. by replace (n + 1 + iworst - (n + 1))%nat with iworst by lia.
  - rewrite lookup_app_l by (rewrite length_app; simpl; lia).
    rewrite lookup_app_r by lia. by rewrite H2, Nat.sub_diag.
  - rewrite lookup_app_r by (rewrite length_app; simpl; lia).
    rewrite length_app, H2. simpl. by replace (n + 1 + iworst - (n + 1))%nat with iworst by lia.
Qed.

(** *** The clustering cadence *)

Lemma updateClustering_inv s Ncl cIdx cSizes w cs Ncl' cIdx' cSizes' w' cs' :
  updateClustering Ninitial K s Ncl cIdx cSizes w cs = Some (Ncl', cIdx', cSizes', w', cs') ->
  K <> 0%Z /\
  ((Z.rem (Niterations s) K = 0%Z /\ (Niterations s < Ninitial)%Z /\
    Ncl' = 1%Z /\ cIdx' = replicate (length cIdx) 0%Z /\ cSizes' = [Nobjects s] /\
    w' = w /\ cs' = cs)
   \/
   (Z.rem (Niterations s) K = 0%Z /\ (Ninitial <= Niterations s)%Z /\
    cluster (nestedSample s) cIdx cSizes (printOnTheScreen s) w = (Ncl', cIdx', cSizes', w') /\
    cs' = cs ++ [CallCluster (Niterations s)])
   \/
   (Z.rem (Niterations s) K <> 0%Z /\
    Ncl' = Ncl /\ cIdx' = cIdx /\ cSizes' = cSizes /\ w' = w /\ cs' = cs)).
Proof.
  unfold updateClustering, int_rem.
  destruct (decide (K = 0%Z)) as [HK|HK]; simpl; [done|]. intros H. split; [done|].
  destruct (decide (Z.rem (Niterations s) K = 0%Z)) as [Hr|Hr].
  - destruct (decide (Niterations s < Ninitial)%Z) as [Hn|Hn].
    + injection H as <- <- <- <- <-. left. auto 10.
    + destruct (cluster _ _ _ _ _) as [[[k ci] csz] w1].
      injection H as <- <- <- <- <-. right. left. repeat split; [done|lia].
  - injection H as <- <- <- <- <-. right. right. auto 10.
Qed.

Lemma body_clustering st o st' :
  body st = Some (o, st') ->
  let s := self st in
  let n := Niterations s in
  K <> 0%Z /\
  ((Z.rem n K = 0%Z /\ (n < Ninitial)%Z /\
    Nclusters st' = 1%Z /\
    clusterIndices st' = replicate (length (clusterIndices st)) 0%Z /\
    clusterSizes st' = [Nobjects s] /\
    calls st' = calls st ++ [CallDraw n])
   \/
   (Z.rem n K = 0%Z /\ (Ninitial <= n)%Z /\
    (exists w', cluster (nestedSample s) (clusterIndices st) (clusterSizes st)
                  (printOnTheScreen s) (world st)
                = (Nclusters st', clusterIndices st', clusterSizes st', w')) /\
    calls st' = calls st ++ [CallCluster n; CallDraw n])
   \/
   (Z.rem n K <> 0%Z /\
    Nclusters st' = Nclusters st /\ clusterIndices st' = clusterIndices st /\
    clusterSizes st' = clusterSizes st /\
    calls st' = calls st ++ [CallDraw n])).
Proof.
  intros (iworst & s1 & lmle & ratio & Ncl & cIdx & cSizes & w1 & calls1 & irandom
          & w2 & startPoint & found & p & l & w3 & Hd & Hcl & _ & _ & _ & Hend)%loopBody_inv.
  apply discardWorst_inv in Hd
    as (worst & wp & post' & postL' & postW' & lm & _ & _ & _ & _ & _ & _ & _ & ->).
  apply updateClustering_inv in Hcl as [HK Hcl]. simpl in Hcl.
  assert (Hst' : Nclusters st' = Ncl /\ clusterIndices st' = cIdx /\ clusterSizes st' = cSizes
                 /\ calls st' = calls1 ++ [CallDraw (Niterations (self st))]).
  { destruct Hend as [(_ & _ & ->)|(_ & _ & s2 & lw & _ & ->)]; simpl; auto. }
  destruct Hst' as (-> & -> & -> & ->). cbv zeta. split; [done|].
  destruct Hcl as [(? & ? & -> & -> & -> & -> & ->)
                  |[(? & ? & Hc & ->)|(? & -> & -> & -> & -> & ->)]].
  - left. auto 10.
  - right. left. rewrite <- app_assoc. simpl. eauto 10.
  - right. right. auto 10.
Qed.

Lemma body_cluster_calls st o st' :
  body st = Some (o, st') -> cluster_calls_ok st -> cluster_calls_ok st'.
Proof.
  intros (_ & Hcases)%body_clustering Hok m.
  destruct Hcases as [(_ & _ & _ & _ & _ & ->)|[(? & ? & _ & ->)|(_ & _ & _ & _ & ->)]];
    rewrite elem_of_app; intros [Hm|Hm]; auto.
  - apply list_elem_of_singleton in Hm. done.
  - apply elem_of_cons in Hm as [[= ->]|Hm]; [done|].
    apply list_elem_of_singleton in Hm. done.
  - apply list_elem_of_singleton in Hm. done.
Qed.

Lemma body_cluster_indices st st' :
  body st = Some (Continue, st') -> cluster_indices_ok st -> cluster_indices_ok st'.
Proof.
  intros Hbody Hok Hn.
  pose proof (body_replaced _ _ _ Hbody ltac:(done))
    as (? & ? & ? & ? & ? & ? & ? & _ & _ & _ & _ & _ & Hnit & _).
  pose proof (body_discard _ _ _ Hbody) as (? & ? & ? & _ & _ & _ & _ & _ & _ & _ & _ & _ & _ & HN & _).
  rewrite Hnit in Hn. rewrite HN.
  pose proof (body_clustering _ _ _ Hbody) as (_ & Hcases).
  destruct Hcases as [(_ & _ & _ & -> & _)|[(_ & ? & _)|(_ & _ & -> & _)]].
  - rewrite length_replicate. apply Hok. lia.
  - lia.
  - apply Hok. lia.
Qed.

Lemma reaches_cluster_ok k st st' :
  reaches k st st' -> cluster_calls_ok st /\ cluster_indices_ok st ->
  cluster_calls_ok st' /\ cluster_indices_ok st'.
Proof.
  induction 1 as [|k st st1 st2 Hstep _ IH]; [done|]. intros [H1 H2].
  apply IH. eauto using body_cluster_calls, body_cluster_indices.
Qed.

Lemma run_init_cluster_ok s w out st0 :
  run_init s w out = Some st0 -> cluster_calls_ok st0 /\ cluster_indices_ok st0.
Proof.
  intros (sample & w1 & _ & ->)%run_init_inv. split.
  - intros m Hm. simpl in Hm. by apply elem_of_nil in Hm.
  - intros _. simpl. apply length_replicate.
Qed.

(** C8: in every iteration of run, the clusterer has only ever been called
    at iterations with Niterations mod NiterationsWithSameClustering = 0 and
    Niterations >= NinitialIterationsWithoutClustering; on the cadence and
    before the initial iterations are over, one cluster is forced (Nclusters
    = 1, the Nobjects cluster indices all 0, one size equal to Nobjects) and
    the clusterer is not called; off the cadence the cluster assignment is
    left as it was and the clusterer is not called; on the cadence and past
    the initial iterations the assignment is the clusterer's. *)
Theorem clustering_cadence s w out st0 k st o st' :
  run_init s w out = Some st0 -> reaches k st0 st -> body st = Some (o, st') ->
  let n := Niterations (self st) in
  let N := Nobjects (self st) in
  (forall m, CallCluster m ∈ calls st' -> Z.rem m K = 0%Z /\ (Ninitial <= m)%Z) /\
  (Z.rem n K = 0%Z -> (n < Ninitial)%Z ->
   Nclusters st' = 1%Z /\ clusterIndices st' = replicate (Z.to_nat N) 0%Z /\
   clusterSizes st' = [N] /\ calls st' = calls st ++ [CallDraw n]) /\
  (Z.rem n K <> 0%Z ->
   Nclusters st' = Nclusters st /\ clusterIndices st' = clusterIndices st /\
   clusterSizes st' = clusterSizes st /\ calls st' = calls st ++ [CallDraw n]) /\
  (Z.rem n K = 0%Z -> (Ninitial <= n)%Z ->
   calls st' = calls st ++ [CallCluster n; CallDraw n] /\
   exists w', cluster (nestedSample (self st)) (clusterIndices st) (clusterSizes st)
                (printOnTheScreen (self st)) (world st)
              = (Nclusters st', clusterIndices st', clusterSizes st', w')).
Proof.
  intros Hinit Hreach Hbody.
  destruct (reaches_cluster_ok _ _ _ Hreach (run_init_cluster_ok _ _ _ _ Hinit)) as [Hcalls Hidx].
  pose proof (body_cluster_calls _ _ _ Hbody Hcalls) as Hcalls'.
  pose proof (body_clustering _ _ _ Hbody) as (_ & Hcases).
  cbv zeta. split; [done|].
  destruct Hcases as [(Hr & Hn & HNcl & Hci & Hcs & Hc)
                     |[(Hr & Hn & Hcl & Hc)|(Hr & HNcl & Hci & Hcs & Hc)]].
  - rewrite Hidx in Hci by done. repeat split; (done || lia).
  - repeat split; (done || lia).
  - repeat split; (done || lia).
Qed.

(** *** The order of the posterior record *)

Lemma nondecreasing_snoc l y :
  nondecreasing l -> (forall x, x ∈ l -> x <= y) -> nondecreasing (l ++ [y]).
Proof.
  intros Hl Hy i j a b Hij Hi Hj.
  apply lookup_app_Some in Hi as [Hi|[Hi1 Hi2]];
    apply lookup_app_Some in Hj as [Hj|[Hj1 Hj2]].
  - eauto.
  - apply list_lookup_singleton_Some in Hj2 as [_ <-].
    apply Hy. by eapply list_elem_of_lookup_2.
  - apply lookup_lt_Some in Hj. lia.
  - apply list_lookup_singleton_Some in Hi2 as [_ <-].
    apply list_lookup_singleton_Some in Hj2 as [_ <-]. lra.
Qed.

Lemma body_record_appended st o st' :
  body st = Some (o, st') -> record_ordered st ->
  exists worst iworst,
    minCoeff (logLikelihood (self st)) = Some (worst, iworst) /\
    logLikelihoodOfPosteriorSample (self st')
    = take (Z.to_nat (Niterations (self st))) (logLikelihoodOfPosteriorSample (self st))
      ++ [worst] /\
    nondecreasing (logLikelihoodOfPosteriorSample (self st')) /\
    forall x, x ∈ logLikelihoodOfPosteriorSample (self st') -> x <= worst.
Proof.
  intros Hbody (Hn & Hlen & Hnd & Hle).
  pose proof (body_discard _ _ _ Hbody)
    as (worst & iworst & wp & Hmin & _ & _ & _ & _ & HpL & _).
  cbv zeta in HpL. unfold conservativeResize in HpL.
  rewrite resize_le in HpL by done.
  pose proof (minCoeff_spec _ _ _ Hmin) as [Hw Hall].
  set (record := take (Z.to_nat (Niterations (self st)))
                   (logLikelihoodOfPosteriorSample (self st))) in *.
  assert (Hbelow : forall x, x ∈ record -> x <= worst).
  { intros x Hx. apply Hle; [done|]. by eapply list_elem_of_lookup_2. }
  exists worst, iworst. rewrite HpL. repeat split; [done|by apply nondecreasing_snoc|].
  intros x [Hx|Hx%list_elem_of_singleton]%elem_of_app; [auto|lra].
Qed.

Lemma body_record_ordered st st' :
  draw_respects_constraint ->
  body st = Some (Continue, st') -> record_ordered st -> record_ordered st'.
Proof.
  intros Hdraw Hbody Hinv.
  pose proof (body_record_appended _ _ _ Hbody Hinv) as (worst & iworst & Hmin & HpL & Hnd & Hle).
  pose proof (body_replaced _ _ _ Hbody ltac:(done))
    as (iworst' & worst' & q & l & this & w & w' & Hmin' & Hthis & Hd & _ & HL & Hnit & _).
  cbv zeta in *. rewrite Hmin in Hmin'. injection Hmin' as <- <-.
  apply Hdraw in Hd. rewrite Hthis in Hd.
  destruct Hinv as (Hn & Hlen & _ & _).
  pose proof (minCoeff_spec _ _ _ Hmin) as [_ Hall].
  assert (Hlen' : length (logLikelihoodOfPosteriorSample (self st'))
                  = Z.to_nat (Niterations (self st'))).
  { rewrite HpL, length_app, length_take_le, Hnit by done. simpl. lia. }
  unfold record_ordered. rewrite take_ge by lia.
  split; [lia|]. split; [lia|]. split; [done|]. intros x y Hx Hy. rewrite HL in Hy.
  apply Hle in Hx.
  apply list_elem_of_lookup_1 in Hy as [j Hj].
  apply list_lookup_insert_Some in Hj as [(_ & <- & _)|(_ & Hj)]; [lra|].
  apply list_elem_of_lookup_2, Hall in Hj. lra.
Qed.

Lemma reaches_record_ordered k st st' :
  draw_respects_constraint ->
  reaches k st st' -> record_ordered st -> record_ordered st'.
Proof. intros Hdraw. induction 1; eauto using body_record_ordered. Qed.

Lemma run_init_record_ordered s w out st0 :
  run_init s w out = Some st0 -> record_ordered st0.
Proof.
  intros (sample & w1 & _ & ->)%run_init_inv. unfold record_ordered. simpl.
  split; [done|]. split; [lia|]. split.
  - intros i j x y _ Hi. done.
  - intros x y Hx. by apply elem_of_nil in Hx.
Qed.

Lemma reaches_Niterations k st st' :
  reaches k st st' -> Niterations (self st') = (Niterations (self st) + Z.of_nat k)%Z.
Proof.
  induction 1 as [|k st st1 st2 Hstep _ IH]; [lia|]. rewrite IH.
  pose proof (body_replaced _ _ _ Hstep ltac:(done))
    as (? & ? & ? & ? & ? & ? & ? & _ & _ & _ & _ & _ & Hnit & _).
  cbv zeta in Hnit. lia.
Qed.

(** C5: when every successful constrained draw returns a log-likelihood above
    the current worst live one, then after every iteration of run (the k+1-th,
    say, whatever its outcome) the log-likelihoods saved so far in the
    posterior record are k+1 values that never decrease in insertion order;
    the last one is the least live log-likelihood the iteration found, and
    none is above a live log-likelihood of the moment; the finalisation
    appends the final batch of live log-likelihoods after them. *)
Theorem posterior_record_nondecreasing s w out st0 k st o st' :
  draw_respects_constraint ->
  run_init s w out = Some st0 -> reaches k st0 st -> body st = Some (o, st') ->
  let record := logLikelihoodOfPosteriorSample (self st') in
  length record = S k /\
  nondecreasing record /\
  (exists Lw iworst,
     minCoeff (logLikelihood (self st)) = Some (Lw, iworst) /\ last record = Some Lw) /\
  (forall x y, x ∈ record -> y ∈ logLikelihood (self st') -> x <= y) /\
  (forall st'', finalize st' = Some st'' ->
     logLikelihoodOfPosteriorSample (self st'') = record ++ logLikelihood (self st')).
Proof.
  intros Hdraw Hinit Hreach Hbody.
  assert (Hinv : record_ordered st)
    by eauto using reaches_record_ordered, run_init_record_ordered.
  pose proof (body_record_appended _ _ _ Hbody Hinv) as (worst & iworst & Hmin & HpL & Hnd & Hle).
  pose proof (minCoeff_spec _ _ _ Hmin) as [_ Hall].
  pose proof (reaches_Niterations _ _ _ Hreach) as Hnit.
  assert (Hnit0 : Niterations (self st0) = 0%Z)
    by (by apply run_init_inv in Hinit as (sample & w1 & _ & ->)).
  destruct Hinv as (_ & Hlen & _ & _).
  cbv zeta. split; [|split; [|split; [|split]]].
  - rewrite HpL, length_app, length_take_le by done. simpl. lia.
  - done.
  - exists worst, iworst. split; [done|]. rewrite HpL. apply last_snoc.
  - intros x y Hx Hy. apply Hle in Hx.
    destruct (decide (o = DrawFailed)) as [->|Hnf].
    + pose proof (body_failed _ _ Hbody) as (_ & HL & _). cbv zeta in HL.
      rewrite HL in Hy. apply Hall in Hy. lra.
    + pose proof (body_replaced _ _ _ Hbody Hnf)
        as (iworst' & worst' & q & l & this & w2 & w' & Hmin' & Hthis & Hd & _ & HL & _).
      cbv zeta in *. rewrite Hmin in Hmin'. injection Hmin' as <- <-.
      apply Hdraw in Hd. rewrite Hthis in Hd. rewrite HL in Hy.
      apply list_elem_of_lookup_1 in Hy as [j Hj].
      apply list_lookup_insert_Some in Hj as [(_ & <- & _)|(_ & Hj)]; [lra|].
      apply list_elem_of_lookup_2, Hall in Hj. lra.
  - intros st'' Hfin.
    by pose proof (finalize_appends _ _ Hfin (body_posterior_wf _ _ _ Hbody)) as (_ & HfL & _).
Qed.

(** *** The prior-mass accumulators *)

Lemma exp_logExpSum (x y : R) : exp (logExpSum x y) = exp x + exp y.
Proof.
  unfold logExpSum. apply exp_ln.
  pose proof (exp_pos x). pose proof (exp_pos y). lra.
Qed.

Lemma reaches_Nobjects k st st' :
  reaches k st st' -> Nobjects (self st') = Nobjects (self st).
Proof.
  induction 1 as [|k st st1 st2 Hstep _ IH]; [done|]. rewrite IH.
  by apply body_discard in Hstep as (? & ? & ? & _ & _ & _ & _ & _ & _ & _ & _ & _ & _ & HN & _).
Qed.

Lemma log_spec (x : R) :
  (0 < x -> exists r, log x = Some r /\ exp r = x) /\ (x <= 0 -> log x = None).
Proof.
  unfold log. split; intros Hx.
  - rewrite decide_True by done. exists (ln x). split; [done|]. by apply exp_ln.
  - rewrite decide_False by lra. done.
Qed.

(** C6, as the code has it: the first iteration works with the width
    log(1 - e^{-1/N0}); an iteration whose draw succeeds decreases
    logWidthInPriorMass by 1/N, then sets logCumulatedPriorMass to logExpSum
    of its previous value and the new width, and logRemainingPriorMass to
    log(1 - e^{logCumulatedPriorMass}): as long as e^{logCumulatedPriorMass}
    is below 1 this is a number r with e^{logCumulatedPriorMass} + e^r = 1 to
    within 1e-10, and from 1 on it is no number; an iteration whose draw fails
    leaves the three of them as they were. *)
Theorem prior_mass_update_law s w out st0 k st o st' :
  run_init s w out = Some st0 -> reaches k st0 st -> body st = Some (o, st') ->
  logWidthInPriorMass st0 = ln (1 - exp (- 1 / IZR (Nobjects s))) /\
  (o <> DrawFailed ->
   logWidthInPriorMass st' = logWidthInPriorMass st - 1 / IZR (Nobjects (self st)) /\
   logCumulatedPriorMass (self st') =
     logExpSum (logCumulatedPriorMass (self st)) (logWidthInPriorMass st') /\
   logRemainingPriorMass (self st') = log (1 - exp (logCumulatedPriorMass (self st'))) /\
   (exp (logCumulatedPriorMass (self st')) < 1 ->
    exists r, logRemainingPriorMass (self st') = Some r /\
              Rabs (exp (logCumulatedPriorMass (self st')) + exp r - 1) <= / 10000000000) /\
   (1 <= exp (logCumulatedPriorMass (self st')) ->
    logRemainingPriorMass (self st') = None)) /\
  (o = DrawFailed ->
   logWidthInPriorMass st' = logWidthInPriorMass st /\
   logCumulatedPriorMass (self st') = logCumulatedPriorMass (self st) /\
   logRemainingPriorMass (self st') = logRemainingPriorMass (self st)).
Proof.
  intros Hinit Hreach Hbody. split; [|split].
  - by apply run_init_inv in Hinit as (sample & w1 & _ & ->).
  - intros Ho.
    pose proof (body_replaced _ _ _ Hbody Ho)
      as (? & ? & ? & ? & ? & ? & ? & _ & _ & _ & _ & _ & _ & Hw' & Hcum' & Hrem' & _).
    cbv zeta in *.
    destruct (log_spec (1 - exp (logCumulatedPriorMass (self st')))) as [Hpos Hneg].
    split; [done|]. split; [done|]. split; [done|]. split.
    + intros Hlt. destruct Hpos as (r & Hr & Hexp); [lra|].
      exists r. rewrite Hrem'. split; [done|].
      replace (exp (logCumulatedPriorMass (self st')) + exp r - 1) with 0 by lra.
      rewrite Rabs_R0. lra.
    + intros Hge. rewrite Hrem'. apply Hneg. lra.
  - intros ->. pose proof (body_failed _ _ Hbody) as (_ & _ & _ & ? & ? & ? & _). done.
Qed.

(** *** The state before the first iteration *)

Lemma splice_splice (b d T : nat) (blk comp c : ArrayXd) :
  length blk = d -> (b + d <= length c)%nat ->
  let c1 := take b c ++ blk ++ drop (b + d) c in
  take (b + d) c1 ++ comp ++ drop (b + d + T) c1
  = take b c ++ (blk ++ comp) ++ drop (b + (d + T)) c.
Proof.
  intros Hblk Hlen c1. subst c1.
  assert (Htake : length (take b c) = b) by (rewrite length_take; lia).
  assert (Hpre : length (take b c ++ blk) = (b + d)%nat)
    by (rewrite length_app; lia).
  rewrite (app_assoc (take b c) blk).
  rewrite take_app_length' by done.
  rewrite drop_app_ge by lia. rewrite Hpre, drop_drop.
  replace (b + d + (b + d + T - (b + d)))%nat with (b + (d + T))%nat by lia.
  by rewrite <- !app_assoc.
Qed.

Lemma drawFromPriors_spec ps N b m w m' w' :
  drawFromPriors ps N b m w = Some (m', w') ->
  Forall (fun c => length c = rows m) (columns m) ->
  columns m' =
    imap (fun j c => take b c ++ composedPoint (fst (priorDraws ps N w)) j
                       ++ drop (b + totalNdimensions ps) c) (columns m).
Proof.
  revert b m w. induction ps as [|p ps IH]; intros b m w; simpl.
  - intros [= <- <-] _. apply list_eq. intros i.
    rewrite list_lookup_imap. destruct (columns m !! i) as [c|]; simpl; [|done].
    unfold composedPoint. simpl. by rewrite Nat.add_0_r, take_drop.
  - case_decide; [|done]. destruct (draw p _ N w) as [f w1] eqn:Ed.
    destruct (set_rows b _ f m) as [m1|] eqn:E; simpl; [|done].
    intros Hrec Hcols. unfold set_rows in E. case_decide as Hfit; [|done].
    injection E as <-. simpl in Hrec.
    apply IH in Hrec; simpl.
    + rewrite Hrec. destruct (priorDraws ps N w1) as [bs w2]. simpl.
      apply list_eq. intros i. rewrite !list_lookup_imap.
      destruct (columns m !! i) as [c|] eqn:Ec; simpl; [|done]. f_equal.
      unfold composedPoint. simpl. apply splice_splice.
      * unfold blockColumn. simpl. by rewrite length_map, length_seq.
      * rewrite Forall_lookup in Hcols. rewrite (Hcols _ _ Ec). done.
    + apply Forall_forall. intros c1 (i & c & -> & Hc)%elem_of_lookup_imap.
      rewrite Forall_lookup in Hcols. specialize (Hcols _ _ Hc).
      rewrite !length_app, length_take, length_map, length_seq, length_drop. lia.
Qed.

Lemma totalNdimensions_sum ps :
  Forall (fun p => (0 <= getNdimensions p)%Z) ps ->
  Z.to_nat (sumNdimensions ps) = totalNdimensions ps.
Proof.
  unfold sumNdimensions. intros Hps.
  assert (Hgen : forall acc, (0 <= acc)%Z ->
            Z.to_nat (fold_left (fun acc p => (acc + getNdimensions p)%Z) ps acc)
            = (Z.to_nat acc + totalNdimensions ps)%nat).
  { induction Hps as [|p ps Hp _ IH]; intros acc Hacc; simpl; [lia|].
    rewrite IH by lia. lia. }
  by rewrite Hgen.
Qed.

(** C7, as the code has it: after the constructor and the initialisation of
    run, and before the first iteration, the live sample consists of Nobjects
    points, each composed of the sub-blocks drawn from the priors, and
    logLikelihood(i) is the likelihood of column i; logWidthInPriorMass =
    log(1 - e^{-1/N0}); logEvidence is the sentinel lowest(); informationGain
    = 0; Niterations = 0; the cluster indices are Nobjects zeros.  But
    logCumulatedPriorMass already is logExpSum(lowest(), logWidthInPriorMass),
    and Nclusters is 0, with no cluster size yet. *)
Theorem state_before_first_iteration print N ps w0 w out st0 :
  Forall (fun p => (0 <= getNdimensions p)%Z) ps ->
  run_init (fst (NestedSampler_new print N ps w0)) w out = Some st0 ->
  let s0 := self st0 in
  let blocks := fst (priorDraws ps (Z.to_nat N) w) in
  columns (nestedSample s0) = map (composedPoint blocks) (seq 0 (Z.to_nat N)) /\
  logLikelihood s0 = map logValue (columns (nestedSample s0)) /\
  logWidthInPriorMass st0 = ln (1 - exp (- 1 / IZR N)) /\
  logEvidence s0 = lowest /\
  informationGain s0 = 0 /\
  logCumulatedPriorMass s0 = logExpSum lowest (logWidthInPriorMass st0) /\
  Niterations s0 = 0%Z /\
  Nclusters st0 = 0%Z /\
  clusterIndices st0 = replicate (Z.to_nat N) 0%Z /\
  clusterSizes st0 = [] /\
  columns (posteriorSample s0) = [].
Proof.
  intros Hps (sample & w1 & Hd & ->)%run_init_inv. simpl in *.
  repeat split.
  apply drawFromPriors_spec in Hd.
  - rewrite Hd. simpl. rewrite totalNdimensions_sum by done.
    set (blocks := fst (priorDraws ps (Z.to_nat N) w)).
    set (garbage := replicate (Z.to_nat N) (replicate (totalNdimensions ps) uninitialized)).
    transitivity (imap (fun j (_ : ArrayXd) => composedPoint blocks j) garbage).
    + apply imap_ext. intros i c Hc. simpl.
      apply lookup_replicate in Hc as [-> _].
      rewrite drop_ge by (by rewrite length_replicate). by rewrite app_nil_r.
    + rewrite imap_seq_0. unfold garbage. by rewrite length_replicate.
  - simpl. apply Forall_forall. intros c [-> _]%elem_of_replicate.
    apply length_replicate.
Qed.

(** * Further properties of [run] *)

(** ** Initialisation and the shape of the live sample *)

Lemma set_rows_columns b d f m m' :
  set_rows b d f m = Some m' ->
  Forall (fun c => length c = rows m) (columns m) ->
  Forall (fun c => length c = rows m') (columns m').
Proof.
  unfold set_rows. case_decide as Hfit; [|done]. intros [= <-] Hcols. simpl.
  apply Forall_forall. intros c1 (i & c & -> & Hc)%elem_of_lookup_imap.
  rewrite Forall_lookup in Hcols. specialize (Hcols _ _ Hc).
  rewrite !length_app, length_take, length_map, length_seq, length_drop. lia.
Qed.

Lemma drawFromPriors_columns ps N b m w m' w' :
  drawFromPriors ps N b m w = Some (m', w') ->
  Forall (fun c => length c = rows m) (columns m) ->
  Forall (fun c => length c = rows m') (columns m').
Proof.
  revert b m w. induction ps as [|p ps IH]; intros b m w; simpl.
  - by intros [= <- <-].
  - case_decide; [|done]. destruct (draw p _ N w) as [f w1].
    destruct (set_rows b _ f m) as [m1|] eqn:E; simpl; [|done].
    intros Hrec Hcols. eapply IH; [exact Hrec|]. by eapply set_rows_columns.
Qed.




Lemma run_init_shape s w out st0 : run_init s w out = Some st0 -> live_shape st0.
Proof.
  intros Hinit. split; [by eapply run_init_wf|].
  apply run_init_inv in Hinit as (sample & w1 & Hd & ->). simpl.
  apply drawFromPriors_columns in Hd as Hcols.
  - apply drawFromPriors_shape in Hd as [Hr _]. by rewrite Hr in Hcols.
  - simpl. apply Forall_forall. intros c [-> _]%elem_of_replicate.
    apply length_replicate.
Qed.

Lemma body_shape st o st' : body st = Some (o, st') -> live_shape st -> live_shape st'.
Proof.
  intros Hbody [Hwf Hcols]. split; [by eapply body_wf|].
  pose proof (body_discard _ _ _ Hbody)
    as (? & ? & ? & _ & _ & _ & _ & _ & _ & _ & _ & _ & _ & _ & HD & _).
  cbv zeta in HD. rewrite HD.
  destruct (decide (o = DrawFailed)) as [->|Ho].
  - pose proof (body_failed _ _ Hbody) as (-> & _). done.
  - apply loopBody_inv in Hbody
      as (iworst & s1 & lmle & ratio & Ncl & cIdx & cSizes & w1 & calls1 & irandom
          & w2 & startPoint & found & p & l & w3 & Hd & _ & _ & _ & _ & Hend).
    apply discardWorst_inv in Hd
      as (worst & wp & post' & postL' & postW' & lm & _ & _ & _ & _ & _ & _ & _ & ->).
    destruct Hend as [(_ & -> & _)|(_ & _ & s2 & lw & Hrep & ->)]; [done|].
    apply replaceWorst_inv in Hrep as (sample' & logL' & Hs & _ & _ & ->). simpl in *.
    apply set_col_Some in Hs as (Hlen & _ & _ & ->).
    destruct Hwf as (_ & _ & Hr). rewrite Hr in Hlen.
    apply Forall_insert; done.
Qed.

Lemma reaches_shape k st st' : reaches k st st' -> live_shape st -> live_shape st'.
Proof. induction 1; eauto using body_shape. Qed.

Lemma reaches_Ndimensions k st st' :
  reaches k st st' -> Ndimensions (self st') = Ndimensions (self st).
Proof.
  induction 1 as [|k st st1 st2 Hstep _ IH]; [done|]. rewrite IH.
  by apply body_discard in Hstep
    as (? & ? & ? & _ & _ & _ & _ & _ & _ & _ & _ & _ & _ & _ & HD & _).
Qed.

(** X2: run never changes the population or the dimension: in every state the
    loop goes through, and after every iteration whatever its outcome, the
    live sample has Nobjects points of Ndimensions coefficients each and
    Nobjects log-likelihoods, Nobjects and Ndimensions being those of the
    sampler run was called on. *)
Theorem live_sample_keeps_shape s w out st0 k st o st' :
  run_init s w out = Some st0 -> reaches k st0 st -> body st = Some (o, st') ->
  live_shape st /\ live_shape st' /\
  Nobjects (self st') = Nobjects s /\ Ndimensions (self st') = Ndimensions s.
Proof.
  intros Hinit Hreach Hbody.
  assert (Hshape : live_shape st) by eauto using reaches_shape, run_init_shape.
  split; [done|]. split; [by eapply body_shape|].
  pose proof (body_discard _ _ _ Hbody)
    as (? & ? & ? & _ & _ & _ & _ & _ & _ & _ & _ & _ & _ & HN & HD & _).
  cbv zeta in *. rewrite HN, HD, (reaches_Nobjects _ _ _ Hreach),
    (reaches_Ndimensions _ _ _ Hreach).
  by apply run_init_inv in Hinit as (sample & w1 & _ & ->).
Qed.

(** ** The log-likelihoods are those of the live points *)

Lemma body_likelihoods_match st o st' :
  draw_returns_likelihood ->
  body st = Some (o, st') -> likelihoods_match st -> likelihoods_match st'.
Proof.
  intros Hdraw Hbody Hinv. unfold likelihoods_match in *.
  destruct (decide (o = DrawFailed)) as [->|Ho].
  - pose proof (body_failed _ _ Hbody) as (-> & -> & _). done.
  - pose proof (body_replaced _ _ _ Hbody Ho)
      as (iworst & worst & q & l & this & w & w' & _ & _ & Hd & Hc & HL & _).
    cbv zeta in *. apply Hdraw in Hd. rewrite HL, Hc, Hinv, Hd.
    by rewrite list_fmap_insert.
Qed.

Lemma reaches_likelihoods_match k st st' :
  draw_returns_likelihood ->
  reaches k st st' -> likelihoods_match st -> likelihoods_match st'.
Proof. intros Hdraw. induction 1; eauto using body_likelihoods_match. Qed.

(** X3: when the constrained draw returns, with a point, the likelihood of
    that point, logLikelihood(i) is the likelihood of the live point i before
    and after every iteration of run, and in the state run returns. *)
Theorem likelihoods_are_those_of_the_live_points s w out st0 k st o st' :
  draw_returns_likelihood ->
  run_init s w out = Some st0 -> reaches k st0 st -> body st = Some (o, st') ->
  likelihoods_match st /\ likelihoods_match st' /\
  (forall st'', finalize st' = Some st'' -> likelihoods_match st'').
Proof.
  intros Hdraw Hinit Hreach Hbody.
  assert (H0 : likelihoods_match st0)
    by (by apply run_init_inv in Hinit as (sample & w1 & _ & ->)).
  assert (Hst : likelihoods_match st) by eauto using reaches_likelihoods_match.
  assert (Hst' : likelihoods_match st') by eauto using body_likelihoods_match.
  split; [done|]. split; [done|]. intros st'' Hfin.
  pose proof (finalize_inv _ _ Hfin) as (_ & _ & _ & _ & _ & _ & _ & Hs & HL & _).
  unfold likelihoods_match in *. cbv zeta in *. by rewrite Hs, HL.
Qed.

(** ** Inputs on which run has no result *)

Lemma loop_None_of_body_None st :
  body st = None -> forall fuel, loop fuel st = None.
Proof. intros Hb [|fuel]; [done|]. simpl. by rewrite Hb. Qed.

(** X4: without a live point (Nobjects <= 0) the first iteration takes the
    minimum of an empty array, and with NiterationsWithSameClustering = 0 it
    divides by zero in the remainder: in both cases run has no result,
    whatever the fuel. *)
Theorem run_undefined_inputs fuel s w out :
  (Nobjects s <= 0)%Z \/ K = 0%Z -> run fuel ifuel maxRatio Ninitial K maxNdraw s w out = None.
Proof.
  intros Hbad. unfold run.
  destruct (run_init s w out) as [st0|] eqn:Hinit; [|done]. simpl.
  rewrite loop_None_of_body_None; [done|].
  destruct (body st0) as [[o st']|] eqn:Hbody; [exfalso|done].
  destruct Hbad as [HN|HK0].
  - pose proof (run_init_wf _ _ _ _ Hinit) as (_ & Hlen & _).
    pose proof (body_discard _ _ _ Hbody) as (worst & iworst & _ & Hmin & _).
    cbv zeta in *.
    assert (HN0 : Nobjects (self st0) = Nobjects s)
      by (by apply run_init_inv in Hinit as (sample & w1 & _ & ->)).
    destruct (logLikelihood (self st0)); [done|]. simpl in Hlen. lia.
  - pose proof (body_clustering _ _ _ Hbody) as (HK & _). done.
Qed.

(** ** The starting point of the draw *)

Lemma chooseLivePoint_spec fuel N iworst w i w' :
  chooseLivePoint fuel N iworst w = Some (i, w') ->
  i <> iworst /\ exists w0, i = fst (discreteUniform 0 (N - 1) w0).
Proof.
  revert w. induction fuel as [|fuel IH]; intros w; simpl; [done|].
  destruct (discreteUniform 0 (N - 1) w) as [j w1] eqn:E.
  case_decide as Hj; [by apply IH|]. intros [= <- <-].
  split; [done|]. exists w. by rewrite E.
Qed.

(** X5: the starting point handed to the constrained draw: with more than one
    live point it is never the worst point, and, the random index being
    between 0 and Nobjects - 1, it is a live point; with one live point it is
    that point, the worst one, and the random engine is not used. *)
Theorem starting_point_is_a_live_point_other_than_the_worst s iworst w i w' :
  uniform_in_range ->
  chooseStartingPoint ifuel s iworst w = Some (i, w') ->
  ((1 < Nobjects s)%Z -> i <> Z.of_nat iworst /\ (0 <= i < Nobjects s)%Z) /\
  ((Nobjects s <= 1)%Z -> i = 0%Z /\ w' = w).
Proof.
  intros Hrange. unfold chooseStartingPoint. case_decide as HN.
  - intros (Hne & w0 & ->)%chooseLivePoint_spec. split; [|lia]. intros _.
    split; [done|]. pose proof (Hrange 0%Z (Nobjects s - 1)%Z w0 ltac:(lia)). lia.
  - intros [= <- <-]. split; [lia|done].
Qed.

(** ** The size of the posterior sample *)

(** X6: when run returns, Niterations counts the iterations whose draw
    succeeded, and the three posterior arrays have the same number of
    entries: Niterations + Nobjects after convergence, and one more,
    Niterations + 1 + Nobjects, after a failed draw; every posterior point has
    Ndimensions coefficients. *)
Theorem posterior_sample_size fuel s w out o st' :
  run' fuel s w out = Some (o, st') ->
  let sF := self st' in
  let total := (Z.to_nat (Niterations sF) + (if decide (o = DrawFailed) then 1 else 0)
                + Z.to_nat (Nobjects sF))%nat in
  (0 <= Niterations sF <= Z.of_nat fuel)%Z /\
  cols (posteriorSample sF) = total /\
  length (logLikelihoodOfPosteriorSample sF) = total /\
  length (logWeightOfPosteriorSample sF) = total /\
  Forall (fun c => length c = Z.to_nat (Ndimensions sF)) (columns (posteriorSample sF)).
Proof.
  intros (st0 & st1 & Hinit & Hloop & Hfin)%run_inv.
  pose proof (loop_reaches _ _ _ _ Hloop) as (k & st & Hk & Hreach & Hbody & Ho).
  pose proof (reaches_Niterations _ _ _ Hreach) as Hnit.
  assert (Hnit0 : Niterations (self st0) = 0%Z)
    by (by apply run_init_inv in Hinit as (sample & w1 & _ & ->)).
  assert (Hshape : live_shape st1)
    by eauto using body_shape, reaches_shape, run_init_shape.
  destruct Hshape as [(Hlc & Hll & _) Hlive].
  pose proof (body_posterior_wf _ _ _ Hbody) as Hpwf.
  pose proof (finalize_appends _ _ Hfin Hpwf) as (Hc & HL & HW).
  destruct Hpwf as (_ & Hcols & HlenL & HlenW).
  assert (Hprefix : posterior_prefix_ok st)
    by eauto using reaches_prefix_ok, run_init_prefix_ok.
  pose proof (body_appends_record _ _ _ Hbody Hprefix) as (Lw & iw & wp & _ & _ & Hpc & _).
  destruct Hprefix as (_ & Hpre & _).
  pose proof (finalize_inv _ _ Hfin)
    as (_ & _ & _ & _ & _ & _ & _ & Hs' & HL' & Hn' & _).
  assert (HN : Nobjects (self st') = Nobjects (self st1) /\
               Ndimensions (self st') = Ndimensions (self st1)).
  { clear -Hfin. unfold finalize, appendLiveSample in Hfin.
    destruct (set_columns _ _ _); simpl in Hfin; [|done].
    case_decide; [|done].
    destruct (set_segment _ (map _ _) _); simpl in Hfin; [|done].
    destruct (set_segment _ (logLikelihood _) _); simpl in Hfin; [|done].
    injection Hfin as <-. unfold printComputationalTime. by repeat case_decide. }
  destruct HN as [HN HD].
  assert (Hrec : cols (posteriorSample (self st1)) = S k).
  { unfold cols in *. cbv zeta in Hpc. rewrite Hpc, length_app, length_take_le by done.
    simpl. lia. }
  assert (Hcount : (Z.to_nat (Niterations (self st1))
                    + (if decide (o = DrawFailed) then 1 else 0))%nat = S k
                   /\ (0 <= Niterations (self st1) <= Z.of_nat fuel)%Z).
  { destruct (decide (o = DrawFailed)) as [->|Hnf].
    - pose proof (body_failed _ _ Hbody) as (_ & _ & Hsame & _). cbv zeta in Hsame.
      rewrite Hsame. lia.
    - pose proof (body_replaced _ _ _ Hbody Hnf)
        as (? & ? & ? & ? & ? & ? & ? & _ & _ & _ & _ & _ & Hinc & _).
      cbv zeta in Hinc. rewrite Hinc. lia. }
  destruct Hcount as [Hcount Hrange].
  cbv zeta in *. rewrite Hn', HN, HD. unfold cols in *.
  rewrite Hc, HL, HW, !length_app, length_map, HlenL, HlenW, Hrec, Hll, Hlc, Hcount.
  split; [done|].
  repeat split; try done. apply Forall_app. done.
Qed.

(** ** The weights of the records and the evidence *)

Lemma INR_to_nat (z : Z) : (0 <= z)%Z -> INR (Z.to_nat z) = IZR z.
Proof. intros Hz. by rewrite INR_IZR_INZ, Z2Nat.id. Qed.

Lemma run_init_weights_inv s w out st0 :
  run_init s w out = Some st0 -> weights_inv (Nobjects s) st0.
Proof.
  intros (sample & w1 & _ & ->)%run_init_inv. unfold weights_inv. simpl.
  split; [done|]. split; [unfold Rdiv; ring|done].
Qed.

Lemma sum_snoc (a : ArrayXd) (x : R) : sum (a ++ [x]) = sum a + x.
Proof. induction a as [|y a IH]; simpl; [lra|]. rewrite IH. lra. Qed.

Lemma body_weights st o st' N :
  body st = Some (o, st') -> posterior_prefix_ok st -> weights_inv N st ->
  let n := Z.to_nat (Niterations (self st)) in
  length (logLikelihoodOfPosteriorSample (self st')) = S n /\
  length (logWeightOfPosteriorSample (self st')) = S n /\
  logWeightOfPosteriorSample (self st')
  = imap (recordWeight N) (logLikelihoodOfPosteriorSample (self st')).
Proof.
  intros Hbody Hprefix (HN & Hw & Hrec).
  pose proof (body_appends_record _ _ _ Hbody Hprefix)
    as (Lw & iw & wp & _ & _ & _ & HpL & HpW).
  destruct Hprefix as (_ & _ & HlenL & HlenW & _). cbv zeta in *.
  rewrite HpL, HpW, !length_app, !length_take_le by done. simpl.
  split; [lia|]. split; [lia|].
  rewrite imap_app, Hrec. f_equal. simpl.
  rewrite length_take_le, Nat.add_0_r by done.
  unfold recordWeight. by rewrite Hw.
Qed.

Lemma body_weights_inv st st' N :
  body st = Some (Continue, st') -> posterior_prefix_ok st -> weights_inv N st ->
  weights_inv N st'.
Proof.
  intros Hbody Hprefix Hinv.
  pose proof (body_weights _ _ _ _ Hbody Hprefix Hinv) as (HlenL & HlenW & Hall).
  destruct Hinv as (HN & Hw & _). destruct Hprefix as (Hn & _).
  pose proof (body_replaced _ _ _ Hbody ltac:(done))
    as (? & ? & ? & ? & ? & ? & ? & _ & _ & _ & _ & _ & Hnit & Hw' & _).
  pose proof (body_discard _ _ _ Hbody)
    as (? & ? & ? & _ & _ & _ & _ & _ & _ & _ & _ & _ & _ & HN' & _).
  cbv zeta in *. unfold weights_inv. rewrite HN', HN. split; [done|]. split.
  - rewrite Hw', Hw, HN, Hnit, !INR_to_nat, plus_IZR by lia. unfold Rdiv. ring.
  - rewrite !take_ge by lia. done.
Qed.

Lemma reaches_weights_inv k st st' N :
  reaches k st st' -> posterior_prefix_ok st -> weights_inv N st ->
  posterior_prefix_ok st' /\ weights_inv N st'.
Proof.
  induction 1 as [|k st st1 st2 Hstep _ IH]; [done|]. intros Hp Hw.
  apply IH; eauto using body_prefix_ok, body_weights_inv.
Qed.

Lemma body_width st o st' N :
  body st = Some (o, st') -> weights_inv N st -> (0 <= Niterations (self st))%Z ->
  let n := Z.to_nat (Niterations (self st)) in
  let n' := Z.to_nat (Niterations (self st')) in
  logWidthInPriorMass st' = ln (1 - exp (- 1 / IZR N)) - INR n' / IZR N /\
  (n <= n' <= S n)%nat.
Proof.
  intros Hbody (HN & Hw & _) Hn. cbv zeta in *.
  destruct (decide (o = DrawFailed)) as [->|Ho].
  - pose proof (body_failed _ _ Hbody) as (_ & _ & Hnit & Hw' & _). cbv zeta in *.
    rewrite Hw', Hnit. split; [done|lia].
  - pose proof (body_replaced _ _ _ Hbody Ho)
      as (? & ? & ? & ? & ? & ? & ? & _ & _ & _ & _ & _ & Hnit & Hw' & _).
    cbv zeta in *. rewrite Hw', Hw, HN, Hnit. split; [|lia].
    rewrite !INR_to_nat, plus_IZR by lia. unfold Rdiv. ring.
Qed.

Lemma finalize_weights st o st' st'' N :
  body st = Some (o, st') -> posterior_prefix_ok st -> weights_inv N st ->
  finalize st' = Some st'' ->
  logWeightOfPosteriorSample (self st'')
  = imap (finalWeight N (Z.to_nat (Niterations (self st''))))
      (logLikelihoodOfPosteriorSample (self st'')).
Proof.
  intros Hbody Hprefix Hinv Hfin.
  pose proof (body_weights _ _ _ _ Hbody Hprefix Hinv) as (HlenL & _ & Hall).
  pose proof Hprefix as (Hn & _).
  pose proof (body_width _ _ _ _ Hbody Hinv Hn) as (Hw' & Hnn).
  pose proof (finalize_appends _ _ Hfin (body_posterior_wf _ _ _ Hbody)) as (_ & HL & HW).
  pose proof (finalize_inv _ _ Hfin) as (_ & _ & _ & _ & _ & _ & _ & _ & _ & Hnit & _).
  cbv zeta in *. rewrite HW, HL, Hnit, imap_app, Hall. f_equal.
  - apply imap_ext. intros i L Hi. apply lookup_lt_Some in Hi.
    unfold finalWeight, recordWeight. rewrite Nat.min_l by lia. done.
  - rewrite <- imap_const. apply imap_ext. intros i L _. simpl.
    unfold finalWeight. rewrite Nat.min_r by lia. by rewrite Hw'.
Qed.

(** X7: the log-weights of the posterior sample, at population N.  After
    every iteration of run, the record number i (counted from 0) has the
    log-weight log(1 - e^{-1/N}) - i/N + its log-likelihood: the width of the
    first prior mass interval shrunk i times, times the likelihood.  The
    finalisation keeps these and gives every live point the last width,
    log(1 - e^{-1/N}) - Niterations/N, so that in the sample run returns the
    point number i has the log-weight
    log(1 - e^{-1/N}) - min(i, Niterations)/N + its log-likelihood. *)
Theorem record_weights s w out st0 k st o st' :
  run_init s w out = Some st0 -> reaches k st0 st -> body st = Some (o, st') ->
  (forall i L,
     logLikelihoodOfPosteriorSample (self st') !! i = Some L ->
     logWeightOfPosteriorSample (self st') !! i
     = Some (ln (1 - exp (- 1 / IZR (Nobjects s))) - INR i / IZR (Nobjects s) + L)) /\
  (forall st'' i L,
     finalize st' = Some st'' ->
     logLikelihoodOfPosteriorSample (self st'') !! i = Some L ->
     logWeightOfPosteriorSample (self st'') !! i
     = Some (ln (1 - exp (- 1 / IZR (Nobjects s)))
             - INR (Nat.min i (Z.to_nat (Niterations (self st'')))) / IZR (Nobjects s) + L)).
Proof.
  intros Hinit Hreach Hbody.
  destruct (reaches_weights_inv _ _ _ _ Hreach (run_init_prefix_ok _ _ _ _ Hinit)
              (run_init_weights_inv _ _ _ _ Hinit)) as [Hp Hw].
  split.
  - intros i L Hi. pose proof (body_weights _ _ _ _ Hbody Hp Hw) as (_ & _ & Hall).
    by rewrite Hall, list_lookup_imap, Hi.
  - intros st'' i L Hfin Hi.
    by rewrite (finalize_weights _ _ _ _ _ Hbody Hp Hw Hfin), list_lookup_imap, Hi.
Qed.

Lemma run_init_evidence_inv s w out st0 :
  run_init s w out = Some st0 -> evidence_inv (logEvidence s) st0.
Proof.
  intros (sample & w1 & _ & ->)%run_init_inv. unfold evidence_inv. simpl. lra.
Qed.

Lemma body_evidence st o st' logE0 :
  body st = Some (o, st') -> posterior_prefix_ok st -> evidence_inv logE0 st ->
  exp (logEvidence (self st'))
  = exp logE0 + sum (map exp (logWeightOfPosteriorSample (self st'))).
Proof.
  intros Hbody Hprefix Hinv.
  pose proof (body_appends_record _ _ _ Hbody Hprefix)
    as (Lw & iw & wp & Hmin & _ & _ & _ & HpW).
  pose proof (body_discard _ _ _ Hbody)
    as (Lw' & iw' & wp' & Hmin' & _ & _ & _ & _ & _ & _ & HE & _).
  cbv zeta in *. rewrite Hmin in Hmin'. injection Hmin' as <- <-.
  rewrite HE, exp_logExpSum, Hinv, HpW, map_app. cbn [map].
  rewrite sum_snoc. lra.
Qed.

Lemma body_evidence_inv st st' logE0 :
  body st = Some (Continue, st') -> posterior_prefix_ok st -> evidence_inv logE0 st ->
  evidence_inv logE0 st'.
Proof.
  intros Hbody Hprefix Hinv. unfold evidence_inv.
  pose proof (body_prefix_ok _ _ Hbody Hprefix) as Hp'.
  pose proof (body_posterior_wf _ _ _ Hbody) as (_ & _ & _ & HlenW).
  pose proof (body_appends_record _ _ _ Hbody Hprefix)
    as (Lw & iw & wp & _ & _ & _ & _ & HpW).
  pose proof (body_replaced _ _ _ Hbody ltac:(done))
    as (? & ? & ? & ? & ? & ? & ? & _ & _ & _ & _ & _ & Hnit & _).
  pose proof Hprefix as (Hn & _ & _ & HlenW0 & _). cbv zeta in *.
  rewrite take_ge.
  - by eapply body_evidence.
  - rewrite HpW, length_app, length_take_le, Hnit by done. simpl. lia.
Qed.

Lemma reaches_evidence_inv k st st' logE0 :
  reaches k st st' -> posterior_prefix_ok st -> evidence_inv logE0 st ->
  posterior_prefix_ok st' /\ evidence_inv logE0 st'.
Proof.
  induction 1 as [|k st st1 st2 Hstep _ IH]; [done|]. intros Hp He.
  apply IH; eauto using body_prefix_ok, body_evidence_inv.
Qed.

(** X8: after every iteration of run, the evidence is the one the sampler had
    when run was called (the sentinel, for a sampler fresh from the
    constructor) plus the weights of all the records saved so far:
    e^{logEvidence} = e^{logEvidence at the call} + sum of e^{logWeight}. *)
Theorem evidence_is_the_sum_of_the_weights s w out st0 k st o st' :
  run_init s w out = Some st0 -> reaches k st0 st -> body st = Some (o, st') ->
  exp (logEvidence (self st'))
  = exp (logEvidence s) + sum (map exp (logWeightOfPosteriorSample (self st'))).
Proof.
  intros Hinit Hreach Hbody.
  destruct (reaches_evidence_inv _ _ _ _ Hreach (run_init_prefix_ok _ _ _ _ Hinit)
              (run_init_evidence_inv _ _ _ _ Hinit)) as [Hp He].
  by eapply body_evidence.
Qed.

(** ** The prior mass in closed form *)

(** ** A second call of run *)

Lemma set_coeff_first (x : R) (a : ArrayXd) :
  set_coeff 0 x (conservativeResize 1 a) = Some [x].
Proof.
  unfold set_coeff, conservativeResize.
  rewrite decide_True by (rewrite length_resize; lia).
  by rewrite insert_resize_S, resize_0.
Qed.

Lemma set_col_first (v : ArrayXd) (D : nat) (m : ArrayXXd) :
  set_col 0 v (conservativeResizeXX D 1 m)
  = if decide (length v = D) then Some (MkArrayXXd D [v]) else None.
Proof.
  unfold set_col, set_coeff, conservativeResizeXX. simpl.
  case_decide; [|done].
  rewrite decide_True by (rewrite length_resize; lia). simpl.
  by rewrite insert_resize_S, resize_0.
Qed.

(** X11: run does not keep the posterior sample of an earlier call: the
    first iteration cuts the three posterior arrays down to its own record,
    so that run on a sampler gives the same result whatever these arrays held
    before. *)
Theorem run_forgets_the_earlier_posterior fuel s w out P PL PW :
  run' fuel (with_posterior P PL PW s) w out = run' fuel s w out.
Proof.
  unfold run, run_init. simpl. case_decide; [|done].
  destruct (drawFromPriors _ _ _ _ _) as [[sample w1]|]; simpl; [|done].
  destruct fuel as [|fuel]; [done|]. simpl.
  unfold loopBody, discardWorst. simpl. change (Z.to_nat 0) with 0%nat.
  destruct (minCoeff _) as [[worst iworst]|]; simpl; [|done].
  destruct (col sample iworst) as [worstPoint|]; simpl; [|done].
  rewrite !set_col_first. case_decide; simpl; [|done].
  rewrite !set_coeff_first. reflexivity.
Qed.

(** ** What run writes and whom it calls *)

Lemma body_cerr st o st' :
  body st = Some (o, st') ->
  printOnTheScreen (self st') = printOnTheScreen (self st) /\
  exists progress,
    cerr st' = cerr st ++ progress
               ++ (if decide (o = DrawFailed) then warning_no_better_point else []) /\
    (printOnTheScreen (self st) = false -> progress = []).
Proof.
  intros (iworst & s1 & lmle & ratio & Ncl & cIdx & cSizes & w1 & calls1 & irandom
          & w2 & startPoint & found & p & l & w3 & Hd & _ & _ & _ & _ & Hend)%loopBody_inv.
  apply discardWorst_inv in Hd
    as (worst & wp & post' & postL' & postW' & lm & _ & _ & _ & _ & _ & _ & _ & Hs1).
  assert (Hprint : printOnTheScreen s1 = printOnTheScreen (self st)) by (by subst s1).
  assert (Hquiet : printOnTheScreen (self st) = false -> progressLine s1 Ncl ratio = []).
  { intros Hoff. unfold progressLine. by rewrite Hprint, Hoff. }
  destruct Hend as [(_ & -> & ->)|(_ & -> & s2 & lw & Hrep & ->)]; simpl.
  - split; [done|]. exists (progressLine s1 Ncl ratio).
    split; [by rewrite <- app_assoc|done].
  - apply replaceWorst_inv in Hrep as (sample' & logL' & _ & _ & _ & ->). simpl.
    split; [done|]. exists (progressLine s1 Ncl ratio).
    split; [|done]. destruct (bool_decide _); simpl; by rewrite app_nil_r.
Qed.

Lemma reaches_quiet k st st' :
  reaches k st st' -> printOnTheScreen (self st) = false ->
  printOnTheScreen (self st') = false /\ cerr st' = cerr st.
Proof.
  induction 1 as [|k st st1 st2 Hstep _ IH]; [done|]. intros Hoff.
  pose proof (body_cerr _ _ _ Hstep) as (Hprint & progress & Hcerr & Hquiet).
  rewrite Hquiet, decide_False, !app_nil_r in Hcerr by done.
  destruct IH as [IH1 IH2]; [congruence|]. split; [done|]. congruence.
Qed.

(** X12: with printOnTheScreen off, run itself writes on cerr nothing but the
    warning of a failed draw, if the draw failed, and then the empty line and
    the line of the computational time, which do not depend on
    printOnTheScreen. *)
Theorem run_is_quiet fuel s w out o st' :
  printOnTheScreen s = false ->
  run' fuel s w out = Some (o, st') ->
  exists t unit,
    cerr st' = out
               ++ (if decide (o = DrawFailed) then warning_no_better_point else [])
               ++ [Text ""; Elapsed t unit].
Proof.
  intros Hoff (st0 & st1 & Hinit & Hloop & Hfin)%run_inv.
  pose proof (loop_reaches _ _ _ _ Hloop) as (k & st & _ & Hreach & Hbody & _).
  assert (H0 : printOnTheScreen (self st0) = false /\ cerr st0 = out)
    by (by apply run_init_inv in Hinit as (sample & w1 & _ & ->)).
  destruct H0 as [Hoff0 Hout0].
  destruct (reaches_quiet _ _ _ Hreach Hoff0) as [Hoffk Houtk].
  pose proof (body_cerr _ _ _ Hbody) as (_ & progress & Hcerr & Hquiet).
  rewrite Hquiet in Hcerr by done. simpl in Hcerr.
  pose proof (finalize_inv _ _ Hfin)
    as (_ & _ & _ & _ & _ & _ & _ & _ & _ & _ & _ & _ & t & unit & Hfinal).
  exists t, unit. rewrite Hfinal, Hcerr, Houtk, Hout0. by rewrite <- app_assoc.
Qed.

Lemma expectedCalls_S k :
  expectedCalls (S k) = expectedCalls k ++ callsOfIteration (Z.of_nat k).
Proof.
  unfold expectedCalls. rewrite seq_S, map_app, flat_map_app. simpl.
  by rewrite app_nil_r.
Qed.

Lemma body_calls st o st' :
  body st = Some (o, st') ->
  calls st' = calls st ++ callsOfIteration (Niterations (self st)).
Proof.
  intros (_ & Hcases)%body_clustering. unfold callsOfIteration.
  destruct Hcases as [(Hr & Hn & _ & _ & _ & ->)|[(Hr & Hn & _ & ->)|(Hr & _ & _ & _ & ->)]].
  - by rewrite decide_False by lia.
  - by rewrite decide_True by done.
  - by rewrite decide_False by tauto.
Qed.

Lemma reaches_calls k st st' j :
  reaches k st st' -> Niterations (self st) = Z.of_nat j -> calls st = expectedCalls j ->
  calls st' = expectedCalls (j + k).
Proof.
  intros Hr. revert j. induction Hr as [|k st st1 st2 Hstep _ IH]; intros j Hn Hc.
  - by rewrite Nat.add_0_r.
  - pose proof (body_calls _ _ _ Hstep) as Hc1.
    pose proof (body_replaced _ _ _ Hstep ltac:(done))
      as (? & ? & ? & ? & ? & ? & ? & _ & _ & _ & _ & _ & Hnit & _).
    cbv zeta in Hnit. replace (j + S k)%nat with (S j + k)%nat by lia.
    apply IH; [lia|]. by rewrite Hc1, Hc, Hn, expectedCalls_S.
Qed.

(** X13: the calls run makes to its collaborators, exactly and in order:
    every iteration calls the constrained draw once, and the clusterer is
    called, before the draw, in exactly the iterations i with
    i mod NiterationsWithSameClustering = 0 and
    i >= NinitialIterationsWithoutClustering; the finalisation calls
    neither. *)
Theorem run_calls_its_collaborators_on_schedule s w out st0 k st o st' :
  run_init s w out = Some st0 -> reaches k st0 st -> body st = Some (o, st') ->
  calls st' = expectedCalls (S k) /\
  (forall st'', finalize st' = Some st'' -> calls st'' = expectedCalls (S k)).
Proof.
  intros Hinit Hreach Hbody.
  assert (H0 : Niterations (self st0) = 0%Z /\ calls st0 = [])
    by (by apply run_init_inv in Hinit as (sample & w1 & _ & ->)).
  destruct H0 as [Hn0 Hc0].
  pose proof (reaches_calls _ _ _ 0 Hreach Hn0 Hc0) as Hck. simpl in Hck.
  pose proof (reaches_Niterations _ _ _ Hreach) as Hnk.
  pose proof (body_calls _ _ _ Hbody) as Hc'.
  assert (Hall : calls st' = expectedCalls (S k)).
  { rewrite Hc', Hck, expectedCalls_S. do 2 f_equal. lia. }
  split; [done|]. intros st'' Hfin.
  pose proof (finalize_inv _ _ Hfin)
    as (_ & _ & _ & _ & _ & _ & _ & _ & _ & _ & _ & Hsame & _).
  by rewrite Hsame.
Qed.

(** ** Every access of an iteration is in range *)

Lemma set_col_last (v : ArrayXd) (D n : nat) (m : ArrayXXd) :
  length v = D -> is_Some (set_col n v (conservativeResizeXX D (S n) m)).
Proof.
  intros Hv. unfold set_col, set_coeff, conservativeResizeXX. simpl.
  rewrite decide_True by done.
  rewrite decide_True by (rewrite length_resize; lia). by eexists.
Qed.

Lemma set_coeff_last (x : R) (n : nat) (a : ArrayXd) :
  is_Some (set_coeff n x (conservativeResize (S n) a)).
Proof.
  unfold set_coeff, conservativeResize.
  rewrite decide_True by (rewrite length_resize; lia). by eexists.
Qed.

Lemma chooseStartingPoint_in_range s iworst w i w' :
  uniform_in_range -> (1 <= Nobjects s)%Z ->
  chooseStartingPoint ifuel s iworst w = Some (i, w') -> (0 <= i < Nobjects s)%Z.
Proof.
  intros Hunif HN. unfold chooseStartingPoint. case_decide as H1.
  - intros (_ & w0 & ->)%chooseLivePoint_spec.
    pose proof (Hunif 0%Z (Nobjects s - 1)%Z w0 ltac:(lia)). lia.
  - intros [= <- _]. lia.
Qed.

Lemma body_is_Some st :
  (1 <= Nobjects (self st))%Z -> K <> 0%Z ->
  uniform_in_range -> draw_keeps_dimension ->
  ((1 < Nobjects (self st))%Z ->
   forall iworst w, is_Some (chooseLivePoint ifuel (Nobjects (self st)) iworst w)) ->
  live_shape st -> is_Some (body st).
Proof.
  intros HN HK Hunif Hdim Hinner [(Hcols & Hlen & Hrows) Hall].
  cbv zeta in Hcols, Hlen, Hrows. unfold cols in Hcols.
  assert (Hne : logLikelihood (self st) <> []).
  { intros E. rewrite E in Hlen. simpl in Hlen. lia. }
  destruct (minCoeff_is_Some _ Hne) as [[worst iworst] Hmin].
  pose proof (minCoeff_spec _ _ _ Hmin) as [Hlk _]. apply lookup_lt_Some in Hlk as Hiw.
  destruct (lookup_lt_is_Some_2 (columns (nestedSample (self st))) iworst ltac:(lia))
    as [wp Hwp].
  assert (Hwplen : length wp = Z.to_nat (Ndimensions (self st)))
    by (by eapply Forall_lookup_1 in Hall).
  destruct (set_col_last wp _ (Z.to_nat (Niterations (self st))) (posteriorSample (self st))
              Hwplen) as [post' Hpost].
  destruct (set_coeff_last worst (Z.to_nat (Niterations (self st)))
              (logLikelihoodOfPosteriorSample (self st))) as [postL' HpostL].
  destruct (set_coeff_last (logWidthInPriorMass st + worst) (Z.to_nat (Niterations (self st)))
              (logWeightOfPosteriorSample (self st))) as [postW' HpostW].
  pose proof (meanLiveEvidence_spec _ _ (Niterations (self st)) Hne Hlen) as Hmean.
  unfold loopBody, discardWorst. cbv zeta.
  rewrite Hmin. simpl. unfold col. rewrite Hwp. simpl.
  rewrite Hpost. simpl. rewrite HpostL. simpl. rewrite HpostW. simpl.
  rewrite Hmean. simpl.
  match goal with |- is_Some (updateClustering _ _ ?s1 _ _ _ _ _ ≫= _) =>
    set (s1' := s1) end.
  assert (Hcl : is_Some (updateClustering Ninitial K s1' (Nclusters st) (clusterIndices st)
                           (clusterSizes st) (world st) (calls st))).
  { unfold updateClustering, int_rem. destruct (decide (K = 0%Z)); [done|]. simpl.
    repeat case_decide; try by eexists.
    destruct (cluster _ _ _ _ _) as [[[? ?] ?] ?]. by eexists. }
  destruct Hcl as [[[[[Ncl cIdx] cSizes] w1] calls1] Hcl]. rewrite Hcl. simpl.
  assert (Hstart : is_Some (chooseStartingPoint ifuel s1' iworst w1)).
  { unfold chooseStartingPoint. case_decide as H1; [|by eexists].
    apply Hinner. simpl in H1. lia. }
  destruct Hstart as [[irandom w2] Hstart]. rewrite Hstart. simpl.
  pose proof (chooseStartingPoint_in_range _ _ _ _ _ Hunif HN Hstart) as Hir.
  simpl in Hir.
  destruct (lookup_lt_is_Some_2 (columns (nestedSample (self st))) (Z.to_nat irandom)
              ltac:(lia)) as [startPoint Hsp].
  rewrite Hsp. simpl.
  destruct (drawWithConstraint _ _ _ _ _ _ _ _) as [[[found q] l] w3] eqn:Hdraw.
  destruct found; simpl; [|by eexists].
  apply Hdim in Hdraw. simpl in Hdraw.
  unfold replaceWorst, set_col, set_coeff. simpl.
  rewrite decide_True by congruence.
  rewrite decide_True by lia. simpl.
  rewrite decide_True by lia. simpl. by eexists.
Qed.

(** X14: every array access of an iteration is in range.  For a sampler of at
    least one live point and a non-zero NiterationsWithSameClustering, with a
    uniform generator that stays in its range and a derived sampler that
    returns points of the dimension of the sampler, every iteration of a run
    returns, provided the inner loop that draws a live point other than the
    worst one ends: the posterior arrays are resized before they are
    written, and the indices of the worst point and of the starting point are
    those of live points. *)
Theorem iteration_is_defined s w out st0 k st :
  (1 <= Nobjects s)%Z -> K <> 0%Z ->
  uniform_in_range -> draw_keeps_dimension ->
  ((1 < Nobjects s)%Z ->
   forall iworst w', is_Some (chooseLivePoint ifuel (Nobjects s) iworst w')) ->
  run_init s w out = Some st0 -> reaches k st0 st ->
  exists o st', body st = Some (o, st').
Proof.
  intros HN HK Hunif Hdim Hinner Hinit Hreach.
  assert (HN0 : Nobjects (self st0) = Nobjects s)
    by (by apply run_init_inv in Hinit as (sample & w1 & _ & ->)).
  pose proof (reaches_Nobjects _ _ _ Hreach) as HNk. rewrite HN0 in HNk.
  pose proof (reaches_shape _ _ _ Hreach (run_init_shape _ _ _ _ Hinit)) as Hshape.
  destruct (body_is_Some st) as [[o st'] Hbody]; rewrite ?HNk; eauto.
Qed.

(** ** The computational time *)

(** X15: the time is never given in days: the branch for hours takes every
    time of an hour or more, so that a run of a day or more is reported in
    hours, and the branch for days of the source is dead; some branch is
    always taken, and the particular cases are seconds below a minute and
    minutes (between 1 and 60) below an hour.  The model of
    printComputationalTime used in run is this chain. *)
Theorem computational_time_is_never_in_days (t : R) :
  (exists v unit, computationalTimeBranch t = Some (v, unit) /\ unit <> "days"%string) /\
  (t < 60 -> computationalTimeBranch t = Some (t, "seconds"%string)) /\
  (60 <= t < 60 * 60 ->
   computationalTimeBranch t = Some (t / 60, "minutes"%string) /\ 1 <= t / 60 < 60) /\
  (60 * 60 <= t ->
   computationalTimeBranch t = Some (t / (60 * 60), "hours"%string)) /\
  (forall start st,
     exists v unit,
       computationalTimeBranch (IZR (time0 (world st)) - IZR start) = Some (v, unit) /\
       printComputationalTime start st = reportTime v unit st).
Proof.
  assert (Hs : forall t, t < 60 -> computationalTimeBranch t = Some (t, "seconds"%string)).
  { intros t' Ht. unfold computationalTimeBranch. by rewrite decide_True. }
  assert (Hm : forall t, 60 <= t < 60 * 60 ->
               computationalTimeBranch t = Some (t / 60, "minutes"%string)).
  { intros t' Ht. unfold computationalTimeBranch.
    by rewrite decide_False, decide_True by lra. }
  assert (Hh : forall t, 60 * 60 <= t ->
               computationalTimeBranch t = Some (t / (60 * 60), "hours"%string)).
  { intros t' Ht. unfold computationalTimeBranch.
    by rewrite decide_False, decide_False, decide_True by lra. }
  assert (Hcases : forall t, t < 60 \/ 60 <= t < 60 * 60 \/ 60 * 60 <= t)
    by (intros; lra).
  split; [|split; [auto|split; [|split; [auto|]]]].
  - destruct (Hcases t) as [Ht|[Ht|Ht]]; eexists _, _; (split; [eauto|done]).
  - intros Ht. split; [auto|lra].
  - intros start st. unfold printComputationalTime.
    destruct (Hcases (IZR (time0 (world st)) - IZR start)) as [Ht|[Ht|Ht]];
      eexists _, _; (split; [eauto|]).
    + by rewrite decide_True.
    + by rewrite decide_False, decide_True by lra.
    + by rewrite decide_False, decide_False by lra.
Qed.

End Loop.

(** ** The parameter summary of [Results] *)

Lemma sum_app (a b : ArrayXd) : sum (a ++ b) = sum a + sum b.
Proof. induction a as [|x a IH]; simpl; [lra|]. rewrite IH. lra. Qed.

Lemma sum_Permutation (a b : ArrayXd) : Permutation a b -> sum a = sum b.
Proof. induction 1; simpl; lra. Qed.

Lemma sum_map_div (a : ArrayXd) (S : R) : sum (map (fun x => x / S) a) = sum a / S.
Proof. induction a as [|x a IH]; simpl; [unfold Rdiv; ring|]. rewrite IH. unfold Rdiv. ring. Qed.

Lemma maxCoeff_visit_spec l best ibest i :
  let '(m, j) := maxCoeff_visit best ibest i l in
  best <= m /\ (forall x, x ∈ l -> x <= m) /\
  ((m = best /\ j = ibest) \/ (exists k, j = (i + k)%nat /\ l !! k = Some m)).
Proof.
  revert best ibest i. induction l as [|x l IH]; intros best ibest i; simpl.
  - split; [lra|]. split; [|by left]. intros x Hx. by apply elem_of_nil in Hx.
  - case_decide as Hlt.
    + specialize (IH x i (S i)). destruct (maxCoeff_visit x i (S i) l) as [m j].
      destruct IH as (Hm & Hall & Hpos). split; [lra|]. split.
      * intros y [->|Hy]%elem_of_cons; auto.
      * right. destruct Hpos as [[-> ->]|(k & -> & Hk)].
        -- exists 0%nat. split; [lia|done].
        -- exists (S k). split; [lia|done].
    + specialize (IH best ibest (S i)).
      destruct (maxCoeff_visit best ibest (S i) l) as [m j].
      destruct IH as (Hm & Hall & Hpos). split; [lra|]. split.
      * intros y [->|Hy]%elem_of_cons; [lra|auto].
      * destruct Hpos as [?|(k & -> & Hk)]; [by left|].
        right. exists (S k). split; [lia|done].
Qed.

Lemma maxCoeff_spec a m i :
  maxCoeff a = Some (m, i) ->
  a !! i = Some m /\ forall x, x ∈ a -> x <= m.
Proof.
  destruct a as [|x l]; [done|]. simpl. intros [= H].
  pose proof (maxCoeff_visit_spec l x 0%nat 1%nat) as S. rewrite H in S.
  destruct S as (Hm & Hall & Hpos). split.
  - destruct Hpos as [[-> ->]|(k & -> & Hk)]; done.
  - intros y [->|Hy]%elem_of_cons; auto.
Qed.

(** The loop of the median ends inside the arrays when the probabilities it
    can still add reach one half, and stops at the median. *)
Lemma medianLoop_spec (v p : ArrayXd) (total med : R) :
  length v = length p -> 0.5 <= total + sum p ->
  exists m, medianLoop v p total med = Some m /\
    ((0.5 <= total /\ m = med) \/
     (exists k, v !! k = Some m /\ total + sum (take k p) < 0.5
                /\ 0.5 <= total + sum (take (S k) p))).
Proof.
  revert p total med. induction v as [|x v IH]; intros [|q p] total med Hlen Hsum;
    simpl in *; try done.
  - case_decide; [lra|]. exists med. split; [done|]. left. split; [lra|done].
  - case_decide as Hlt.
    + destruct (IH p (total + q) x) as (m & Hm & Hcases); [lia|lra|].
      exists m. split; [done|]. right.
      destruct Hcases as [[Hge ->]|(k & Hk & Hlo & Hhi)].
      * exists 0%nat. simpl. split; [done|]. split; lra.
      * exists (S k). simpl. split; [done|]. split; lra.
    + exists med. split; [done|]. left. split; [lra|done].
Qed.

Lemma rearranges_facts (v p : ArrayXd) :
  rearranges -> length v = length p ->
  let v' := fst (sortElementsDouble v p) in
  let p' := snd (sortElementsDouble v p) in
  length v' = length v /\ length p' = length v /\ sum p' = sum p.
Proof.
  intros Hsort Hlen. destruct (Hsort v p Hlen) as [Hlen' Hperm]. cbv zeta.
  pose proof (Permutation_length Hperm) as HL. rewrite !length_zip in HL.
  split; [lia|]. split; [lia|].
  transitivity (sum (map snd (zip (fst (sortElementsDouble v p))
                                  (snd (sortElementsDouble v p))))).
  { by rewrite snd_zip by lia. }
  transitivity (sum (map snd (zip v p))).
  { apply sum_Permutation. by apply fmap_Permutation. }
  by rewrite snd_zip by lia.
Qed.

Lemma logPosteriorDistribution_inv ns l :
  logPosteriorDistribution ns = Some l ->
  length (logWeightOfPosteriorSample ns) = length (logLikelihoodOfPosteriorSample ns) /\
  l = map (fun x => x - logEvidence ns)
        (zip_with Rplus (logWeightOfPosteriorSample ns) (logLikelihoodOfPosteriorSample ns)).
Proof.
  unfold logPosteriorDistribution, cwise. case_decide; [|done]. simpl.
  by intros [= <-].
Qed.

Lemma logPosteriorDistribution_Some ns :
  length (logWeightOfPosteriorSample ns) = length (logLikelihoodOfPosteriorSample ns) ->
  logPosteriorDistribution ns
  = Some (map (fun x => x - logEvidence ns)
            (zip_with Rplus (logWeightOfPosteriorSample ns)
               (logLikelihoodOfPosteriorSample ns))).
Proof.
  intros Hlen. unfold logPosteriorDistribution, cwise. by rewrite decide_True.
Qed.

Lemma posteriorProbability_eq ns l :
  logPosteriorDistribution ns = Some l -> in_double_range l ->
  posteriorProbability ns = Some (normalised l).
Proof.
  intros Hl Hrange. unfold posteriorProbability, normalised. rewrite Hl. simpl.
  rewrite decide_True by done. by rewrite map_map.
Qed.

Lemma posteriorProbability_inv ns post :
  posteriorProbability ns = Some post ->
  exists l, logPosteriorDistribution ns = Some l /\ in_double_range l /\
            post = normalised l.
Proof.
  unfold posteriorProbability, normalised.
  destruct (logPosteriorDistribution ns) as [l|]; simpl; [|done].
  case_decide; [|done]. intros [= <-]. exists l. by rewrite map_map.
Qed.

Lemma sum_map_exp_shift (l : ArrayXd) (E : R) :
  sum (map (fun x => exp (x - E)) l) = exp (- E) * sum (map exp l).
Proof.
  induction l as [|x l IH]; simpl; [ring|]. rewrite IH.
  replace (x - E) with (x + - E) by ring. rewrite exp_plus. ring.
Qed.

Lemma normalised_shift (l : ArrayXd) (E : R) :
  normalised (map (fun x => x - E) l) = normalised l.
Proof.
  unfold normalised. rewrite !map_map, sum_map_exp_shift. apply map_ext. intros x.
  replace (x - E) with (x + - E) by ring.
  rewrite exp_plus. unfold Rdiv. rewrite Rinv_mult.
  pose proof (exp_pos (- E)).
  set (S := sum _). set (e := exp (- E)) in *.
  transitivity (exp x * (e * / e) * / S); [ring|]. rewrite Rinv_r by lra. ring.
Qed.

Lemma posteriorProbability_normalised ns :
  posterior_in_range ns ->
  posteriorProbability ns
  = Some (normalised (zip_with Rplus (logWeightOfPosteriorSample ns)
                        (logLikelihoodOfPosteriorSample ns))).
Proof.
  intros (l & Hl & Hrange). rewrite (posteriorProbability_eq _ _ Hl Hrange).
  apply logPosteriorDistribution_inv in Hl as [_ ->]. by rewrite normalised_shift.
Qed.

Lemma sum_nonneg (l : ArrayXd) : Forall (fun x => 0 <= x) l -> 0 <= sum l.
Proof. induction 1; simpl; lra. Qed.

Lemma elem_le_sum (l : ArrayXd) (x : R) :
  Forall (fun y => 0 <= y) l -> x ∈ l -> x <= sum l.
Proof.
  induction 1 as [|y l Hy Hl IH]; [by intros ?%elem_of_nil|].
  pose proof (sum_nonneg l Hl). simpl.
  intros [->|Hx]%elem_of_cons; [lra|]. specialize (IH Hx). lra.
Qed.

Lemma normalised_distribution (logs : ArrayXd) :
  length (normalised logs) = length logs /\
  Forall (fun q => 0 < q <= 1) (normalised logs) /\
  (logs <> [] -> sum (normalised logs) = 1).
Proof.
  unfold normalised. split; [by rewrite length_map|].
  assert (Hpos : logs <> [] -> 0 < sum (map exp logs)) by apply sum_exp_pos.
  split.
  - apply Forall_forall. intros q (x & -> & Hx)%list_elem_of_fmap.
    assert (Hne : logs <> []) by (intros ->; by apply elem_of_nil in Hx).
    specialize (Hpos Hne). pose proof (exp_pos x).
    assert (Hle : exp x <= sum (map exp logs)).
    { apply elem_le_sum; [|by apply list_elem_of_fmap_2].
      apply Forall_forall. intros y (z & -> & _)%list_elem_of_fmap.
      pose proof (exp_pos z). lra. }
    split.
    + by apply Rdiv_lt_0_compat.
    + apply (Rmult_le_reg_r (sum (map exp logs))); [done|].
      unfold Rdiv. rewrite Rmult_assoc, Rinv_l by lra. lra.
  - intros Hne. specialize (Hpos Hne).
    replace (map (fun x => exp x / sum (map exp logs)) logs)
      with (map (fun y => y / sum (map exp logs)) (map exp logs))
      by (by rewrite map_map).
    rewrite sum_map_div. unfold Rdiv. rewrite Rinv_r; lra.
Qed.

Lemma exp_mono (x y : R) : x <= y -> exp x <= exp y.
Proof. intros [Hlt| ->]; [left; by apply exp_increasing|lra]. Qed.

Lemma exp_mono_inv (x y : R) : exp x <= exp y -> x <= y.
Proof.
  intros Hle. destruct (Rle_or_lt x y) as [|Hlt]; [done|].
  apply exp_increasing in Hlt. lra.
Qed.

Lemma sum_map_exp_le (l : ArrayXd) (hi : R) :
  Forall (fun x => x <= hi) l -> sum (map exp l) <= INR (length l) * exp hi.
Proof.
  induction 1 as [|x l Hx _ IH]; [simpl; lra|].
  cbn [map sum fold_right length]. rewrite S_INR.
  pose proof (exp_mono _ _ Hx). unfold sum in IH. lra.
Qed.

(** Exponents between [lo] and [hi], few enough, keep the posterior
    probabilities within the range of a double. *)
Lemma posterior_in_range_intro ns (l : ArrayXd) (lo hi : R) :
  logPosteriorDistribution ns = Some l ->
  Forall (fun x => lo <= x <= hi) l ->
  -708 <= lo -> hi + INR (length l) <= 709 -> -708 <= lo - hi - INR (length l) ->
  posterior_in_range ns.
Proof.
  intros Hl Hall Hlo Hhi Hratio. exists l. split; [done|]. unfold in_double_range.
  pose proof (pos_INR (length l)) as Hn.
  assert (Hsum : sum (map exp l) <= exp (INR (length l) + hi)).
  { etransitivity; [apply (sum_map_exp_le l hi)|].
    - eapply Forall_impl; [exact Hall|]. simpl. intros; lra.
    - rewrite exp_plus. pose proof (exp_ineq1_le (INR (length l))).
      pose proof (exp_pos hi). nra. }
  split; [|split].
  - eapply Forall_impl; [exact Hall|]. simpl. intros; lra.
  - etransitivity; [exact Hsum|]. apply exp_mono. lra.
  - apply Forall_forall. intros x Hx.
    assert (Hpos : 0 < sum (map exp l)).
    { apply sum_exp_pos. intros ->. by apply elem_of_nil in Hx. }
    rewrite Forall_forall in Hall. specialize (Hall x Hx).
    apply (Rmult_le_reg_r (sum (map exp l))); [done|].
    unfold Rdiv. rewrite Rmult_assoc, Rinv_l, Rmult_1_r by lra.
    transitivity (exp (-708) * exp (INR (length l) + hi)).
    + apply Rmult_le_compat_l; [left; apply exp_pos|done].
    + rewrite <- exp_plus. apply exp_mono. lra.
Qed.

Lemma posteriorProbability_spec ns :
  posterior_in_range ns ->
  length (logWeightOfPosteriorSample ns) = length (logLikelihoodOfPosteriorSample ns) ->
  logWeightOfPosteriorSample ns <> [] ->
  exists post, posteriorProbability ns = Some post /\
               length post = length (logWeightOfPosteriorSample ns) /\
               sum post = 1.
Proof.
  intros Hrange Hlen Hne. rewrite posteriorProbability_normalised by done.
  eexists. split; [done|].
  destruct (normalised_distribution
              (zip_with Rplus (logWeightOfPosteriorSample ns)
                 (logLikelihoodOfPosteriorSample ns))) as (Hl & _ & Hsum).
  rewrite length_zip_with in Hl. split; [lia|]. apply Hsum.
  destruct (logWeightOfPosteriorSample ns), (logLikelihoodOfPosteriorSample ns); done.
Qed.

Lemma row_is_Some (m : ArrayXXd) (i : nat) :
  Forall (fun c => length c = rows m) (columns m) -> (i < rows m)%nat ->
  exists r, row m i = Some r /\ length r = cols m.
Proof.
  intros Hcols Hi. unfold row.
  destruct (mapM (fun c : ArrayXd => c !! i) (columns m)) as [r|] eqn:E.
  - exists r. split; [done|]. apply length_mapM in E. by unfold cols.
  - exfalso. assert (His : is_Some (mapM (fun c : ArrayXd => c !! i) (columns m))).
    { apply mapM_is_Some. eapply Forall_impl; [exact Hcols|].
      intros c Hc. simpl in *. apply lookup_lt_is_Some_2. rewrite Hc. done. }
    rewrite E in His. by destruct His.
Qed.

Lemma estimateParameter_spec ns (post unsorted : ArrayXd) (i : nat) :
  rearranges ->
  row (posteriorSample ns) i = Some unsorted ->
  length unsorted = length post -> post <> [] -> sum post = 1 ->
  let v := fst (sortElementsDouble unsorted post) in
  let p := snd (sortElementsDouble unsorted post) in
  exists med mode,
    estimateParameter ns post i
    = Some [expectation v p; med; mode; secondMoment v p; 0; 0] /\
    is_median v p med /\ is_mode v p mode.
Proof.
  intros Hsort Hrow Hlen Hne Hsum.
  pose proof (rearranges_facts unsorted post Hsort Hlen) as (Hv & Hp & Hsum').
  cbv zeta in *. unfold estimateParameter. rewrite Hrow. simpl.
  destruct (sortElementsDouble unsorted post) as [v p]. simpl in *.
  assert (Hvp : length v = length p) by lia.
  assert (Hpos : (0 < length v)%nat).
  { destruct post; [done|]. simpl in *. lia. }
  unfold cwise. rewrite decide_True by done. simpl.
  rewrite decide_True by (by rewrite length_map). simpl.
  destruct (lookup_lt_is_Some_2 v 0%nat Hpos) as [first Hfirst]. rewrite Hfirst. simpl.
  destruct (medianLoop_spec v p 0 first Hvp) as (med & Hmed & Hcases); [lra|].
  rewrite Hmed. simpl.
  destruct (maxCoeff p) as [[q k]|] eqn:Emax; [|by destruct p; simpl in *; [lia|]].
  simpl. apply maxCoeff_spec in Emax as [Hk Hall].
  assert (Hkv : (k < length v)%nat) by (apply lookup_lt_Some in Hk; lia).
  destruct (lookup_lt_is_Some_2 v k Hkv) as [mode Hmode]. rewrite Hmode. simpl.
  exists med, mode. split; [|split].
  - unfold secondMoment, expectation. by rewrite zip_with_fmap_l.
  - destruct Hcases as [[? _]|(j & Hj & Hlo & Hhi)]; [lra|].
    exists j. rewrite Rplus_0_l in Hlo, Hhi. done.
  - by exists k, q.
Qed.


(** ** The posterior probability *)

(** X17: what posteriorProbability returns, within the range of a double
    where it returns real numbers: one value per point of the posterior
    sample, the exponential of logWeight + logLikelihood - logEvidence of the
    point divided by the sum of these exponentials; each value is in (0, 1],
    and the value of a point is at least that of another whenever its
    logWeight + logLikelihood is. *)
Theorem posteriorProbability_values_and_order ns post :
  posteriorProbability ns = Some post ->
  let logWL := zip_with Rplus (logWeightOfPosteriorSample ns)
                 (logLikelihoodOfPosteriorSample ns) in
  length post = length (logLikelihoodOfPosteriorSample ns) /\
  length post = length (logWeightOfPosteriorSample ns) /\
  post = normalised (map (fun x => x - logEvidence ns) logWL) /\
  Forall (fun q => 0 < q <= 1) post /\
  forall i j a b p q,
    logWL !! i = Some a -> logWL !! j = Some b ->
    post !! i = Some p -> post !! j = Some q ->
    a <= b -> p <= q.
Proof.
  intros Hpost logWL.
  pose proof (posteriorProbability_inv _ _ Hpost) as (l & Hlog & Hrange & ->).
  pose proof (logPosteriorDistribution_inv _ _ Hlog) as [Hlen ->]. fold logWL.
  destruct (normalised_distribution (map (fun x => x - logEvidence ns) logWL))
    as (Hl & Hall & _).
  rewrite length_map in Hl. unfold logWL in Hl at 2. rewrite length_zip_with in Hl.
  split; [lia|]. split; [lia|]. split; [done|]. split; [done|].
  intros i j a b p q Ha Hb Hp Hq Hab.
  unfold normalised in Hp, Hq. rewrite !list_lookup_fmap in Hp, Hq.
  rewrite Ha in Hp. rewrite Hb in Hq. simpl in Hp, Hq.
  injection Hp as <-. injection Hq as <-.
  set (S := sum _).
  assert (HS : 0 < S).
  { apply sum_exp_pos. intros E. apply fmap_nil_inv in E. by rewrite E in Ha. }
  apply Rmult_le_compat_r; [left; by apply Rinv_0_lt_compat|].
  apply exp_mono. lra.
Qed.

Lemma zip_with_imap_l (f : nat -> R -> R) (l : ArrayXd) :
  zip_with Rplus (imap f l) l = imap (fun i L => f i L + L) l.
Proof.
  revert f. induction l as [|x l IH]; intros f; simpl; [done|]. by rewrite IH.
Qed.

(** X18: run followed by posteriorProbability.  The log-weights that run
    stores already hold the log-likelihoods, and posteriorProbability adds the
    log-likelihoods to them: in the posterior sample of a run, at population
    N, the logPosteriorDistribution of point i, of log-likelihood L_i, is
    log(1 - e^{-1/N}) - min(i, Niterations)/N + 2 L_i - logEvidence; and,
    within the range of a double, its probability is the exponential of this
    divided by the sum of these exponentials over the sample. *)
Theorem posterior_probability_after_run fuel ifuel maxRatio Ninitial K maxNdraw s w out o st' :
  run fuel ifuel maxRatio Ninitial K maxNdraw s w out = Some (o, st') ->
  let sF := self st' in
  let twice i L := finalWeight (Nobjects s) (Z.to_nat (Niterations sF)) i L + L in
  logPosteriorDistribution sF
  = Some (imap (fun i L => twice i L - logEvidence sF) (logLikelihoodOfPosteriorSample sF)) /\
  (posterior_in_range sF ->
   posteriorProbability sF
   = Some (normalised (imap (fun i L => twice i L - logEvidence sF)
                         (logLikelihoodOfPosteriorSample sF)))).
Proof.
  intros (st0 & st1 & Hinit & Hloop & Hfin)%run_inv.
  pose proof (loop_reaches _ _ _ _ _ _ _ _ _ Hloop) as (k & st & _ & Hreach & Hbody & _).
  destruct (reaches_weights_inv _ _ _ _ _ _ _ _ _ Hreach (run_init_prefix_ok _ _ _ _ Hinit)
              (run_init_weights_inv _ _ _ _ Hinit)) as [Hp Hw].
  pose proof (finalize_weights _ _ _ _ _ _ _ _ _ _ Hbody Hp Hw Hfin) as HW.
  assert (Hlen : length (logWeightOfPosteriorSample (self st'))
                 = length (logLikelihoodOfPosteriorSample (self st')))
    by (by rewrite HW, length_imap).
  cbv zeta.
  assert (Hlog : logPosteriorDistribution (self st')
                 = Some (imap (fun i L =>
                                 finalWeight (Nobjects s)
                                   (Z.to_nat (Niterations (self st'))) i L + L
                                 - logEvidence (self st'))
                           (logLikelihoodOfPosteriorSample (self st')))).
  { rewrite logPosteriorDistribution_Some by done. f_equal.
    rewrite HW, zip_with_imap_l. apply list_eq. intros i.
    rewrite list_lookup_fmap, !list_lookup_imap.
    by destruct (logLikelihoodOfPosteriorSample (self st') !! i). }
  split; [done|].
  intros (l & Hl & Hrange). rewrite (posteriorProbability_eq _ _ Hl Hrange).
  rewrite Hlog in Hl. by injection Hl as <-.
Qed.

(** ** The median and the mode of a parameter *)

Lemma medianLoop_elem (v p : ArrayXd) (total m0 m : R) :
  medianLoop v p total m0 = Some m -> m = m0 \/ m ∈ v.
Proof.
  revert p total m0. induction v as [|x v IH]; intros p total m0; simpl.
  - case_decide; [done|]. intros [= ->]. by left.
  - case_decide; [|intros [= ->]; by left].
    destruct p as [|q p]; [done|]. intros [->|Hm]%IH; right.
    + apply elem_of_cons. by left.
    + apply elem_of_cons. by right.
Qed.

Lemma rearranges_Permutation (v p : ArrayXd) :
  rearranges -> length v = length p ->
  Permutation (fst (sortElementsDouble v p)) v /\
  Permutation (snd (sortElementsDouble v p)) p.
Proof.
  intros Hsort Hlen. destruct (Hsort v p Hlen) as [Hlen' Hperm]. split.
  - apply (fmap_Permutation fst) in Hperm. by rewrite !fst_zip in Hperm by lia.
  - apply (fmap_Permutation snd) in Hperm. by rewrite !snd_zip in Hperm by lia.
Qed.

Lemma parameterEstimation_inv ns credibleLevel est :
  parameterEstimation ns credibleLevel = Some est ->
  exists post estimates,
    posteriorProbability ns = Some post /\
    cols (posteriorSample ns) = length post /\
    mapM (estimateParameter ns post) (seq 0 (rows (posteriorSample ns))) = Some estimates /\
    est = MkArrayXXd (rows (posteriorSample ns))
            (map (fun c => map (fun e : list R => nth c e 0) estimates) (seq 0 6)).
Proof.
  unfold parameterEstimation.
  destruct (posteriorProbability ns) as [post|]; simpl; [|done].
  case_decide; [|done].
  destruct (mapM _ _) as [estimates|] eqn:E; simpl; [|done].
  intros [= <-]. by exists post, estimates.
Qed.

Lemma parameterEstimation_is_Some ns (credibleLevel : R) :
  rearranges ->
  columns (posteriorSample ns) <> [] ->
  Forall (fun c => length c = rows (posteriorSample ns)) (columns (posteriorSample ns)) ->
  length (logWeightOfPosteriorSample ns) = cols (posteriorSample ns) ->
  length (logLikelihoodOfPosteriorSample ns) = cols (posteriorSample ns) ->
  posterior_in_range ns ->
  is_Some (parameterEstimation ns credibleLevel).
Proof.
  intros Hsort Hne Hcols HlenW HlenL Hrange.
  assert (HneW : logWeightOfPosteriorSample ns <> []).
  { unfold cols in HlenW. destruct (columns (posteriorSample ns)); [done|].
    by destruct (logWeightOfPosteriorSample ns). }
  destruct (posteriorProbability_spec ns Hrange ltac:(lia) HneW)
    as (post & Hpost & Hlenpost & Hsum).
  assert (Hnepost : post <> []).
  { destruct post; [|done]. by destruct (logWeightOfPosteriorSample ns). }
  assert (His : is_Some (mapM (estimateParameter ns post)
                           (seq 0 (rows (posteriorSample ns))))).
  { apply mapM_is_Some, Forall_forall. intros i Hi%elem_of_seq. simpl.
    destruct (row_is_Some _ i Hcols ltac:(lia)) as (unsorted & Hrow & Hlen).
    destruct (estimateParameter_spec ns post unsorted i Hsort Hrow ltac:(lia) Hnepost Hsum)
      as (med & mode & -> & _). done. }
  destruct His as [estimates Hest].
  unfold parameterEstimation. rewrite Hpost. simpl.
  rewrite decide_True by lia. rewrite Hest. simpl. by eexists.
Qed.

(** X19: the median and the mode that parameterEstimation returns for a
    parameter are values of that parameter in the posterior sample. *)
Theorem median_and_mode_are_sample_values ns credibleLevel est i unsorted :
  rearranges ->
  parameterEstimation ns credibleLevel = Some est ->
  (i < rows (posteriorSample ns))%nat ->
  row (posteriorSample ns) i = Some unsorted ->
  exists med mode,
    coefficient est i 1 = Some med /\ coefficient est i 2 = Some mode /\
    med ∈ unsorted /\ mode ∈ unsorted.
Proof.
  intros Hsort (post & estimates & Hpost & Hcols & Hest & ->)%parameterEstimation_inv
         Hi Hrow.
  apply mapM_Some_1 in Hest.
  destruct (Forall2_lookup_l _ _ _ i i Hest (lookup_seq_lt 0 _ i Hi)) as (y & Hy & Hfy).
  simpl in Hfy. unfold estimateParameter in Hfy. rewrite Hrow in Hfy. simpl in Hfy.
  assert (Hlen : length unsorted = length post).
  { unfold row in Hrow. apply length_mapM in Hrow. unfold cols in Hcols. lia. }
  destruct (rearranges_Permutation unsorted post Hsort Hlen) as [Hpv _].
  destruct (sortElementsDouble unsorted post) as [v p]. simpl in Hpv.
  unfold cwise in Hfy. case_decide as Hvp; simpl in Hfy; [|done].
  rewrite decide_True in Hfy by (by rewrite length_map). simpl in Hfy.
  destruct (v !! 0%nat) as [first|] eqn:Hfirst; simpl in Hfy; [|done].
  destruct (medianLoop v p 0 first) as [med|] eqn:Hmed; simpl in Hfy; [|done].
  destruct (maxCoeff p) as [[q max]|]; simpl in Hfy; [|done].
  destruct (v !! max) as [mode|] eqn:Hmode; simpl in Hfy; [|done].
  injection Hfy as <-.
  exists med, mode.
  unfold coefficient, col. simpl. rewrite !list_lookup_fmap, Hy. simpl.
  split; [done|]. split; [done|]. split.
  - rewrite <- Hpv. apply medianLoop_elem in Hmed as [->|Hm]; [|done].
    by eapply list_elem_of_lookup_2.
  - rewrite <- Hpv. by eapply list_elem_of_lookup_2.
Qed.

(** X20: the summary of an empty posterior sample.  For a sampler that holds
    no posterior point, parameterEstimation returns the empty summary, of no
    row and six columns, when the posterior sample has no row, as in a sampler
    fresh from the constructor; with at least one row it is not defined: the
    median starts from parameterValues(0), which an empty array does not
    have. *)
Theorem parameterEstimation_of_an_empty_sample ns credibleLevel :
  rearranges ->
  columns (posteriorSample ns) = [] ->
  logWeightOfPosteriorSample ns = [] ->
  logLikelihoodOfPosteriorSample ns = [] ->
  parameterEstimation ns credibleLevel
  = if decide (rows (posteriorSample ns) = 0%nat)
    then Some (MkArrayXXd 0 (replicate 6 []))
    else None.
Proof.
  intros Hsort Hempty HW HL.
  unfold parameterEstimation, posteriorProbability, logPosteriorDistribution, cwise, cols.
  rewrite Hempty, HW, HL. simpl.
  rewrite decide_True; [simpl|].
  2:{ split; [constructor|]. split; [|constructor].
      simpl. left. apply exp_pos. }
  assert (Hnone : estimateParameter ns [] 0 = None).
  { unfold estimateParameter, row. rewrite Hempty. simpl.
    destruct (rearranges_Permutation [] [] Hsort eq_refl) as [Hv _].
    destruct (sortElementsDouble [] []) as [v p]. simpl in Hv.
    apply Permutation_nil_r in Hv. subst v.
    unfold cwise. case_decide; simpl; [|done].
    case_decide; simpl; done. }
  destruct (rows (posteriorSample ns)) as [|d]; simpl; [done|].
  by rewrite Hnone.
Qed.

End NestedSampling.

Arguments self {World}.
Arguments startTime {World}.
Arguments logMeanLiveEvidence {World}.
Arguments ratioOfRemainderToActualEvidence {World}.
Arguments logWidthInPriorMass {World}.
Arguments Nclusters {World}.
Arguments clusterIndices {World}.
Arguments clusterSizes {World}.
Arguments world {World}.
Arguments cerr {World}.
Arguments calls {World}.
Arguments Nobjects {World}.
Arguments Ndimensions {World}.
Arguments nestedSample {World}.
Arguments logLikelihood {World}.
Arguments posteriorSample {World}.
Arguments logLikelihoodOfPosteriorSample {World}.
Arguments logWeightOfPosteriorSample {World}.
Arguments logCumulatedPriorMass {World}.
Arguments logRemainingPriorMass {World}.
Arguments Niterations {World}.
Arguments informationGain {World}.
Arguments logEvidence {World}.
Arguments logEvidenceError {World}.
Arguments worstLiveLogLikelihood {World}.

(** * A small run, end to end

    One live point in two dimensions, drawn from two priors of one coordinate
    each; the likelihood of a point is its first coordinate.  The world is the
    number of constrained draws made so far: the draw succeeds, with a point
    one above the worst live log-likelihood, as long as that number is below
    [limit], and fails afterwards.  With a termination factor of 0 the
    stopping ratio, an exponential, never ends the loop, so that the run ends
    with the first failed draw. *)

Definition demo_prior (x : R) : Prior nat :=
  MkPrior nat 1 (fun _ _ w => (fun _ _ => x, w)).

Definition demo_priors : list (Prior nat) := [demo_prior 0; demo_prior 7].

Definition demo_logValue (point : ArrayXd) : R := hd 0 point.

Definition demo_cluster (sample : ArrayXXd) (cIdx cSizes : list Z) (print : bool) (w : nat)
  : Z * list Z * list Z * nat := (1%Z, cIdx, cSizes, w).

Definition demo_uniform (a b : Z) (w : nat) : Z * nat := (a, w).

Definition demo_draw (limit : nat) (this : NestedSampler nat) (sample : ArrayXXd)
           (Ncl : Z) (cIdx cSizes : list Z) (start : ArrayXd) (maxNdraw : Z) (w : nat)
  : bool * ArrayXd * R * nat :=
  if (w <? limit)%nat
  then (true, [worstLiveLogLikelihood this + 1; 7], worstLiveLogLikelihood this + 1, S w)
  else (false, start, 0, S w).

Definition demo_sampler : NestedSampler nat :=
  fst (NestedSampler_new nat (fun w => w) 0 false 1 demo_priors 0%nat).

Definition demo_init : option (RunState nat) :=
  run_init nat (fun _ => 0%Z) 0 demo_logValue demo_sampler 0%nat [].

(** Parameters of the run: 5 initial iterations without clustering, a new
    clustering every 2 iterations, at most 10 draw attempts. *)
Definition demo_body (limit : nat) : RunState nat -> option (Outcome * RunState nat) :=
  loopBody nat 0 demo_cluster demo_uniform (demo_draw limit) 1 0 5 2 10.

Definition demo_reaches (limit : nat) : nat -> RunState nat -> RunState nat -> Prop :=
  reaches nat 0 demo_cluster demo_uniform (demo_draw limit) 1 0 5 2 10.

Definition demo_run (limit fuel : nat) : option (Outcome * RunState nat) :=
  run nat (fun _ => 0%Z) 0 demo_logValue demo_cluster demo_uniform (demo_draw limit)
    fuel 1 0 5 2 10 demo_sampler 0%nat [].

Definition demo_dummy : RunState nat :=
  MkRunState nat demo_sampler 0 0 0 0 0 [] [] 0%nat [] [].

(** The state before the first iteration. *)
Definition demo_st0 : RunState nat :=
  Eval cbv -[Rplus Rminus Rmult Rdiv Rinv Ropp exp ln IZR lowest logExpSum sqrt Rabs
             Rlt_dec Rlt_decision bool_decide]
  in default demo_dummy demo_init.

(** The state after a first iteration whose draw fails. *)
Definition demo_failed0 : RunState nat :=
  Eval cbv -[Rplus Rminus Rmult Rdiv Rinv Ropp exp ln IZR lowest logExpSum sqrt Rabs
             Rlt_dec Rlt_decision bool_decide]
  in match demo_body 0 demo_st0 with Some (_, st) => st | None => demo_dummy end.

(** The state after a first iteration whose draw succeeds. *)
Definition demo_st1 : RunState nat :=
  Eval cbv -[Rplus Rminus Rmult Rdiv Rinv Ropp exp ln IZR lowest logExpSum sqrt Rabs
             Rlt_dec Rlt_decision bool_decide]
  in match demo_body 1 demo_st0 with Some (_, st) => st | None => demo_dummy end.

(** The state after a second iteration, whose draw fails. *)
Definition demo_failed1 : RunState nat :=
  Eval cbv -[Rplus Rminus Rmult Rdiv Rinv Ropp exp ln IZR lowest logExpSum sqrt Rabs
             Rlt_dec Rlt_decision bool_decide]
  in match demo_body 1 demo_st1 with Some (_, st) => st | None => demo_dummy end.

(** The same with the live sample appended to the posterior arrays. *)
Definition demo_appended : RunState nat :=
  Eval cbv -[Rplus Rminus Rmult Rdiv Rinv Ropp exp ln IZR lowest logExpSum sqrt Rabs
             Rlt_dec Rlt_decision bool_decide]
  in default demo_dummy (appendLiveSample nat 0 demo_failed1).

(** The state run returns when the second draw fails; the clock of the demo
    stands still. *)
Definition demo_final : RunState nat :=
  Eval cbv -[Rplus Rminus Rmult Rdiv Rinv Ropp exp ln IZR lowest logExpSum sqrt Rabs
             Rlt_dec Rlt_decision bool_decide]
  in reportTime nat (0 - 0) "seconds" demo_appended.

(** The state run returns when the termination factor is 2: the first
    iteration meets the stopping criterion. *)
Definition demo_converged : RunState nat :=
  Eval cbv -[Rplus Rminus Rmult Rdiv Rinv Ropp exp ln IZR lowest logExpSum sqrt Rabs
             Rlt_dec Rlt_decision bool_decide]
  in reportTime nat (0 - 0) "seconds"
       (default demo_dummy (appendLiveSample nat 0 demo_st1)).





(** A sort for the summary: insertion sort on the pairs of a value and its
    probability, by increasing value. *)
Fixpoint insertPair (x q : R) (l : list (R * R)) : list (R * R) :=
  match l with
  | [] => [(x, q)]
  | (y, r) :: l' =>
      if decide (y < x) then (y, r) :: insertPair x q l' else (x, q) :: (y, r) :: l'
  end.

Definition sortPairs (l : list (R * R)) : list (R * R) :=
  foldr (fun xq acc => insertPair (fst xq) (snd xq) acc) [] l.

Definition demo_sortElementsDouble (v p : ArrayXd) : ArrayXd * ArrayXd :=
  (map fst (sortPairs (zip v p)), map snd (sortPairs (zip v p))).

(** A sampler of two live points, a generator that counts, and a derived
    sampler that always finds a point of the dimension of the sampler. *)
Definition demo_sampler2 : NestedSampler nat :=
  fst (NestedSampler_new nat (fun w => w) 0 false 2 demo_priors 0%nat).

Definition demo_counter (a b : Z) (w : nat) : Z * nat :=
  ((a + Z.of_nat w mod (b - a + 1))%Z, S w).

Definition demo_draw_constant (this : NestedSampler nat) (sample : ArrayXXd)
           (Ncl : Z) (cIdx cSizes : list Z) (start : ArrayXd) (maxNdraw : Z) (w : nat)
  : bool * ArrayXd * R * nat :=
  (true, replicate (Z.to_nat (Ndimensions this)) 1, 1, S w).

Definition demo2_st0 : RunState nat :=
  Eval cbv -[Rplus Rminus Rmult Rdiv Rinv Ropp exp ln IZR lowest logExpSum sqrt Rabs
             Rlt_dec Rlt_decision bool_decide]
  in default demo_dummy (run_init nat (fun _ => 0%Z) 0 demo_logValue demo_sampler2 0%nat []).

(** A sampler that holds a posterior sample of two points of one parameter,
    and its posterior probabilities. *)
Definition demo_results : NestedSampler nat :=
  with_logEvidence nat 0
    (with_posterior nat (MkArrayXXd 1 [[1]; [2]]) [0; 0] [0; 0] demo_sampler).

Definition demo_post : ArrayXd := normalised [0 + 0 - 0; 0 + 0 - 0].

Lemma demo_init_eq : demo_init = Some demo_st0.
Proof. reflexivity. Qed.

Lemma demo_fail_first : demo_body 0 demo_st0 = Some (DrawFailed, demo_failed0).
Proof. reflexivity. Qed.

Lemma demo_step_first : demo_body 1 demo_st0 = Some (Continue, demo_st1).
Proof.
  assert (H : demo_body 1 demo_st0
              = Some (if bool_decide (0 < ratioOfRemainderToActualEvidence demo_st1)
                      then Continue else Converged, demo_st1)) by reflexivity.
  rewrite H, bool_decide_eq_true_2; [done|]. apply exp_pos.
Qed.

Lemma demo_fail_second : demo_body 1 demo_st1 = Some (DrawFailed, demo_failed1).
Proof. reflexivity. Qed.

Lemma demo_reaches_st1 : demo_reaches 1 1 demo_st0 demo_st1.
Proof. eapply reaches_S; [exact demo_step_first|apply reaches_O]. Qed.

Lemma demo_finalize : finalize nat (fun _ => 0%Z) 0 demo_failed1 = Some demo_final.
Proof.
  unfold finalize.
  assert (H : appendLiveSample nat 0 demo_failed1 = Some demo_appended) by reflexivity.
  rewrite H. simpl. unfold printComputationalTime.
  rewrite decide_True by (simpl; lra). reflexivity.
Qed.

Lemma demo_run_eq : demo_run 1 2 = Some (DrawFailed, demo_final).
Proof.
  eapply run_intro; [exact demo_init_eq| |exact demo_finalize].
  eapply reaches_loop; [exact demo_reaches_st1|exact demo_fail_second|done|lia].
Qed.

Lemma exp_minus_one_below_half : exp (- 1 / 1) < / 2.
Proof.
  replace (- 1 / 1) with (Ropp 1) by (unfold Rdiv; rewrite Rinv_1; lra).
  rewrite exp_Ropp. apply Rinv_lt_contravar.
  - pose proof (exp_pos 1). lra.
  - pose proof (exp_ineq1 1 ltac:(lra)). lra.
Qed.

(** ** The array primitives on small inputs *)

Ltac decide_reals :=
  repeat first [ rewrite decide_True by lra | rewrite decide_False by lra ]; simpl.

(** The index is that of the first occurrence of the minimum. *)
Example minCoeff_first_occurrence : minCoeff [3; 1; 2; 1] = Some (1, 1%nat).
Proof. simpl. decide_reals. decide_reals. decide_reals. reflexivity. Qed.

Example maxCoeff_first_occurrence : maxCoeff [1; 4; 2; 4] = Some (4, 1%nat).
Proof. simpl. decide_reals. decide_reals. decide_reals. reflexivity. Qed.

(** The median is the first value at which the cumulated probability reaches
    one half. *)
Example medianLoop_example : medianLoop [1; 2; 3] [/ 5; / 2; 3 / 10] 0 1 = Some 2.
Proof. simpl. decide_reals. decide_reals. decide_reals. reflexivity. Qed.

Example int_rem_example : int_rem 7 2 = Some 1%Z /\ int_rem 7 0 = None.
Proof. split; reflexivity. Qed.

Example conservativeResize_grows : conservativeResize 9 3 [1; 2] = [1; 2; 9].
Proof. reflexivity. Qed.

Example conservativeResize_shrinks : conservativeResize 9 1 [1; 2] = [1].
Proof. reflexivity. Qed.

(** ** The claims on the small run

    Each theorem above is applied to the small run: its hypotheses hold there,
    so its conclusion does.  Two statements of the specification that the
    code does not follow are refuted on the same run. *)

Lemma evidence_update_law_witness :
  demo_body 1 demo_st0 = Some (Continue, demo_st1) /\
  exists Lw iworst,
    minCoeff (logLikelihood (self demo_st0)) = Some (Lw, iworst) /\
    (forall x, x ∈ logLikelihood (self demo_st0) -> Lw <= x) /\
    let w := logWidthInPriorMass demo_st0 in
    let logE := logEvidence (self demo_st0) in
    let H := informationGain (self demo_st0) in
    let logE' := logEvidence (self demo_st1) in
    logE' = logExpSum logE (w + Lw) /\
    informationGain (self demo_st1) =
      exp ((w + Lw) - logE') * Lw + exp (logE - logE') * (H + logE) - logE'.
Proof.
  split; [exact demo_step_first|].
  eapply evidence_update_law. exact demo_step_first.
Defined.


(** With a termination factor of 2 the run of the demo ends normally after one
    iteration: the stopping ratio is 1 / (e^{lowest} + 1 - e^{-1}), below 2. *)
Lemma demo_run_converges :
  run nat (fun _ => 0%Z) 0 demo_logValue demo_cluster demo_uniform (demo_draw 1)
    1 1 2 5 2 10 demo_sampler 0%nat []
  = Some (Converged, demo_converged).
Proof.
  assert (Hstep : loopBody nat 0 demo_cluster demo_uniform (demo_draw 1) 1 2 5 2 10 demo_st0
                  = Some (Converged, demo_st1)).
  { assert (H : loopBody nat 0 demo_cluster demo_uniform (demo_draw 1) 1 2 5 2 10 demo_st0
                = Some (if bool_decide (2 < ratioOfRemainderToActualEvidence demo_st1)
                        then Continue else Converged, demo_st1)) by reflexivity.
    rewrite H, bool_decide_eq_false_2; [done|]. simpl.
    pose proof exp_minus_one_below_half as Hhalf. pose proof (exp_pos lowest) as Hlow.
    unfold Rminus at 1. rewrite exp_plus, exp_Ropp, exp_logExpSum.
    rewrite ln_1, Rmult_0_l, Rplus_0_r, Rminus_0_r, Rplus_0_r, exp_0, exp_ln by lra.
    rewrite Rmult_1_l.
    assert (/ (exp lowest + (1 - exp (- 1 / 1))) < / / 2).
    { apply Rinv_lt_contravar; [|lra].
      apply Rmult_lt_0_compat; [apply Rinv_0_lt_compat|]; lra. }
    rewrite Rinv_inv in *. lra. }
  eapply run_intro; [exact demo_init_eq| |].
  { eapply reaches_loop; [apply reaches_O|exact Hstep|done|lia]. }
  unfold finalize.
  assert (H : appendLiveSample nat 0 demo_st1
              = Some (default demo_dummy (appendLiveSample nat 0 demo_st1))) by reflexivity.
  rewrite H. simpl. unfold printComputationalTime.
  rewrite decide_True by (simpl; lra). reflexivity.
Qed.

Lemma finalization_law_witness :
  run nat (fun _ => 0%Z) 0 demo_logValue demo_cluster demo_uniform (demo_draw 1)
    1 1 2 5 2 10 demo_sampler 0%nat []
  = Some (Converged, demo_converged) /\
  exists st0 st,
    demo_init = Some st0 /\
    nestedLoop nat 0 demo_cluster demo_uniform (demo_draw 1) 1 1 2 5 2 10 st0
    = Some (Converged, st) /\
    (Converged = Converged \/ Converged = DrawFailed) /\
    let sL := self st in
    let sF := self demo_converged in
    cols (nestedSample sL) = Z.to_nat (Nobjects sL) /\
    length (logLikelihood sL) = Z.to_nat (Nobjects sL) /\
    columns (posteriorSample sF) = columns (posteriorSample sL) ++ columns (nestedSample sL) /\
    logLikelihoodOfPosteriorSample sF = logLikelihoodOfPosteriorSample sL ++ logLikelihood sL /\
    logWeightOfPosteriorSample sF =
      logWeightOfPosteriorSample sL
      ++ map (fun l => logWidthInPriorMass st + l) (logLikelihood sL) /\
    logEvidenceError sF = sqrt (Rabs (informationGain sL) / IZR (Nobjects sL)) /\
    logEvidence sF = logExpSum (logMeanLiveEvidence st) (logEvidence sL).
Proof.
  split; [exact demo_run_converges|].
  eapply finalization_law. exact demo_run_converges.
Defined.

Lemma draw_failure_is_graceful_witness :
  demo_init = Some demo_st0 /\
  demo_reaches 1 1 demo_st0 demo_st1 /\
  demo_body 1 demo_st1 = Some (DrawFailed, demo_failed1) /\
  nestedSample (self demo_failed1) = nestedSample (self demo_st1) /\
  logLikelihood (self demo_failed1) = logLikelihood (self demo_st1) /\
  (exists progress,
     cerr demo_failed1 = cerr demo_st1 ++ progress
                ++ [Text "Can't find point with a better Likelihood";
                    Text "Stopping the nested sampling loop prematurely."] /\
     progress =
       (if printOnTheScreen nat (self demo_st1) then
          if decide (Z.rem (Niterations (self demo_st1)) 50 = 0%Z) then
            [Progress (Niterations (self demo_failed1)) (Nclusters demo_failed1)
               (Nobjects (self demo_failed1))
               (exp (logCumulatedPriorMass (self demo_failed1)))
               (ratioOfRemainderToActualEvidence demo_failed1)
               (logEvidence (self demo_failed1)) (informationGain (self demo_failed1))]
          else []
        else [])) /\
  (exists Lw iworst worstPoint,
     let n := Z.to_nat (Niterations (self demo_st1)) in
     minCoeff (logLikelihood (self demo_st1)) = Some (Lw, iworst) /\
     col (nestedSample (self demo_st1)) iworst = Some worstPoint /\
     columns (posteriorSample (self demo_failed1))
     = take n (columns (posteriorSample (self demo_st1))) ++ [worstPoint] /\
     logLikelihoodOfPosteriorSample (self demo_failed1)
     = take n (logLikelihoodOfPosteriorSample (self demo_st1)) ++ [Lw] /\
     logWeightOfPosteriorSample (self demo_failed1)
     = take n (logWeightOfPosteriorSample (self demo_st1))
       ++ [logWidthInPriorMass demo_st1 + Lw]) /\
  exists st',
    (forall fuel, (1 < fuel)%nat -> demo_run 1 fuel = Some (DrawFailed, st')) /\
    columns (posteriorSample (self st')) =
      columns (posteriorSample (self demo_failed1)) ++ columns (nestedSample (self demo_st1)) /\
    logLikelihoodOfPosteriorSample (self st') =
      logLikelihoodOfPosteriorSample (self demo_failed1) ++ logLikelihood (self demo_st1) /\
    logWeightOfPosteriorSample (self st') =
      logWeightOfPosteriorSample (self demo_failed1)
      ++ map (fun l => logWidthInPriorMass demo_st1 + l) (logLikelihood (self demo_st1)) /\
    logEvidenceError (self st') =
      sqrt (Rabs (informationGain (self demo_failed1)) / IZR (Nobjects (self demo_failed1))) /\
    logEvidence (self st') =
      logExpSum (logMeanLiveEvidence demo_failed1) (logEvidence (self demo_failed1)) /\
    exists lines, cerr st' = cerr demo_failed1 ++ lines.
Proof.
  split; [exact demo_init_eq|]. split; [exact demo_reaches_st1|].
  split; [exact demo_fail_second|].
  exact (draw_failure_is_graceful nat (fun _ => 0%Z) 0 demo_logValue demo_cluster
           demo_uniform (demo_draw 1) 1 0 5 2 10 demo_sampler 0%nat [] demo_st0 1
           demo_st1 demo_failed1 demo_init_eq demo_reaches_st1 demo_fail_second).
Defined.

Lemma demo_draw_respects_constraint limit :
  draw_respects_constraint nat (demo_draw limit).
Proof.
  intros this sample Ncl cIdx cSizes p m w q l w'. unfold demo_draw.
  destruct (w <? limit)%nat; [|done]. intros [= _ <- _]. lra.
Qed.

Lemma posterior_record_nondecreasing_witness :
  draw_respects_constraint nat (demo_draw 1) /\
  demo_init = Some demo_st0 /\
  demo_reaches 1 1 demo_st0 demo_st1 /\
  demo_body 1 demo_st1 = Some (DrawFailed, demo_failed1) /\
  let record := logLikelihoodOfPosteriorSample (self demo_failed1) in
  length record = 2%nat /\
  nondecreasing record /\
  (exists Lw iworst,
     minCoeff (logLikelihood (self demo_st1)) = Some (Lw, iworst) /\ last record = Some Lw) /\
  (forall x y, x ∈ record -> y ∈ logLikelihood (self demo_failed1) -> x <= y) /\
  (forall st'', finalize nat (fun _ => 0%Z) 0 demo_failed1 = Some st'' ->
     logLikelihoodOfPosteriorSample (self st'')
     = record ++ logLikelihood (self demo_failed1)).
Proof.
  split; [apply demo_draw_respects_constraint|]. split; [exact demo_init_eq|].
  split; [exact demo_reaches_st1|]. split; [exact demo_fail_second|].
  exact (posterior_record_nondecreasing nat (fun _ => 0%Z) 0 demo_logValue demo_cluster
           demo_uniform (demo_draw 1) 1 0 5 2 10 demo_sampler 0%nat [] demo_st0 1
           demo_st1 DrawFailed demo_failed1 (demo_draw_respects_constraint 1)
           demo_init_eq demo_reaches_st1 demo_fail_second).
Defined.

Lemma prior_mass_update_law_witness :
  demo_init = Some demo_st0 /\
  demo_reaches 1 0 demo_st0 demo_st0 /\
  demo_body 1 demo_st0 = Some (Continue, demo_st1) /\
  logWidthInPriorMass demo_st0 = ln (1 - exp (- 1 / IZR (Nobjects demo_sampler))) /\
  (Continue <> DrawFailed ->
   logWidthInPriorMass demo_st1
   = logWidthInPriorMass demo_st0 - 1 / IZR (Nobjects (self demo_st0)) /\
   logCumulatedPriorMass (self demo_st1) =
     logExpSum (logCumulatedPriorMass (self demo_st0)) (logWidthInPriorMass demo_st1) /\
   logRemainingPriorMass (self demo_st1)
   = log (1 - exp (logCumulatedPriorMass (self demo_st1))) /\
   (exp (logCumulatedPriorMass (self demo_st1)) < 1 ->
    exists r, logRemainingPriorMass (self demo_st1) = Some r /\
              Rabs (exp (logCumulatedPriorMass (self demo_st1)) + exp r - 1)
              <= / 10000000000) /\
   (1 <= exp (logCumulatedPriorMass (self demo_st1)) ->
    logRemainingPriorMass (self demo_st1) = None)) /\
  (Continue = DrawFailed ->
   logWidthInPriorMass demo_st1 = logWidthInPriorMass demo_st0 /\
   logCumulatedPriorMass (self demo_st1) = logCumulatedPriorMass (self demo_st0) /\
   logRemainingPriorMass (self demo_st1) = logRemainingPriorMass (self demo_st0)).
Proof.
  split; [exact demo_init_eq|].
  split; [apply reaches_O|]. split; [exact demo_step_first|].
  exact (prior_mass_update_law nat (fun _ => 0%Z) 0 demo_logValue demo_cluster
           demo_uniform (demo_draw 1) 1 0 5 2 10 demo_sampler 0%nat [] demo_st0 0
           demo_st0 Continue demo_st1 demo_init_eq
           (reaches_O _ _ _ _ _ _ _ _ _ _ _) demo_step_first).
Defined.

(** C6 as the specification states it fails on an iteration whose draw fails:
    when the very first draw fails, the width is not decreased,
    logRemainingPriorMass is still the 0 of the constructor and not
    log(1 - e^{logCumulatedPriorMass}), and
    e^{logCumulatedPriorMass} + e^{logRemainingPriorMass} is more than 1.5. *)
Lemma prior_mass_identity_fails_after_failed_draw :
  demo_init = Some demo_st0 /\
  demo_body 0 demo_st0 = Some (DrawFailed, demo_failed0) /\
  logWidthInPriorMass demo_failed0
  <> logWidthInPriorMass demo_st0 - 1 / IZR (Nobjects (self demo_st0)) /\
  logRemainingPriorMass (self demo_failed0) = Some 0 /\
  logRemainingPriorMass (self demo_failed0)
  <> log (1 - exp (logCumulatedPriorMass (self demo_failed0))) /\
  / 10000000000
  < Rabs (exp (logCumulatedPriorMass (self demo_failed0)) + exp 0 - 1).
Proof.
  split; [exact demo_init_eq|]. split; [exact demo_fail_first|].
  pose proof exp_minus_one_below_half as Hhalf.
  pose proof (exp_pos lowest) as Hlow.
  assert (Hcum : exp (logCumulatedPriorMass (self demo_failed0))
                 = exp lowest + (1 - exp (- 1 / 1))).
  { simpl. rewrite exp_logExpSum, exp_ln; lra. }
  split; [|split; [reflexivity|split]].
  - simpl. unfold Rdiv. rewrite Rinv_1. lra.
  - change (logRemainingPriorMass (self demo_failed0)) with (Some 0).
    rewrite Hcum. unfold log. case_decide as Hpos; [|done]. intros [= Heq].
    assert (Hexp : exp 0 = exp (ln (1 - (exp lowest + (1 - exp (- 1 / 1))))))
      by (by rewrite <- Heq).
    rewrite exp_0, exp_ln in Hexp by done. lra.
  - rewrite Hcum, exp_0, Rabs_right; lra.
Qed.

Lemma demo_priors_nonnegative :
  Forall (fun p => (0 <= getNdimensions nat p)%Z) demo_priors.
Proof. repeat constructor; simpl; lia. Qed.

Lemma state_before_first_iteration_witness :
  Forall (fun p => (0 <= getNdimensions nat p)%Z) demo_priors /\
  run_init nat (fun _ => 0%Z) 0 demo_logValue
    (fst (NestedSampler_new nat (fun w => w) 0 false 1 demo_priors 0%nat)) 0%nat []
  = Some demo_st0 /\
  let s0 := self demo_st0 in
  let blocks := fst (priorDraws nat demo_priors (Z.to_nat 1) 0%nat) in
  columns (nestedSample s0) = map (composedPoint blocks) (seq 0 (Z.to_nat 1)) /\
  logLikelihood s0 = map demo_logValue (columns (nestedSample s0)) /\
  logWidthInPriorMass demo_st0 = ln (1 - exp (- 1 / IZR 1)) /\
  logEvidence s0 = lowest /\
  informationGain s0 = 0 /\
  logCumulatedPriorMass s0 = logExpSum lowest (logWidthInPriorMass demo_st0) /\
  Niterations s0 = 0%Z /\
  Nclusters demo_st0 = 0%Z /\
  clusterIndices demo_st0 = replicate (Z.to_nat 1) 0%Z /\
  clusterSizes demo_st0 = [] /\
  columns (posteriorSample s0) = [].
Proof.
  split; [exact demo_priors_nonnegative|]. split; [exact demo_init_eq|].
  exact (state_before_first_iteration nat (fun _ => 0%Z) (fun w => w) 0 demo_logValue
           false 1 demo_priors 0%nat 0%nat [] demo_st0 demo_priors_nonnegative
           demo_init_eq).
Defined.

(** C7 as the specification states it fails on the two accumulators that the
    code sets otherwise: before the first iteration Nclusters is 0, not 1,
    and logCumulatedPriorMass is no longer the sentinel. *)
Lemma state_before_first_iteration_differs :
  run_init nat (fun _ => 0%Z) 0 demo_logValue
    (fst (NestedSampler_new nat (fun w => w) 0 false 1 demo_priors 0%nat)) 0%nat []
  = Some demo_st0 /\
  Nclusters demo_st0 <> 1%Z /\
  logCumulatedPriorMass (self demo_st0) <> lowest.
Proof.
  split; [exact demo_init_eq|]. split; [done|].
  simpl. intros Heq.
  assert (Hexp : exp (logExpSum lowest (ln (1 - exp (- 1 / 1)))) = exp lowest)
    by (by rewrite Heq).
  pose proof exp_minus_one_below_half.
  rewrite exp_logExpSum, exp_ln in Hexp; lra.
Qed.

Lemma clustering_cadence_witness :
  demo_init = Some demo_st0 /\
  demo_reaches 1 1 demo_st0 demo_st1 /\
  demo_body 1 demo_st1 = Some (DrawFailed, demo_failed1) /\
  let n := Niterations (self demo_st1) in
  let N := Nobjects (self demo_st1) in
  (forall m, CallCluster m ∈ calls demo_failed1 -> Z.rem m 2 = 0%Z /\ (5 <= m)%Z) /\
  (Z.rem n 2 = 0%Z -> (n < 5)%Z ->
   Nclusters demo_failed1 = 1%Z /\
   clusterIndices demo_failed1 = replicate (Z.to_nat N) 0%Z /\
   clusterSizes demo_failed1 = [N] /\
   calls demo_failed1 = calls demo_st1 ++ [CallDraw n]) /\
  (Z.rem n 2 <> 0%Z ->
   Nclusters demo_failed1 = Nclusters demo_st1 /\
   clusterIndices demo_failed1 = clusterIndices demo_st1 /\
   clusterSizes demo_failed1 = clusterSizes demo_st1 /\
   calls demo_failed1 = calls demo_st1 ++ [CallDraw n]) /\
  (Z.rem n 2 = 0%Z -> (5 <= n)%Z ->
   calls demo_failed1 = calls demo_st1 ++ [CallCluster n; CallDraw n] /\
   exists w', demo_cluster (nestedSample (self demo_st1)) (clusterIndices demo_st1)
                (clusterSizes demo_st1) (printOnTheScreen nat (self demo_st1))
                (world demo_st1)
              = (Nclusters demo_failed1, clusterIndices demo_failed1,
                 clusterSizes demo_failed1, w')).
Proof.
  split; [exact demo_init_eq|]. split; [exact demo_reaches_st1|].
  split; [exact demo_fail_second|].
  exact (clustering_cadence nat (fun _ => 0%Z) 0 demo_logValue demo_cluster
           demo_uniform (demo_draw 1) 1 0 5 2 10 demo_sampler 0%nat [] demo_st0 1
           demo_st1 DrawFailed demo_failed1 demo_init_eq demo_reaches_st1
           demo_fail_second).
Defined.

Lemma failed_draw_duplicates_worst_witness :
  demo_run 1 2 = Some (DrawFailed, demo_final) /\
  exists (iworst : nat) (Lw : R) (p : ArrayXd),
    let sF := self demo_final in
    let t := Z.to_nat (Niterations sF) in
    minCoeff (logLikelihood sF) = Some (Lw, iworst) /\
    col (nestedSample sF) iworst = Some p /\
    t <> (t + 1 + iworst)%nat /\
    col (posteriorSample sF) t = Some p /\
    col (posteriorSample sF) (t + 1 + iworst) = Some p /\
    logLikelihoodOfPosteriorSample sF !! t = Some Lw /\
    logLikelihoodOfPosteriorSample sF !! (t + 1 + iworst)%nat = Some Lw.
Proof.
  split; [exact demo_run_eq|].
  eapply failed_draw_duplicates_worst. exact demo_run_eq.
Defined.

Lemma insertPair_Permutation x q l : Permutation (insertPair x q l) ((x, q) :: l).
Proof.
  induction l as [|[y r] l IH]; simpl; [done|]. case_decide; [|done].
  rewrite IH. apply perm_swap.
Qed.

Lemma sortPairs_Permutation l : Permutation (sortPairs l) l.
Proof.
  induction l as [|[x q] l IH]; simpl; [done|].
  rewrite insertPair_Permutation. by constructor.
Qed.

Lemma demo_sort_rearranges : rearranges demo_sortElementsDouble.
Proof.
  intros v p Hlen. unfold demo_sortElementsDouble. simpl. split.
  - by rewrite !length_map.
  - rewrite zip_fst_snd. apply sortPairs_Permutation.
Qed.

Lemma lowest_negative : lowest < 0.
Proof.
  unfold lowest.
  assert (H1 : 0 < 2 ^ 1023) by (apply pow_lt; lra).
  assert (H2 : / 2 ^ 52 < 1).
  { rewrite <- Rinv_1. apply Rinv_lt_contravar.
    - rewrite Rmult_1_l. apply pow_lt. lra.
    - apply Rlt_pow_R1; [lra|lia]. }
  nra.
Qed.

Lemma logExpSum_ge_l (x y : R) : x <= logExpSum x y.
Proof.
  apply exp_mono_inv. rewrite exp_logExpSum. pose proof (exp_pos y). lra.
Qed.

Lemma exp_le_1 (x : R) : x <= 0 -> exp x <= 1.
Proof. intros Hx. rewrite <- exp_0. by apply exp_mono. Qed.

Lemma demo_evidence_bounds :
  -1 <= ln (1 - exp (-1 / 1)) <= 0 /\
  0 <= logEvidence (self demo_final) <= 5.
Proof.
  pose proof exp_minus_one_below_half as Hhalf.
  pose proof (exp_pos (-1 / 1)) as Hpos.
  assert (Ha : -1 <= ln (1 - exp (-1 / 1)) <= 0).
  { split.
    - transitivity (-1 / 1); [lra|]. apply exp_mono_inv. rewrite exp_ln; lra.
    - apply exp_mono_inv. rewrite exp_ln, exp_0; lra. }
  split; [done|]. simpl.
  set (a := ln (1 - exp (-1 / 1))) in *.
  assert (H2 : 0 <= ln 2 <= 1).
  { split.
    - rewrite <- ln_1. left. apply ln_increasing; lra.
    - apply exp_mono_inv. rewrite exp_ln by lra. pose proof (exp_ineq1_le 1). lra. }
  rewrite ln_1. split.
  - etransitivity; [|apply logExpSum_ge_l]. lra.
  - apply exp_mono_inv. rewrite !exp_logExpSum.
    assert (exp (0 + 1 - 0 + 1 * (0 - ln 2)) <= 3).
    { etransitivity; [apply (exp_mono _ 1); lra|apply exp_le_3]. }
    assert (exp lowest <= 1) by (apply exp_le_1; pose proof lowest_negative; lra).
    assert (exp (a + 0) <= 1) by (apply exp_le_1; lra).
    assert (exp (a - 1 / 1 + (0 + 1)) <= 1) by (apply exp_le_1; lra).
    pose proof (exp_ineq1_le 5). lra.
Qed.

Lemma demo_final_in_range : posterior_in_range nat (self demo_final).
Proof.
  destruct demo_evidence_bounds as [Ha HE].
  eapply (posterior_in_range_intro nat _ _ (-6) 1).
  - unfold logPosteriorDistribution, cwise. simpl. reflexivity.
  - simpl in HE. do 3 (constructor; [lra|]). constructor.
  - lra.
  - simpl. lra.
  - simpl. lra.
Qed.





(** ** Instances of the further properties *)


Lemma live_sample_keeps_shape_witness :
  demo_init = Some demo_st0 /\
  demo_reaches 1 1 demo_st0 demo_st1 /\
  demo_body 1 demo_st1 = Some (DrawFailed, demo_failed1) /\
  live_shape nat demo_st1 /\ live_shape nat demo_failed1 /\
  Nobjects (self demo_failed1) = Nobjects demo_sampler /\
  Ndimensions (self demo_failed1) = Ndimensions demo_sampler.
Proof.
  split; [exact demo_init_eq|]. split; [exact demo_reaches_st1|].
  split; [exact demo_fail_second|].
  exact (live_sample_keeps_shape nat (fun _ => 0%Z) 0 demo_logValue demo_cluster demo_uniform (demo_draw 1) 1 0 5 2 10 demo_sampler 0%nat [] demo_st0 1 demo_st1 DrawFailed
           demo_failed1 demo_init_eq demo_reaches_st1 demo_fail_second).
Defined.

Lemma demo_draw_returns_likelihood limit :
  draw_returns_likelihood nat demo_logValue (demo_draw limit).
Proof.
  intros this sample Ncl cIdx cSizes p m w q l w'. unfold demo_draw.
  destruct (w <? limit)%nat; [|done]. by intros [= <- <- _].
Qed.

Lemma likelihoods_are_those_of_the_live_points_witness :
  draw_returns_likelihood nat demo_logValue (demo_draw 1) /\
  demo_init = Some demo_st0 /\
  demo_reaches 1 0 demo_st0 demo_st0 /\
  demo_body 1 demo_st0 = Some (Continue, demo_st1) /\
  likelihoods_match nat demo_logValue demo_st0 /\
  likelihoods_match nat demo_logValue demo_st1 /\
  (forall st'', finalize nat (fun _ => 0%Z) 0 demo_st1 = Some st'' -> likelihoods_match nat demo_logValue st'').
Proof.
  split; [apply demo_draw_returns_likelihood|]. split; [exact demo_init_eq|].
  split; [apply reaches_O|]. split; [exact demo_step_first|].
  exact (likelihoods_are_those_of_the_live_points nat (fun _ => 0%Z) 0 demo_logValue demo_cluster demo_uniform (demo_draw 1) 1 0 5 2 10 demo_sampler 0%nat [] demo_st0 0
           demo_st0 Continue demo_st1 (demo_draw_returns_likelihood 1) demo_init_eq
           (reaches_O _ _ _ _ _ _ _ _ _ _ _) demo_step_first).
Defined.

Lemma run_undefined_inputs_witness :
  ((Nobjects demo_sampler <= 0)%Z \/ 0%Z = 0%Z) /\
  run nat (fun _ => 0%Z) 0 demo_logValue demo_cluster demo_uniform (demo_draw 1)
    2 1 0 5 0 10 demo_sampler 0%nat [] = None.
Proof.
  split; [by right|].
  exact (run_undefined_inputs nat (fun _ => 0%Z) 0 demo_logValue demo_cluster demo_uniform
           (demo_draw 1) 1 0 5 0 10 2 demo_sampler 0%nat [] (or_intror eq_refl)).
Defined.

Lemma demo_uniform_in_range : uniform_in_range nat demo_uniform.
Proof. intros a b w Hab. simpl. lia. Qed.

Lemma starting_point_is_a_live_point_other_than_the_worst_witness :
  uniform_in_range nat demo_uniform /\
  chooseStartingPoint nat demo_uniform 1 demo_sampler2 1 0%nat = Some (0%Z, 0%nat) /\
  ((1 < Nobjects demo_sampler2)%Z ->
   0%Z <> Z.of_nat 1 /\ (0 <= 0 < Nobjects demo_sampler2)%Z) /\
  ((Nobjects demo_sampler2 <= 1)%Z -> 0%Z = 0%Z /\ 0%nat = 0%nat).
Proof.
  split; [exact demo_uniform_in_range|]. split; [reflexivity|].
  exact (starting_point_is_a_live_point_other_than_the_worst nat demo_uniform 1
           demo_sampler2 1 0%nat 0%Z 0%nat demo_uniform_in_range eq_refl).
Defined.

Lemma posterior_sample_size_witness :
  demo_run 1 2 = Some (DrawFailed, demo_final) /\
  let sF := self demo_final in
  let total := (Z.to_nat (Niterations sF)
                + (if decide (DrawFailed = DrawFailed) then 1 else 0)
                + Z.to_nat (Nobjects sF))%nat in
  (0 <= Niterations sF <= Z.of_nat 2)%Z /\
  cols (posteriorSample sF) = total /\
  length (logLikelihoodOfPosteriorSample sF) = total /\
  length (logWeightOfPosteriorSample sF) = total /\
  Forall (fun c => length c = Z.to_nat (Ndimensions sF)) (columns (posteriorSample sF)).
Proof.
  split; [exact demo_run_eq|].
  exact (posterior_sample_size nat (fun _ => 0%Z) 0 demo_logValue demo_cluster demo_uniform (demo_draw 1) 1 0 5 2 10 2 demo_sampler 0%nat [] DrawFailed demo_final demo_run_eq).
Defined.

Lemma record_weights_witness :
  demo_init = Some demo_st0 /\
  demo_reaches 1 1 demo_st0 demo_st1 /\
  demo_body 1 demo_st1 = Some (DrawFailed, demo_failed1) /\
  (forall i L,
     logLikelihoodOfPosteriorSample (self demo_failed1) !! i = Some L ->
     logWeightOfPosteriorSample (self demo_failed1) !! i
     = Some (ln (1 - exp (- 1 / IZR (Nobjects demo_sampler)))
             - INR i / IZR (Nobjects demo_sampler) + L)) /\
  (forall st'' i L,
     finalize nat (fun _ => 0%Z) 0 demo_failed1 = Some st'' ->
     logLikelihoodOfPosteriorSample (self st'') !! i = Some L ->
     logWeightOfPosteriorSample (self st'') !! i
     = Some (ln (1 - exp (- 1 / IZR (Nobjects demo_sampler)))
             - INR (Nat.min i (Z.to_nat (Niterations (self st''))))
               / IZR (Nobjects demo_sampler) + L)).
Proof.
  split; [exact demo_init_eq|]. split; [exact demo_reaches_st1|].
  split; [exact demo_fail_second|].
  exact (record_weights nat (fun _ => 0%Z) 0 demo_logValue demo_cluster demo_uniform (demo_draw 1) 1 0 5 2 10 demo_sampler 0%nat [] demo_st0 1 demo_st1 DrawFailed
           demo_failed1 demo_init_eq demo_reaches_st1 demo_fail_second).
Defined.

Lemma evidence_is_the_sum_of_the_weights_witness :
  demo_init = Some demo_st0 /\
  demo_reaches 1 1 demo_st0 demo_st1 /\
  demo_body 1 demo_st1 = Some (DrawFailed, demo_failed1) /\
  exp (logEvidence (self demo_failed1))
  = exp (logEvidence demo_sampler)
    + sum (map exp (logWeightOfPosteriorSample (self demo_failed1))).
Proof.
  split; [exact demo_init_eq|]. split; [exact demo_reaches_st1|].
  split; [exact demo_fail_second|].
  exact (evidence_is_the_sum_of_the_weights nat (fun _ => 0%Z) 0 demo_logValue demo_cluster demo_uniform (demo_draw 1) 1 0 5 2 10 demo_sampler 0%nat [] demo_st0 1 demo_st1
           DrawFailed demo_failed1 demo_init_eq demo_reaches_st1 demo_fail_second).
Defined.

Lemma run_is_quiet_witness :
  printOnTheScreen nat demo_sampler = false /\
  demo_run 1 2 = Some (DrawFailed, demo_final) /\
  exists t unit,
    cerr demo_final
    = [] ++ (if decide (DrawFailed = DrawFailed) then warning_no_better_point else [])
         ++ [Text ""%string; Elapsed t unit].
Proof.
  split; [reflexivity|]. split; [exact demo_run_eq|].
  exact (run_is_quiet nat (fun _ => 0%Z) 0 demo_logValue demo_cluster demo_uniform (demo_draw 1) 1 0 5 2 10 2 demo_sampler 0%nat [] DrawFailed demo_final eq_refl demo_run_eq).
Defined.

Lemma run_calls_its_collaborators_on_schedule_witness :
  demo_init = Some demo_st0 /\
  demo_reaches 1 1 demo_st0 demo_st1 /\
  demo_body 1 demo_st1 = Some (DrawFailed, demo_failed1) /\
  calls demo_failed1 = expectedCalls 5 2 2 /\
  (forall st'', finalize nat (fun _ => 0%Z) 0 demo_failed1 = Some st'' -> calls st'' = expectedCalls 5 2 2).
Proof.
  split; [exact demo_init_eq|]. split; [exact demo_reaches_st1|].
  split; [exact demo_fail_second|].
  exact (run_calls_its_collaborators_on_schedule nat (fun _ => 0%Z) 0 demo_logValue demo_cluster demo_uniform (demo_draw 1) 1 0 5 2 10 demo_sampler 0%nat [] demo_st0 1
           demo_st1 DrawFailed demo_failed1 demo_init_eq demo_reaches_st1 demo_fail_second).
Defined.

Lemma demo_counter_in_range : uniform_in_range nat demo_counter.
Proof.
  intros a b w Hab. simpl.
  pose proof (Z.mod_pos_bound (Z.of_nat w) (b - a + 1) ltac:(lia)). lia.
Qed.

Lemma demo_draw_constant_keeps_dimension : draw_keeps_dimension nat demo_draw_constant.
Proof.
  intros this sample Ncl cIdx cSizes p m w q l w'. unfold demo_draw_constant.
  intros [= <- _ _]. apply length_replicate.
Qed.

Lemma demo_counter_ends (iworst : Z) (w : nat) :
  is_Some (chooseLivePoint nat demo_counter 2 2 iworst w).
Proof.
  simpl. repeat case_decide; try by eexists.
  exfalso. subst iworst.
  assert (Hw : (Z.of_nat (S w) = Z.of_nat w + 1)%Z) by lia. rewrite Hw in *.
  revert H0. generalize (Z.of_nat w). intros z Hz.
  change (2 - 1 - 0 + 1)%Z with 2%Z in Hz. Z.div_mod_to_equations. lia.
Qed.

Lemma iteration_is_defined_witness :
  (1 <= Nobjects demo_sampler2)%Z /\
  2%Z <> 0%Z /\
  uniform_in_range nat demo_counter /\
  draw_keeps_dimension nat demo_draw_constant /\
  ((1 < Nobjects demo_sampler2)%Z ->
   forall iworst w',
     is_Some (chooseLivePoint nat demo_counter 2 (Nobjects demo_sampler2) iworst w')) /\
  run_init nat (fun _ => 0%Z) 0 demo_logValue demo_sampler2 0%nat [] = Some demo2_st0 /\
  reaches nat 0 demo_cluster demo_counter demo_draw_constant 2 0 5 2 10 0 demo2_st0 demo2_st0 /\
  exists o st',
    loopBody nat 0 demo_cluster demo_counter demo_draw_constant 2 0 5 2 10 demo2_st0
    = Some (o, st').
Proof.
  split; [simpl; lia|]. split; [done|]. split; [exact demo_counter_in_range|].
  split; [exact demo_draw_constant_keeps_dimension|].
  split; [intros _; exact demo_counter_ends|]. split; [reflexivity|].
  split; [apply reaches_O|].
  exact (iteration_is_defined nat (fun _ => 0%Z) 0 demo_logValue demo_cluster demo_counter
           demo_draw_constant 2 0 5 2 10 demo_sampler2 0%nat [] demo2_st0 0 demo2_st0
           ltac:(simpl; lia) ltac:(done) demo_counter_in_range
           demo_draw_constant_keeps_dimension (fun _ => demo_counter_ends) eq_refl
           (reaches_O _ _ _ _ _ _ _ _ _ _ _)).
Defined.

Lemma demo_results_in_range : posterior_in_range nat demo_results.
Proof.
  eapply (posterior_in_range_intro nat _ _ 0 0);
    [unfold logPosteriorDistribution, cwise; simpl; reflexivity| |lra|simpl; lra..].
  do 2 (constructor; [lra|]). constructor.
Qed.

Lemma demo_posterior : posteriorProbability nat demo_results = Some demo_post.
Proof.
  destruct demo_results_in_range as (l & Hl & Hrange).
  rewrite (posteriorProbability_eq nat _ _ Hl Hrange).
  unfold logPosteriorDistribution, cwise in Hl. simpl in Hl. by injection Hl as <-.
Qed.

Lemma posteriorProbability_values_and_order_witness :
  posteriorProbability nat demo_results = Some demo_post /\
  let logWL := zip_with Rplus (logWeightOfPosteriorSample demo_results)
                 (logLikelihoodOfPosteriorSample demo_results) in
  length demo_post = length (logLikelihoodOfPosteriorSample demo_results) /\
  length demo_post = length (logWeightOfPosteriorSample demo_results) /\
  demo_post = normalised (map (fun x => x - logEvidence demo_results) logWL) /\
  Forall (fun q => 0 < q <= 1) demo_post /\
  forall i j a b p q,
    logWL !! i = Some a -> logWL !! j = Some b ->
    demo_post !! i = Some p -> demo_post !! j = Some q ->
    a <= b -> p <= q.
Proof.
  split; [exact demo_posterior|].
  exact (posteriorProbability_values_and_order nat demo_results demo_post demo_posterior).
Defined.

Lemma posterior_probability_after_run_witness :
  demo_run 1 2 = Some (DrawFailed, demo_final) /\
  posterior_in_range nat (self demo_final) /\
  let sF := self demo_final in
  let twice i L :=
    finalWeight (Nobjects demo_sampler) (Z.to_nat (Niterations sF)) i L + L in
  logPosteriorDistribution nat sF
  = Some (imap (fun i L => twice i L - logEvidence sF) (logLikelihoodOfPosteriorSample sF)) /\
  (posterior_in_range nat sF ->
   posteriorProbability nat sF
   = Some (normalised (imap (fun i L => twice i L - logEvidence sF)
                         (logLikelihoodOfPosteriorSample sF)))).
Proof.
  split; [exact demo_run_eq|]. split; [exact demo_final_in_range|].
  exact (posterior_probability_after_run nat (fun _ => 0%Z) 0 demo_logValue demo_cluster demo_uniform (demo_draw 1) 2 1 0 5 2 10 demo_sampler 0%nat [] DrawFailed demo_final
           demo_run_eq).
Defined.

Lemma median_and_mode_are_sample_values_witness :
  rearranges demo_sortElementsDouble /\
  (0 < rows (posteriorSample (self demo_final)))%nat /\
  row (posteriorSample (self demo_final)) 0 = Some [0; 0 + 1; 0 + 1] /\
  exists est,
    parameterEstimation nat demo_sortElementsDouble (self demo_final) 68.3 = Some est /\
    exists med mode,
      coefficient est 0 1 = Some med /\ coefficient est 0 2 = Some mode /\
      med ∈ [0; 0 + 1; 0 + 1] /\ mode ∈ [0; 0 + 1; 0 + 1].
Proof.
  split; [exact demo_sort_rearranges|]. split; [simpl; lia|]. split; [reflexivity|].
  destruct (parameterEstimation_is_Some nat demo_sortElementsDouble (self demo_final) 68.3
              demo_sort_rearranges ltac:(done) ltac:(by repeat constructor) eq_refl eq_refl
              demo_final_in_range)
    as [est Hest].
  exists est. split; [exact Hest|].
  exact (median_and_mode_are_sample_values nat demo_sortElementsDouble (self demo_final)
           68.3 est 0 [0; 0 + 1; 0 + 1] demo_sort_rearranges Hest ltac:(simpl; lia) eq_refl).
Defined.

Lemma parameterEstimation_of_an_empty_sample_witness :
  rearranges demo_sortElementsDouble /\
  columns (posteriorSample demo_sampler) = [] /\
  logWeightOfPosteriorSample demo_sampler = [] /\
  logLikelihoodOfPosteriorSample demo_sampler = [] /\
  parameterEstimation nat demo_sortElementsDouble demo_sampler 68.3
  = if decide (rows (posteriorSample demo_sampler) = 0%nat)
    then Some (MkArrayXXd 0 (replicate 6 []))
    else None.
Proof.
  split; [exact demo_sort_rearranges|]. split; [reflexivity|]. split; [reflexivity|].
  split; [reflexivity|].
  exact (parameterEstimation_of_an_empty_sample nat demo_sortElementsDouble demo_sampler 68.3
           demo_sort_rearranges eq_refl eq_refl eq_refl).
Defined.
